(** * gpu-course: image and signal batch processor ([fn.cpp])

    A shallow embedding of the two processing classes of [fn.cpp],
    [ImageProcessor] and [SignalProcessor], of [main] with its command
    line, and of the parts of the C++ standard library they call.  [double]
    is the kernel's binary64 [float], [int] and [size_t] are [Z] with their
    ranges written out, [std::vector] is [list], and everything that can
    throw or leave defined behaviour returns an [outcome].  The file system
    is a directory tree in which path names are followed as the kernel
    follows them, the console two lists of lines, and the kernels of the
    vision library and what the standards leave to the implementation are
    parameters ([OpenCV], [Platform]).

    The model comes first, then the specifications the claims are stated
    with, example inputs, and the proofs, grouped by the function they are
    about; further properties of the same functions and of [main] close the
    file. *)

From Stdlib Require Import ZArith String Ascii List Bool Lia Floats.
From Stdlib Require Import DecimalString DecimalPos DecimalZ.

Set Warnings "-inexact-float".
Import ListNotations.
Open Scope Z_scope.

(** ** Outcomes of running a piece of the program *)

(** What stops a run early: undefined behaviour of the C++ abstract machine,
    or an exception that the function itself does not catch. *)
Inductive fault : Type :=
| OutOfRange          (* operator[] past the end of a vector *)
| SignedOverflow      (* int arithmetic leaving the range of int *)
| FloatToInt          (* static_cast<int> of a double that int cannot hold *)
| FilesystemError (what : string)   (* std::filesystem::filesystem_error *)
| CvException.        (* cv::Exception from the vision library *)

Inductive outcome (A : Type) : Type :=
| Ok (a : A)
| Fault (f : fault)
| OutOfFuel.          (* the loop budget of the model ran out *)

Arguments Ok {A} a.
Arguments Fault {A} f.
Arguments OutOfFuel {A}.

Definition bind {A B} (m : outcome A) (k : A -> outcome B) : outcome B :=
  match m with
  | Ok a => k a
  | Fault f => Fault f
  | OutOfFuel => OutOfFuel
  end.

Notation "x <- m ;; k" := (bind m (fun x => k))
  (at level 61, m at next level, right associativity).

Fixpoint mapM {A B} (f : A -> outcome B) (l : list A) : outcome (list B) :=
  match l with
  | [] => Ok []
  | a :: l' => b <- f a ;; bs <- mapM f l' ;; Ok (b :: bs)
  end.

(** ** Machine integers *)

Module Int.
Definition min : Z := - 2 ^ 31.
Definition max : Z := 2 ^ 31 - 1.          (* INT_MAX *)
Definition in_range (z : Z) : bool := (min <=? z) && (z <=? max).

(** Signed arithmetic: a result outside [int] is undefined behaviour. *)
Definition checked (z : Z) : outcome Z :=
  if in_range z then Ok z else Fault SignedOverflow.
Definition add (a b : Z) : outcome Z := checked (a + b).
Definition sub (a b : Z) : outcome Z := checked (a - b).
Definition checked_cast (z : Z) : outcome Z :=
  if in_range z then Ok z else Fault FloatToInt.

(** [static_cast<int>] of an unsigned value: reduced modulo 2^32. *)
Definition of_size (z : Z) : Z := (z + 2 ^ 31) mod 2 ^ 32 - 2 ^ 31.
End Int.

Module Size.
Definition modulus : Z := 2 ^ 64.
(** [size_t] arithmetic wraps around. *)
Definition add (a b : Z) : Z := (a + b) mod modulus.
Definition sub (a b : Z) : Z := (a - b) mod modulus.
(** Conversion of an [int] to [size_t], as in [signal[j]] with [int j]. *)
Definition of_int (z : Z) : Z := z mod modulus.
End Size.

(** ** std::vector<double> *)

Definition size {A} (v : list A) : Z := Z.of_nat (length v).

(** [v[i]] for a [size_t] index [i]: past the end there is no element. *)
Definition at_index (v : list float) (i : Z) : outcome float :=
  if (0 <=? i) && (i <? size v)
  then Ok (nth (Z.to_nat i) v PrimFloat.zero)
  else Fault OutOfRange.

(** [a > b] on doubles. *)
Definition gt (a b : float) : bool := PrimFloat.ltb b a.

(** Conversion of a non-negative [int] or [size_t] to [double], rounded to
    nearest even. *)
Definition to_double (z : Z) : float :=
  SF2Prim (binary_normalize prec emax z 0 false).

(** ** Characters and strings of the C++ standard library *)

Module Char.
Definition code (c : ascii) : Z := Z.of_N (N_of_ascii c).
Definition between (lo hi : Z) (c : ascii) : bool := (lo <=? code c) && (code c <=? hi).

(** [isspace] in the C locale: space, and [\t \n \v \f \r]. *)
Definition is_space (c : ascii) : bool := (code c =? 32) || between 9 13 c.
Definition is_digit (c : ascii) : bool := between 48 57 c.
Definition is_upper (c : ascii) : bool := between 65 90 c.
Definition is_lower (c : ascii) : bool := between 97 122 c.
Definition is_alpha (c : ascii) : bool := is_upper c || is_lower c.

(** [::tolower] in the C locale. *)
Definition tolower (c : ascii) : ascii :=
  if is_upper c then ascii_of_N (Z.to_N (code c + 32)) else c.

Definition is_xdigit (c : ascii) : bool :=
  is_digit c || between 97 102 (tolower c).
Definition digit_value (c : ascii) : Z := code c - 48.
Definition xdigit_value (c : ascii) : Z :=
  if is_digit c then code c - 48 else code (tolower c) - 87.
End Char.

Definition chars (s : string) : list ascii := list_ascii_of_string s.
Definition text (l : list ascii) : string := string_of_list_ascii l.

(** The longest prefix of [l] whose characters satisfy [p], and the rest. *)
Fixpoint span (p : ascii -> bool) (l : list ascii) : list ascii * list ascii :=
  match l with
  | c :: l' =>
      if p c then let '(a, b) := span p l' in (c :: a, b) else ([], l)
  | [] => ([], [])
  end.

(** [std::to_string(int)] and [operator<<] on integers: decimal, with a
    leading minus sign for negative values. *)
Definition to_string (z : Z) : string := NilZero.string_of_int (Z.to_int z).

(** The exceptions that the conversions of [<string>] throw, with the name
    of the function that throws: [std::invalid_argument] when no conversion
    can be done, [std::out_of_range] when the value does not fit. *)
Inductive exception : Type :=
| invalid_argument_in (function : string)
| out_of_range_in (function : string).

(** What is left implementation-defined by the C and C++ standards and is
    used by the program. *)
Class Platform : Type := {
  (** whether [strtod] reports [ERANGE] on a result that underflows *)
  erange_on_underflow : bool;
  (** whether a result counts as tiny by what it is after rounding to the
      precision of a double (as on x86) or before (as on ARM) *)
  tiny_after_rounding : bool;
  (** the lines that the terminate handler writes to the standard error
      stream when nobody catches an exception *)
  terminate_report : exception -> list string;
  (** [operator<<(std::ostream&, double)] in the stream's default format *)
  put_double : float -> string;
  (** the [k]-th reading of [high_resolution_clock::now()], in nanoseconds *)
  clock_ns : nat -> Z
}.

(** ** std::stod *)

Module Stod.

(** The subject sequence recognised by [strtod], after white space and sign. *)
Inductive number : Type :=
| Decimal (mantissa : Z) (exp10 : Z)     (* mantissa * 10 ^ exp10 *)
| Hexadecimal (mantissa : Z) (exp2 : Z)  (* mantissa * 2 ^ exp2 *)
| Infinity
| NotANumber.

Definition digits_value (base : Z) (val : ascii -> Z) (ds : list ascii) : Z :=
  fold_left (fun acc c => acc * base + val c) ds 0.

(** An optional sign: whether it is a minus, and what follows it. *)
Definition strip_sign (l : list ascii) : bool * list ascii :=
  match l with
  | c :: l' =>
      if Ascii.eqb c "-" then (true, l')
      else if Ascii.eqb c "+" then (false, l')
      else (false, l)
  | [] => (false, l)
  end.

(** What follows the character [c] at the head of [l], if it is there. *)
Definition strip_char (c : ascii) (l : list ascii) : option (list ascii) :=
  match l with
  | x :: l' => if Ascii.eqb x c then Some l' else None
  | [] => None
  end.

(** An exponent part: the letter [e] (or [p]) in either case, an optional
    sign and at least one decimal digit.  Without the digits nothing is
    consumed. *)
Definition lex_exponent (letter : ascii) (l : list ascii) : Z * list ascii :=
  match l with
  | c :: l1 =>
      if Ascii.eqb (Char.tolower c) letter then
        let '(neg, l2) := strip_sign l1 in
        let '(ds, rest) := span Char.is_digit l2 in
        match ds with
        | [] => (0, l)
        | _ :: _ => let e := digits_value 10 Char.digit_value ds in
                    ((if neg then - e else e), rest)
        end
      else (0, l)
  | [] => (0, l)
  end.

(** Digits with an optional radix point: the digits before and after the
    point and the rest; [None] when there is no digit at all. *)
Definition lex_digits (is_d : ascii -> bool) (l : list ascii)
  : option (list ascii * list ascii * list ascii) :=
  let '(ip, l1) := span is_d l in
  let '(fp, l2) :=
    match strip_char "." l1 with
    | Some l1' => span is_d l1'
    | None => ([], l1)
    end in
  match ip, fp with
  | [], [] => None
  | _, _ => Some (ip, fp, l2)
  end.

Definition lex_decimal (l : list ascii) : option (number * list ascii) :=
  match lex_digits Char.is_digit l with
  | Some (ip, fp, l1) =>
      let '(e, rest) := lex_exponent "e" l1 in
      Some (Decimal (digits_value 10 Char.digit_value (ip ++ fp)) (e - size fp), rest)
  | None => None
  end.

(** [l] starts with [word], ignoring case; the rest of [l]. *)
Fixpoint strip_word (word l : list ascii) : option (list ascii) :=
  match word, l with
  | [], _ => Some l
  | w :: word', c :: l' =>
      if Ascii.eqb (Char.tolower c) w then strip_word word' l' else None
  | _ :: _, [] => None
  end.

Definition lex_hex (l : list ascii) : option (number * list ascii) :=
  match strip_word (chars "0x") l with
  | Some l0 =>
      match lex_digits Char.is_xdigit l0 with
      | Some (ip, fp, l1) =>
          let '(e, rest) := lex_exponent "p" l1 in
          Some (Hexadecimal (digits_value 16 Char.xdigit_value (ip ++ fp))
                            (e - 4 * size fp), rest)
      | None => None
      end
  | None => None
  end.

Definition lex_infinity (l : list ascii) : option (number * list ascii) :=
  match strip_word (chars "inf") l with
  | Some l1 =>
      match strip_word (chars "inity") l1 with
      | Some l2 => Some (Infinity, l2)
      | None => Some (Infinity, l1)
      end
  | None => None
  end.

Definition is_nchar (c : ascii) : bool :=
  Char.is_digit c || Char.is_alpha c || Ascii.eqb c "_".

(** [nan], optionally followed by a parenthesised sequence of digits,
    letters and underscores. *)
Definition lex_nan (l : list ascii) : option (number * list ascii) :=
  match strip_word (chars "nan") l with
  | Some l1 =>
      match strip_char "(" l1 with
      | Some l2 =>
          match strip_char ")" (snd (span is_nchar l2)) with
          | Some l4 => Some (NotANumber, l4)
          | None => Some (NotANumber, l1)
          end
      | None => Some (NotANumber, l1)
      end
  | None => None
  end.

Definition lex_number (l : list ascii) : option (number * list ascii) :=
  match lex_hex l with
  | Some r => Some r
  | None =>
      match lex_decimal l with
      | Some r => Some r
      | None =>
          match lex_infinity l with
          | Some r => Some r
          | None => lex_nan l
          end
      end
  end.

(** White space, an optional sign, a number: the sign, the number and the
    characters after it. *)
Definition lex (l : list ascii) : option (bool * number * list ascii) :=
  let '(neg, l1) := strip_sign (snd (span Char.is_space l)) in
  match lex_number l1 with
  | Some (n, rest) => Some (neg, n, rest)
  | None => None
  end.

(** *** The value of a number, correctly rounded to binary64 *)

Definition round_ratio (neg : bool) (num den : Z) : spec_float :=
  let '(q, e, loc) := SFdiv_core_binary prec emax num 0 den 0 in
  binary_round_aux prec emax neg q e loc.

(** The number of decimal digits of a positive mantissa is at most its
    number of bits. *)
Definition magnitude (neg : bool) (n : number) : spec_float :=
  match n with
  | Decimal m k =>
      if m =? 0 then S754_zero neg
      else if 400 <? k then S754_infinity neg
      else if k <? - (Z.log2 m + 400) then S754_zero neg
      else if 0 <=? k then round_ratio neg (m * 10 ^ k) 1
      else round_ratio neg m (10 ^ (- k))
  | Hexadecimal m k =>
      if m =? 0 then S754_zero neg
      else if 2000 <? k then S754_infinity neg
      else if k <? - (Z.log2 m + 2000) then S754_zero neg
      else binary_normalize prec emax (if neg then - m else m) k neg
  | Infinity => S754_infinity neg
  | NotANumber => S754_nan
  end.

(** The result is too large for a double. *)
Definition overflows (n : number) : bool :=
  match n, magnitude false n with
  | (Decimal _ _ | Hexadecimal _ _), S754_infinity _ => true
  | _, _ => false
  end.

(** [num / den] is the value of the double [x]. *)
Definition is_exactly (num den : Z) (x : spec_float) : bool :=
  match x with
  | S754_finite _ m e =>
      if 0 <=? e then num =? den * (Zpos m * 2 ^ e)
      else num * 2 ^ (- e) =? den * Zpos m
  | _ => false
  end.

(** [num / den] is tiny: less than [2 ^ -1022], the smallest normal
    double, before rounding; or, after rounding to 53 bits with no bound on
    the exponent, still less than it, which is the case below
    [2 ^ -1022 - 2 ^ -1076]. *)
Definition is_tiny `{Platform} (num den : Z) : bool :=
  if tiny_after_rounding then num * 2 ^ 1076 <? den * (2 ^ 54 - 1)
  else num * 2 ^ 1022 <? den.

(** The result underflows: the value is not zero, it is tiny, and the
    double returned for it is not exactly the value. *)
Definition underflows `{Platform} (n : number) : bool :=
  match n with
  | Decimal m k =>
      if m =? 0 then false
      else if 400 <? k then false
      else if k <? - (Z.log2 m + 400) then true
      else
        let '(num, den) := if 0 <=? k then (m * 10 ^ k, 1) else (m, 10 ^ (- k)) in
        is_tiny num den && negb (is_exactly num den (magnitude false n))
  | Hexadecimal m k =>
      if m =? 0 then false
      else if 2000 <? k then false
      else if k <? - (Z.log2 m + 2000) then true
      else
        let '(num, den) := if 0 <=? k then (m * 2 ^ k, 1) else (m, 2 ^ (- k)) in
        is_tiny num den && negb (is_exactly num den (magnitude false n))
  | _ => false
  end.

(** [strtod] sets [errno] to [ERANGE]: always when the result overflows,
    and when it underflows if the platform does so (glibc does). *)
Definition range_error `{Platform} (n : number) : bool :=
  overflows n || (erange_on_underflow && underflows n).

Inductive result : Type :=
| Value (v : float)
| invalid_argument       (* no conversion could be performed *)
| out_of_range.          (* strtod reported ERANGE *)

(** The characters seen by [strtod] through [c_str()]: up to the first NUL. *)
Definition c_str (s : string) : list ascii :=
  fst (span (fun c => negb (Ascii.eqb c Ascii.zero)) (chars s)).

Definition stod `{Platform} (s : string) : result :=
  match lex (c_str s) with
  | None => invalid_argument
  | Some (neg, n, _) =>
      if range_error n then out_of_range
      else Value (SF2Prim (magnitude neg n))
  end.

End Stod.

(** ** std::filesystem *)

Module Fs.

(** A directory tree.  The program runs with the root of the tree as its
    working directory and as its file-system root; there are no links and
    no permissions. *)
#[warnings="-register-all"]
Inductive node : Type :=
| File (content : string)                 (* a regular file *)
| Dir (entries : list (string * node))
| Special.                                (* a device such as /dev/null: it
                                             opens, gives nothing to read and
                                             swallows what is written *)

Definition path : Type := list string.

(** *** Path names *)

(** The part of [l] after the last [c]; [None] when [c] does not occur. *)
Fixpoint after_last (c : ascii) (l : list ascii) : option (list ascii) :=
  match l with
  | [] => None
  | x :: l' =>
      match after_last c l' with
      | Some r => Some r
      | None => if Ascii.eqb x c then Some l' else None
      end
  end.

(** [path::filename()]. *)
Definition filename (p : string) : string :=
  match after_last "/"%char (chars p) with
  | Some r => text r
  | None => p
  end.

(** [path::extension()]: from the rightmost period of the file name, unless
    that period is its first character or the name is dot or dot-dot. *)
Definition extension (p : string) : string :=
  let f := filename p in
  if String.eqb f "." || String.eqb f ".." then ""%string
  else match chars f with
       | [] => ""%string
       | _ :: f' =>
           match after_last "."%char f' with
           | Some r => text ("."%char :: r)
           | None => ""%string
           end
       end.

(** [a / b] for a directory name [a] and a file name [b]. *)
Definition join (a b : string) : string :=
  match after_last "/"%char (chars a) with
  | Some [] => a ++ b
  | _ => a ++ "/" ++ b
  end.

(** The pieces of [l] between slashes. *)
Fixpoint split_slash (cur l : list ascii) : list string :=
  match l with
  | [] => [text (rev cur)]
  | c :: l' =>
      if Ascii.eqb c "/"%char then text (rev cur) :: split_slash [] l'
      else split_slash (c :: cur) l'
  end.

Definition step (acc : path) (c : string) : path :=
  if String.eqb c "" || String.eqb c "." then acc
  else if String.eqb c ".." then removelast acc
  else acc ++ [c].

(** The place that a path name leads to when every component is taken as
    it is written: the names from the root, [.] and the empty component
    dropped and [..] cancelling the name before it. *)
Definition resolve (p : string) : path :=
  fold_left step (split_slash [] (chars p)) [].

(** The places that are passed on that way, one after every component. *)
Fixpoint places_from (acc : path) (cs : list string) : list path :=
  match cs with
  | [] => []
  | c :: cs' => step acc c :: places_from (step acc c) cs'
  end.

Definition places (p : string) : list path :=
  places_from [] (split_slash [] (chars p)).

(** *** The tree *)

Fixpoint assoc (name : string) (es : list (string * node)) : option node :=
  match es with
  | [] => None
  | (n, x) :: es' => if String.eqb n name then Some x else assoc name es'
  end.

Fixpoint set_entry (name : string) (x : node) (es : list (string * node))
  : list (string * node) :=
  match es with
  | [] => [(name, x)]
  | (n, y) :: es' =>
      if String.eqb n name then (n, x) :: es' else (n, y) :: set_entry name x es'
  end.

Fixpoint lookup (p : path) (n : node) : option node :=
  match p with
  | [] => Some n
  | c :: p' =>
      match n with
      | Dir es =>
          match assoc c es with
          | Some x => lookup p' x
          | None => None
          end
      | _ => None
      end
  end.

(** The walk of the kernel along the components [cs] from the place [acc]:
    every component, also [.], [..] and the empty one, is taken from a
    directory that is there.  The place reached need not be there. *)
Fixpoint locate_from (root : node) (acc : path) (cs : list string) : option path :=
  match cs with
  | [] => Some acc
  | c :: cs' =>
      match lookup acc root with
      | Some (Dir _) => locate_from root (step acc c) cs'
      | _ => None
      end
  end.

(** Where a path name leads; the empty path name leads nowhere. *)
Definition locate (p : string) (root : node) : option path :=
  if String.eqb p ""%string then None
  else locate_from root [] (split_slash [] (chars p)).

(** What a path name names, if anything. *)
Definition status (p : string) (root : node) : option node :=
  match locate p root with
  | Some q => lookup q root
  | None => None
  end.

(** Why a walk along [cs] from [acc] finds nothing: a component is taken
    from something that is not a directory, or is not there. *)
Fixpoint strerror_from (root : node) (acc : path) (cs : list string) : string :=
  match lookup acc root with
  | Some (Dir _) =>
      match cs with
      | [] => "Success"%string
      | c :: cs' => strerror_from root (step acc c) cs'
      end
  | Some _ =>
      match cs with
      | [] => "Success"%string
      | _ :: _ => "Not a directory"%string
      end
  | None => "No such file or directory"%string
  end.

Definition strerror (p : string) (root : node) : string :=
  if String.eqb p ""%string then "No such file or directory"%string
  else strerror_from root [] (split_slash [] (chars p)).

(** [what()] of a [filesystem_error], in the wording of libstdc++. *)
Definition what (operation error p : string) : string :=
  ("filesystem error: " ++ operation ++ ": " ++ error ++ " [" ++ p ++ "]")%string.

(** [fs::exists]. *)
Definition exists_ (p : string) (root : node) : bool :=
  match status p root with
  | Some _ => true
  | None => false
  end.

(** Every missing directory along [p] is made; [None] when a component is
    there and is not a directory. *)
Fixpoint mkdirs (p : path) (n : node) : option node :=
  match n with
  | Dir es =>
      match p with
      | [] => Some n
      | c :: p' =>
          match mkdirs p' (match assoc c es with Some x => x | None => Dir [] end) with
          | Some x' => Some (Dir (set_entry c x' es))
          | None => None
          end
      end
  | _ => None
  end.

(** The directories at the places [qs] are made, one after the other. *)
Fixpoint make_all (qs : list path) (root : node) : option node :=
  match qs with
  | [] => Some root
  | q :: qs' =>
      match mkdirs q root with
      | Some root' => make_all qs' root'
      | None => None
      end
  end.

(** [fs::create_directories]: the directories that are missing on the way
    are made, each before the components after it are taken, so that [..]
    leaves a directory that is there by then. *)
Definition create_directories (p : string) (root : node) : outcome node :=
  if String.eqb p ""%string then
    Fault (FilesystemError (what "cannot create directories"%string "Invalid argument"%string p))
  else
    match make_all (places p) root with
    | Some root' => Ok root'
    | None =>
        Fault (FilesystemError (what "cannot create directories"%string "Not a directory"%string p))
    end.

(** The entries below a directory, each directory before its contents,
    named from [prefix]. *)
Fixpoint walk (prefix : string) (n : node) : list (string * node) :=
  match n with
  | Dir es =>
      flat_map (fun e => let '(name, x) := e in
                         (join prefix name, x) :: walk (join prefix name) x) es
  | _ => []
  end.

(** [fs::recursive_directory_iterator(dir)], as the sequence it yields. *)
Definition recursive_directory_iterator (dir : string) (root : node)
  : outcome (list (string * node)) :=
  match status dir root with
  | Some (Dir es) => Ok (walk dir (Dir es))
  | Some _ =>
      Fault (FilesystemError (what "recursive directory iterator cannot open directory"%string
                                   "Not a directory"%string dir))
  | None =>
      Fault (FilesystemError (what "recursive directory iterator cannot open directory"%string
                                   (strerror dir root) dir))
  end.

(** [directory_entry::is_regular_file()]. *)
Definition is_regular_file (x : node) : bool :=
  match x with File _ => true | _ => false end.

(** The bytes of a regular file; [None] when there is none at [p]. *)
Definition read (p : string) (root : node) : option string :=
  match status p root with
  | Some (File content) => Some content
  | _ => None
  end.

(** [std::ifstream file(p)] and what can be read from it; [None] when it
    cannot be opened.  A directory can be opened, and every read from it
    fails. *)
Definition open_in (p : string) (root : node) : option string :=
  match status p root with
  | Some (File content) => Some content
  | Some _ => Some ""%string
  | None => None
  end.

(** [fs::file_size]. *)
Definition file_size (p : string) (root : node) : outcome Z :=
  match status p root with
  | Some (File content) => Ok (Z.of_nat (String.length content))
  | Some (Dir _) =>
      Fault (FilesystemError (what "cannot get file size"%string "Is a directory"%string p))
  | Some Special =>
      Fault (FilesystemError (what "cannot get file size"%string "Operation not supported"%string p))
  | None => Fault (FilesystemError (what "cannot get file size"%string (strerror p root) p))
  end.

(** A regular file is created or truncated at the place [p] and filled
    with [content]; [None] when it cannot be opened for writing. *)
Fixpoint put (p : path) (content : string) (n : node) : option node :=
  match p, n with
  | [c], Dir es =>
      match assoc c es with
      | Some (Dir _) => None
      | Some Special => Some n
      | _ => Some (Dir (set_entry c (File content) es))
      end
  | c :: p', Dir es =>
      match assoc c es with
      | Some x =>
          match put p' content x with
          | Some x' => Some (Dir (set_entry c x' es))
          | None => None
          end
      | None => None
      end
  | _, _ => None
  end.

Definition write (p : string) (content : string) (root : node) : option node :=
  match locate p root with
  | Some q => put q content root
  | None => None
  end.

End Fs.

(** ** The world around the program *)

Record world : Type := {
  fs : Fs.node;
  ticks : nat;               (* clock readings taken so far *)
  cout : list string;        (* lines written to standard output *)
  cerr : list string         (* lines written to standard error *)
}.

(** A piece of the program that acts on the world; a fault leaves behind
    the world as it was when it happened. *)
Definition action (A : Type) : Type := world -> outcome A * world.

Definition ret {A} (a : A) : action A := fun w => (Ok a, w).
Definition lift {A} (m : outcome A) : action A := fun w => (m, w).

Definition bindA {A B} (m : action A) (k : A -> action B) : action B :=
  fun w =>
    match m w with
    | (Ok a, w') => k a w'
    | (Fault f, w') => (Fault f, w')
    | (OutOfFuel, w') => (OutOfFuel, w')
    end.

Notation "x <~ m ;; k" := (bindA m (fun x => k))
  (at level 61, m at next level, right associativity).
Notation "m ;;; k" := (bindA m (fun _ => k))
  (at level 61, right associativity).

Definition with_fs (f : Fs.node -> Fs.node) (w : world) : world :=
  {| fs := f (fs w); ticks := ticks w; cout := cout w; cerr := cerr w |}.

(** [std::cout << ... << std::endl]. *)
Definition print (line : string) : action unit :=
  fun w => (Ok tt, {| fs := fs w; ticks := ticks w;
                      cout := cout w ++ [line]; cerr := cerr w |}).

(** [std::cerr << ... << std::endl]. *)
Definition eprint (line : string) : action unit :=
  fun w => (Ok tt, {| fs := fs w; ticks := ticks w;
                      cout := cout w; cerr := cerr w ++ [line] |}).

(** [std::chrono::high_resolution_clock::now()]. *)
Definition now `{Platform} : action Z :=
  fun w => (Ok (clock_ns (ticks w)),
            {| fs := fs w; ticks := S (ticks w); cout := cout w; cerr := cerr w |}).

(** The [count()] of a [duration<double>] between two readings, in seconds. *)
Definition seconds (start stop : Z) : float :=
  PrimFloat.div (SF2Prim (binary_normalize prec emax (stop - start) 0 false))
                1000000000%float.

Definition when (b : bool) (m : action unit) : action unit :=
  if b then m else ret tt.

(** [if (!fs::exists(dir)) fs::create_directories(dir);] *)
Definition ensure_directory (dir : string) : action unit :=
  fun w =>
    if Fs.exists_ dir (fs w) then (Ok tt, w)
    else match Fs.create_directories dir (fs w) with
         | Ok root' => (Ok tt, with_fs (fun _ => root') w)
         | Fault f => (Fault f, w)
         | OutOfFuel => (OutOfFuel, w)
         end.

(** A range-based [for] over a vector, threading the object. *)
Fixpoint for_each {A T} (l : list A) (body : A -> T -> action T) (this : T) : action T :=
  match l with
  | [] => ret this
  | a :: l' => this' <~ body a this ;; for_each l' body this'
  end.

(** [static_cast<int>] of a double: the fraction is dropped; a value that
    [int] cannot hold, an infinity or a NaN is undefined behaviour. *)
Definition trunc_to_int (x : float) : outcome Z :=
  match Prim2SF x with
  | S754_zero _ => Ok 0
  | S754_finite s m e =>
      let mag := Z.shiftl (Zpos m) e in
      Int.checked_cast (if s then - mag else mag)
  | _ => Fault FloatToInt
  end.

(** ** The vision library

    The kernels of OpenCV are outside the program; only what the program
    asks of them is named here. *)
Class OpenCV : Type := {
  Mat : Type;
  (** decoding the bytes of an image file; [None] is the empty matrix *)
  imdecode : string -> option Mat;
  (** encoding for the file name given to [imwrite] *)
  imencode : string -> Mat -> string;
  cols : Mat -> Z;
  rows : Mat -> Z;
  (** [GaussianBlur(src, dst, Size(k, k), 0)]; it throws on a kernel size it
      does not accept *)
  GaussianBlur : Mat -> Z -> outcome Mat;
  (** [src.convertTo(dst, -1, alpha, beta)] *)
  convertTo : Mat -> float -> Z -> Mat;
  (** [Canny(src, edges, 50, 150)] *)
  Canny : Mat -> Mat;
  (** [cvtColor(src, dst, COLOR_GRAY2BGR)] *)
  cvtColor_GRAY2BGR : Mat -> Mat;
  (** [addWeighted(a, 0.7, b, 0.3, 0, dst)] *)
  addWeighted : Mat -> Mat -> Mat
}.

(** [cv::imread]: the file is read and decoded; an empty matrix on failure. *)
Definition imread `{OpenCV} (p : string) : action (option Mat) :=
  fun w =>
    (Ok match Fs.read p (fs w) with
        | Some bytes => imdecode bytes
        | None => None
        end, w).

(** [cv::imwrite], whose result the program ignores. *)
Definition imwrite `{OpenCV} (p : string) (m : Mat) : action unit :=
  fun w =>
    match Fs.write p (imencode p m) (fs w) with
    | Some root' => (Ok tt, with_fs (fun _ => root') w)
    | None => (Ok tt, w)
    end.

Module ImageProcessor.
Section WithEnvironment.
Context `{Platform} `{OpenCV}.

(** The private fields of the class. *)
Record t : Type := {
  image_paths : list string;
  output_dir : string;
  verbose : bool;
  blur_size : Z;
  contrast_alpha : float;
  contrast_beta : Z;
  apply_edge_detection : bool
}.

Definition set_image_paths (paths : list string) (this : t) : t :=
  {| image_paths := paths;
     output_dir := output_dir this;
     verbose := verbose this;
     blur_size := blur_size this;
     contrast_alpha := contrast_alpha this;
     contrast_beta := contrast_beta this;
     apply_edge_detection := apply_edge_detection this |}.

Definition set_output_dir (dir : string) (this : t) : t :=
  {| image_paths := image_paths this;
     output_dir := dir;
     verbose := verbose this;
     blur_size := blur_size this;
     contrast_alpha := contrast_alpha this;
     contrast_beta := contrast_beta this;
     apply_edge_detection := apply_edge_detection this |}.

Definition extensions : list string :=
  [".jpg"; ".jpeg"; ".png"; ".bmp"; ".tif"; ".tiff"]%string.

(** [std::transform(ext.begin(), ext.end(), ext.begin(), ::tolower)]. *)
Definition lowercase (s : string) : string := text (map Char.tolower (chars s)).

(** The test of [loadImagePaths] on one directory entry. *)
Definition is_image (entry : string * Fs.node) : bool :=
  Fs.is_regular_file (snd entry) &&
  existsb (String.eqb (lowercase (Fs.extension (fst entry)))) extensions.

Definition loadImagePaths (input_dir : string) (this : t) : action t :=
  entries <~ (fun w => (Fs.recursive_directory_iterator input_dir (fs w), w)) ;;
  ret (set_image_paths (map fst (filter is_image entries)) this).

(** The constructor. *)
Definition make (input_dir output_dir : string) (verbose : bool) : action t :=
  let this := {| image_paths := [];
                 output_dir := output_dir;
                 verbose := verbose;
                 blur_size := 5;
                 contrast_alpha := 1.5%float;
                 contrast_beta := 10;
                 apply_edge_detection := true |} in
  ensure_directory output_dir ;;;
  this <~ loadImagePaths input_dir this ;;
  when verbose
       (print ("Found " ++ to_string (size (image_paths this))
                        ++ " images for processing")) ;;;
  ret this.

Definition setProcessingParameters (blur_size : Z) (contrast_alpha : float)
           (contrast_beta : Z) (apply_edge_detection : bool) (this : t) : t :=
  {| image_paths := image_paths this;
     output_dir := output_dir this;
     verbose := verbose this;
     blur_size := blur_size;
     contrast_alpha := contrast_alpha;
     contrast_beta := contrast_beta;
     apply_edge_detection := apply_edge_detection |}.

Definition processImage (image_path : string) (this : t) : action unit :=
  image <~ imread image_path ;;
  match image with
  | None => eprint ("Error: Could not read image " ++ image_path)
  | Some image =>
      blurred <~ lift (GaussianBlur image (blur_size this)) ;;
      let contrast_adjusted :=
        convertTo blurred (contrast_alpha this) (contrast_beta this) in
      let processed :=
        if apply_edge_detection this
        then addWeighted contrast_adjusted
                         (cvtColor_GRAY2BGR (Canny contrast_adjusted))
        else contrast_adjusted in
      let filename := Fs.filename image_path in
      let output_path := (output_dir this ++ "/" ++ filename)%string in
      imwrite output_path processed ;;;
      when (verbose this) (print ("Processed: " ++ filename))
  end.

(** The loop of [processAllImages], at index [i]. *)
Fixpoint process_from (this : t) (i : Z) (paths : list string) : action unit :=
  match paths with
  | [] => ret tt
  | image_path :: rest =>
      processImage image_path this ;;;
      when (verbose this && (Size.add i 1 mod 10 =? 0))
           (print ("Progress: " ++ to_string (Size.add i 1) ++ "/"
                                ++ to_string (size (image_paths this)))) ;;;
      process_from this (Size.add i 1) rest
  end.

Definition processAllImages (this : t) : action unit :=
  start <~ now ;;
  process_from this 0 (image_paths this) ;;;
  stop <~ now ;;
  let duration := seconds start stop in
  print ("Processed " ++ to_string (size (image_paths this)) ++ " images in "
                      ++ put_double duration ++ " seconds") ;;;
  print ("Average time per image: "
           ++ put_double (PrimFloat.div duration (to_double (size (image_paths this))))
           ++ " seconds").

(** The name of the directory of one pair of parameters. *)
Definition param_dir (output_dir : string) (blur : Z) (contrast : float)
  : outcome string :=
  c10 <- trunc_to_int (PrimFloat.mul contrast 10%float) ;;
  Ok (output_dir ++ "/blur" ++ to_string blur ++ "_contrast" ++ to_string c10)%string.

(** The body of the inner loop of [batchProcess]. *)
Definition batch_cell (blur : Z) (contrast : float) (this : t) : action t :=
  dir <~ lift (param_dir (output_dir this) blur contrast) ;;
  ensure_directory dir ;;;
  let this := setProcessingParameters blur contrast (contrast_beta this)
                                      (apply_edge_detection this) this in
  let original_output_dir := output_dir this in
  let this := set_output_dir dir this in
  when (verbose this)
       (print ("Processing with blur=" ++ to_string blur ++ ", contrast="
                                       ++ put_double contrast)) ;;;
  processAllImages this ;;;
  ret (set_output_dir original_output_dir this).

Definition batchProcess (blur_sizes : list Z) (contrast_values : list float)
           (this : t) : action t :=
  for_each blur_sizes
           (fun blur => for_each contrast_values (batch_cell blur)) this.

(** *** analyzeImages *)

Record stats : Type := {
  total_size : Z;
  min_width : Z;
  max_width : Z;
  min_height : Z;
  max_height : Z
}.

Definition initial_stats : stats :=
  {| total_size := 0;
     min_width := Int.max; max_width := 0;
     min_height := Int.max; max_height := 0 |}.

(** The body of the loop of [analyzeImages]. *)
Definition analyze_step (path : string) (st : stats) : action stats :=
  bytes <~ (fun w => (Fs.file_size path (fs w), w)) ;;
  img <~ imread path ;;
  let total := Size.add (total_size st) bytes in
  ret match img with
      | Some img =>
          {| total_size := total;
             min_width := Z.min (min_width st) (cols img);
             max_width := Z.max (max_width st) (cols img);
             min_height := Z.min (min_height st) (rows img);
             max_height := Z.max (max_height st) (rows img) |}
      | None =>
          {| total_size := total;
             min_width := min_width st; max_width := max_width st;
             min_height := min_height st; max_height := max_height st |}
      end.

Definition report (this : t) (st : stats) : action unit :=
  print "Image Analysis:" ;;;
  print ("Number of images: " ++ to_string (size (image_paths this))) ;;;
  print ("Total size: "
           ++ put_double (PrimFloat.div (to_double (total_size st))
                                        (PrimFloat.mul 1024%float 1024%float))
           ++ " MB") ;;;
  print ("Average size: "
           ++ put_double
                (PrimFloat.div (to_double (total_size st))
                               (PrimFloat.mul 1024%float
                                              (to_double (size (image_paths this)))))
           ++ " KB/image") ;;;
  print ("Width range: " ++ to_string (min_width st) ++ " - "
                         ++ to_string (max_width st) ++ " pixels") ;;;
  print ("Height range: " ++ to_string (min_height st) ++ " - "
                          ++ to_string (max_height st) ++ " pixels").

Definition analyzeImages (this : t) : action unit :=
  match image_paths this with
  | [] => print "No images to analyze"
  | _ :: _ =>
      st <~ for_each (image_paths this) analyze_step initial_stats ;;
      report this st
  end.

End WithEnvironment.
End ImageProcessor.

Module SignalProcessor.

(** The private fields of the class. *)
Record t : Type := {
  signal_files : list string;
  output_dir : string;
  verbose : bool;
  window_size : Z;
  threshold : float
}.

Definition setProcessingParameters (window_size : Z) (threshold : float) (this : t) : t :=
  {| signal_files := signal_files this;
     output_dir := output_dir this;
     verbose := verbose this;
     window_size := window_size;
     threshold := threshold |}.

(** *** movingAverage *)

(** The inner loop [for (int j = start; j <= end; ++j)], entered with [k]
    iterations to go: [sum += signal[j]; count++]. *)
Fixpoint sum_window (signal : list float) (k : nat) (j : Z) (sum : float) (count : Z)
  : outcome (float * Z) :=
  match k with
  | O => Ok (sum, count)
  | S k' =>
      x <- at_index signal (Size.of_int j) ;;
      count' <- Int.add count 1 ;;
      j' <- Int.add j 1 ;;
      sum_window signal k' j' (PrimFloat.add sum x) count'
  end.

(** [start] and [end] of the window around index [i]. *)
Definition window_bounds (window_size : Z) (n i : Z) : outcome (Z * Z) :=
  let half := Z.quot window_size 2 in
  lo <- Int.sub (Int.of_size i) half ;;
  hi <- Int.add (Int.of_size i) half ;;
  Ok (Z.max 0 lo, Z.min (Int.of_size (Size.sub n 1)) hi).

(** One iteration of the outer loop: the value stored in [result[i]]. *)
Definition average_at (window_size : Z) (signal : list float) (i : Z) : outcome float :=
  b <- window_bounds window_size (size signal) i ;;
  let '(start, stop) := b in
  r <- sum_window signal (Z.to_nat (stop - start + 1)) start PrimFloat.zero 0 ;;
  let '(sum, count) := r in
  Ok (PrimFloat.div sum (to_double count)).

Definition movingAverage (this : t) (signal : list float) : outcome (list float) :=
  mapM (average_at (window_size this) signal)
       (map Z.of_nat (seq 0 (length signal))).

(** *** findPeaks *)

(** The loop condition of [findPeaks] at index [i]:
    [signal[i] > signal[i-1] && signal[i] > signal[i+1] && signal[i] > threshold],
    evaluated left to right. *)
Definition peak_test (threshold : float) (signal : list float) (i : Z) : outcome bool :=
  x <- at_index signal i ;;
  l <- at_index signal (Size.sub i 1) ;;
  if gt x l then
    r <- at_index signal (Size.add i 1) ;;
    if gt x r then Ok (gt x threshold) else Ok false
  else Ok false.

(** [for (size_t i = 1; i < signal.size() - 1; ++i)], with [fuel] bounding
    the number of iterations. *)
Fixpoint findPeaks_loop (fuel : nat) (threshold : float) (signal : list float)
         (i : Z) (peaks : list Z) : outcome (list Z) :=
  if i <? Size.sub (size signal) 1 then
    match fuel with
    | O => OutOfFuel
    | S fuel' =>
        p <- peak_test threshold signal i ;;
        findPeaks_loop fuel' threshold signal (Size.add i 1)
                       (if p then peaks ++ [i] else peaks)
    end
  else Ok peaks.

Definition findPeaks (this : t) (signal : list float) : outcome (list Z) :=
  findPeaks_loop (S (length signal)) (threshold this) signal 1 [].

(** *** Loading and processing files *)

Section WithEnvironment.
Context `{Platform}.

Definition set_signal_files (files : list string) (this : t) : t :=
  {| signal_files := files;
     output_dir := output_dir this;
     verbose := verbose this;
     window_size := window_size this;
     threshold := threshold this |}.

(** The test of [loadSignalFiles] on one directory entry. *)
Definition is_csv (entry : string * Fs.node) : bool :=
  Fs.is_regular_file (snd entry) && String.eqb (Fs.extension (fst entry)) ".csv".

Definition loadSignalFiles (input_dir : string) (this : t) : action t :=
  entries <~ (fun w => (Fs.recursive_directory_iterator input_dir (fs w), w)) ;;
  ret (set_signal_files (map fst (filter is_csv entries)) this).

(** The constructor. *)
Definition make (input_dir output_dir : string) (verbose : bool) : action t :=
  let this := {| signal_files := [];
                 output_dir := output_dir;
                 verbose := verbose;
                 window_size := 10;
                 threshold := 0.5%float |} in
  ensure_directory output_dir ;;;
  this <~ loadSignalFiles input_dir this ;;
  when verbose
       (print ("Found " ++ to_string (size (signal_files this))
                        ++ " signal files for processing")) ;;;
  ret this.

(** The lines that successive calls of [std::getline] deliver. *)
Fixpoint getlines (cur l : list ascii) : list string :=
  match l with
  | [] => match cur with [] => [] | _ :: _ => [text (rev cur)] end
  | c :: l' =>
      if Ascii.eqb c "010"%char then text (rev cur) :: getlines [] l'
      else getlines (c :: cur) l'
  end.

(** The reading loop of [processSignal]: a line that [std::stod] converts
    gives a sample, any exception skips the line. *)
Fixpoint read_samples (lines : list string) : list float :=
  match lines with
  | [] => []
  | line :: rest =>
      match Stod.stod line with
      | Stod.Value value => value :: read_samples rest
      | Stod.invalid_argument | Stod.out_of_range => read_samples rest
      end
  end.

(** One data row of the output file. *)
Definition row (signal filtered_signal : list float) (peaks : list Z) (i : Z)
  : outcome string :=
  let is_peak := existsb (Z.eqb i) peaks in
  x <- at_index signal i ;;
  y <- at_index filtered_signal i ;;
  Ok (put_double x ++ "," ++ put_double y ++ ","
                   ++ (if is_peak then "1" else "0") ++ String "010"%char "")%string.

(** [std::ofstream outfile(path)] and what is written to it: the file is
    created or truncated and holds [content]; [false] when it cannot be
    opened. *)
Definition open_out (path : string) (content : string) : action bool :=
  fun w =>
    match Fs.write path content (fs w) with
    | Some root' => (Ok true, with_fs (fun _ => root') w)
    | None => (Ok false, w)
    end.

Definition header : string := String.append "original,filtered,is_peak" (String "010"%char "").

Definition processSignal (file_path : string) (this : t) : action unit :=
  content <~ (fun w => (Ok (Fs.open_in file_path (fs w)), w)) ;;
  match content with
  | None => eprint ("Error: Could not open file " ++ file_path)
  | Some content =>
      let lines := getlines [] (chars content) in
      let signal := read_samples (tl lines) in
      filtered_signal <~ lift (movingAverage this signal) ;;
      peaks <~ lift (findPeaks this filtered_signal) ;;
      let filename := Fs.filename file_path in
      let output_path := (output_dir this ++ "/processed_" ++ filename)%string in
      is_open <~ open_out output_path "" ;;
      if is_open then
        rows <~ lift (mapM (row signal filtered_signal peaks)
                           (map Z.of_nat (seq 0 (length signal)))) ;;
        open_out output_path (String.concat "" (header :: rows)) ;;;
        when (verbose this)
             (print ("Processed: " ++ filename ++ " (Found "
                                   ++ to_string (size peaks) ++ " peaks)"))
      else eprint ("Error: Could not create output file " ++ output_path)
  end.

(** The loop of [processAllSignals], at index [i]. *)
Fixpoint process_from (this : t) (i : Z) (files : list string) : action unit :=
  match files with
  | [] => ret tt
  | file_path :: rest =>
      processSignal file_path this ;;;
      when (verbose this && (Size.add i 1 mod 5 =? 0))
           (print ("Progress: " ++ to_string (Size.add i 1) ++ "/"
                                ++ to_string (size (signal_files this)))) ;;;
      process_from this (Size.add i 1) rest
  end.

Definition processAllSignals (this : t) : action unit :=
  start <~ now ;;
  process_from this 0 (signal_files this) ;;;
  stop <~ now ;;
  print ("Processed " ++ to_string (size (signal_files this)) ++ " signal files in "
                      ++ put_double (seconds start stop) ++ " seconds").

End WithEnvironment.
End SignalProcessor.

(** ** std::stoi *)

Module Stoi.

Inductive result : Type :=
| Value (v : Z)
| invalid_argument       (* no conversion could be performed *)
| out_of_range.          (* the value does not fit an int *)

(** [std::stoi(s)]: white space, an optional sign and decimal digits, read by
    [strtol] in base 10; what follows the digits is ignored. *)
Definition stoi (s : string) : result :=
  let '(neg, l1) := Stod.strip_sign (snd (span Char.is_space (Stod.c_str s))) in
  match fst (span Char.is_digit l1) with
  | [] => invalid_argument
  | (_ :: _) as ds =>
      let v := Stod.digits_value 10 Char.digit_value ds in
      let v := if neg then - v else v in
      if Int.in_range v then Value v else out_of_range
  end.

End Stoi.

(** ** The command line *)

(** The local variables of [main] that the arguments set. *)
Record options : Type := {
  mode : string;
  input_dir : string;
  output_dir : string;
  blur_size : Z;
  contrast : float;
  window_size : Z;
  threshold : float;
  verbose : bool;
  run_analysis : bool
}.

Definition defaults : options :=
  {| mode := "image"; input_dir := "./input"; output_dir := "./output";
     blur_size := 5; contrast := 1.5%float;
     window_size := 10; threshold := 0.5%float;
     verbose := false; run_analysis := false |}.

Definition set_mode (v : string) (o : options) : options :=
  {| mode := v; input_dir := input_dir o; output_dir := output_dir o;
     blur_size := blur_size o; contrast := contrast o;
     window_size := window_size o; threshold := threshold o;
     verbose := verbose o; run_analysis := run_analysis o |}.

Definition set_input_dir (v : string) (o : options) : options :=
  {| mode := mode o; input_dir := v; output_dir := output_dir o;
     blur_size := blur_size o; contrast := contrast o;
     window_size := window_size o; threshold := threshold o;
     verbose := verbose o; run_analysis := run_analysis o |}.

Definition set_output_dir (v : string) (o : options) : options :=
  {| mode := mode o; input_dir := input_dir o; output_dir := v;
     blur_size := blur_size o; contrast := contrast o;
     window_size := window_size o; threshold := threshold o;
     verbose := verbose o; run_analysis := run_analysis o |}.

Definition set_blur_size (v : Z) (o : options) : options :=
  {| mode := mode o; input_dir := input_dir o; output_dir := output_dir o;
     blur_size := v; contrast := contrast o;
     window_size := window_size o; threshold := threshold o;
     verbose := verbose o; run_analysis := run_analysis o |}.

Definition set_contrast (v : float) (o : options) : options :=
  {| mode := mode o; input_dir := input_dir o; output_dir := output_dir o;
     blur_size := blur_size o; contrast := v;
     window_size := window_size o; threshold := threshold o;
     verbose := verbose o; run_analysis := run_analysis o |}.

Definition set_window_size (v : Z) (o : options) : options :=
  {| mode := mode o; input_dir := input_dir o; output_dir := output_dir o;
     blur_size := blur_size o; contrast := contrast o;
     window_size := v; threshold := threshold o;
     verbose := verbose o; run_analysis := run_analysis o |}.

Definition set_threshold (v : float) (o : options) : options :=
  {| mode := mode o; input_dir := input_dir o; output_dir := output_dir o;
     blur_size := blur_size o; contrast := contrast o;
     window_size := window_size o; threshold := v;
     verbose := verbose o; run_analysis := run_analysis o |}.

Definition set_verbose (o : options) : options :=
  {| mode := mode o; input_dir := input_dir o; output_dir := output_dir o;
     blur_size := blur_size o; contrast := contrast o;
     window_size := window_size o; threshold := threshold o;
     verbose := true; run_analysis := run_analysis o |}.

Definition set_run_analysis (o : options) : options :=
  {| mode := mode o; input_dir := input_dir o; output_dir := output_dir o;
     blur_size := blur_size o; contrast := contrast o;
     window_size := window_size o; threshold := threshold o;
     verbose := verbose o; run_analysis := true |}.

(** How the loop over the arguments ends. *)
Inductive parsed : Type :=
| Run (o : options)       (* all arguments were read *)
| Help                    (* [--help]: [print_usage(); return 0;] *)
| Throw (e : exception).  (* [std::stoi] or [std::stod] threw, outside the [try] *)

Section CommandLine.
Context `{Platform}.

(** The loop [for (int i = 1; i < argc; ++i)] over [argv[1]], ...: an
    option that takes a value is recognised only when a next argument is
    there ([i + 1 < argc]), and then consumes it. *)
Fixpoint parse_args (args : list string) (o : options) : parsed :=
  match args with
  | [] => Run o
  | arg :: rest =>
      let no_value :=
        if String.eqb arg "--verbose" then parse_args rest (set_verbose o)
        else if String.eqb arg "--analysis" then parse_args rest (set_run_analysis o)
        else if String.eqb arg "--help" then Help
        else parse_args rest o in
      match rest with
      | value :: rest' =>
          if String.eqb arg "--mode" then parse_args rest' (set_mode value o)
          else if String.eqb arg "--input" then parse_args rest' (set_input_dir value o)
          else if String.eqb arg "--output" then parse_args rest' (set_output_dir value o)
          else if String.eqb arg "--blur" then
            match Stoi.stoi value with
            | Stoi.Value v => parse_args rest' (set_blur_size v o)
            | Stoi.invalid_argument => Throw (invalid_argument_in "stoi")
            | Stoi.out_of_range => Throw (out_of_range_in "stoi")
            end
          else if String.eqb arg "--contrast" then
            match Stod.stod value with
            | Stod.Value v => parse_args rest' (set_contrast v o)
            | Stod.invalid_argument => Throw (invalid_argument_in "stod")
            | Stod.out_of_range => Throw (out_of_range_in "stod")
            end
          else if String.eqb arg "--window" then
            match Stoi.stoi value with
            | Stoi.Value v => parse_args rest' (set_window_size v o)
            | Stoi.invalid_argument => Throw (invalid_argument_in "stoi")
            | Stoi.out_of_range => Throw (out_of_range_in "stoi")
            end
          else if String.eqb arg "--threshold" then
            match Stod.stod value with
            | Stod.Value v => parse_args rest' (set_threshold v o)
            | Stod.invalid_argument => Throw (invalid_argument_in "stod")
            | Stod.out_of_range => Throw (out_of_range_in "stod")
            end
          else no_value
      | [] => no_value
      end
  end.

End CommandLine.

(** The lines of [print_usage]. *)
Definition usage : list string :=
  ["Usage: image_signal_processor [options]";
   "Options:";
   "  --mode <image|signal>      Processing mode (default: image)";
   "  --input <directory>        Input directory containing files to process";
   "  --output <directory>       Output directory for processed files";
   "  --blur <size>              Blur kernel size for image processing (default: 5)";
   "  --contrast <value>         Contrast multiplier for image processing (default: 1.5)";
   "  --window <size>            Window size for signal processing (default: 10)";
   "  --threshold <value>        Threshold for peak detection (default: 0.5)";
   "  --analysis                 Run analysis on input files";
   "  --verbose                  Enable verbose output";
   "  --help                     Display this help message"]%string.

Fixpoint print_lines (lines : list string) : action unit :=
  match lines with
  | [] => ret tt
  | line :: lines' => print line ;;; print_lines lines'
  end.

Definition print_usage : action unit := print_lines usage.

(** How the process ends. *)
Inductive status : Type :=
| Exit (code : Z)         (* [main] returned *)
| Terminate               (* [std::terminate] after an exception nobody caught:
                             the process is aborted *)
| Undefined (f : fault)   (* undefined behaviour was reached *)
| Unfinished.             (* the loop budget of the model ran out *)

Section Main.
Context `{Platform} `{OpenCV}.
(** [what()] of a [cv::Exception]. *)
Variable cv_what : string.

(** The [image] branch of [main]. *)
Definition run_image (o : options) : action unit :=
  processor <~ ImageProcessor.make (input_dir o) (output_dir o) (verbose o) ;;
  when (run_analysis o) (ImageProcessor.analyzeImages processor) ;;;
  ImageProcessor.processAllImages
    (ImageProcessor.setProcessingParameters (blur_size o) (contrast o) 10 true processor).

(** The [signal] branch of [main]. *)
Definition run_signal (o : options) : action unit :=
  processor <~ SignalProcessor.make (input_dir o) (output_dir o) (verbose o) ;;
  SignalProcessor.processAllSignals
    (SignalProcessor.setProcessingParameters (window_size o) (threshold o) processor).

(** The end of the [try] block: a [std::exception] is caught and reported,
    undefined behaviour is not an exception. *)
Definition finish (r : outcome unit * world) : status * world :=
  match r with
  | (Ok _, w) => (Exit 0, snd (print "Processing completed successfully" w))
  | (Fault (FilesystemError what), w) => (Exit 1, snd (eprint ("Error: " ++ what) w))
  | (Fault CvException, w) => (Exit 1, snd (eprint ("Error: " ++ cv_what) w))
  | (Fault f, w) => (Undefined f, w)
  | (OutOfFuel, w) => (Unfinished, w)
  end.

(** [main], given [argv[1]], ..., [argv[argc - 1]]. *)
Definition main (args : list string) (w : world) : status * world :=
  match parse_args args defaults with
  | Help => (Exit 0, snd (print_usage w))
  | Throw e =>
      (Terminate, {| fs := fs w; ticks := ticks w; cout := cout w;
                     cerr := cerr w ++ terminate_report e |})
  | Run o =>
      let w1 := snd (print ("Starting processing in " ++ mode o ++ " mode") w) in
      if String.eqb (mode o) "image" then finish (run_image o w1)
      else if String.eqb (mode o) "signal" then finish (run_signal o w1)
      else (Exit 1, snd ((eprint "Error: Invalid mode. Use 'image' or 'signal'." ;;;
                          print_usage) w1))
  end.

End Main.

(** * Specifications *)

(** The mean of some samples as a loop over them computes it: they are
    added from left to right to 0.0 and the sum is divided by their number. *)
Definition mean (xs : list float) : float :=
  PrimFloat.div (fold_left PrimFloat.add xs PrimFloat.zero) (to_double (size xs)).

(** The samples at the indices [lo], ..., [hi]. *)
Definition slice (lo hi : Z) (v : list float) : list float :=
  firstn (Z.to_nat (hi - lo + 1)) (skipn (Z.to_nat lo) v).

(** [result] is the centred moving average of [signal]: as long as the
    signal, each value the mean over the clipped window around its index,
    and every window holds its own index. *)
Definition centred_mean (window_size : Z) (signal result : list float) : Prop :=
  length result = length signal /\
  forall i : nat, (i < length signal)%nat ->
    let lo := Z.max 0 (Z.of_nat i - Z.quot window_size 2) in
    let hi := Z.min (size signal - 1) (Z.of_nat i + Z.quot window_size 2) in
    lo <= Z.of_nat i <= hi /\
    nth i result PrimFloat.zero = mean (slice lo hi signal).

(** The mean over the clipped window around index [z]. *)
Definition window_mean (window_size : Z) (signal : list float) (z : Z) : float :=
  let h := Z.quot window_size 2 in
  mean (slice (Z.max 0 (z - h)) (Z.min (size signal - 1) (z + h)) signal).

(** Index [i] of [v] is a strict local maximum above the threshold. *)
Definition strict_peak (threshold : float) (v : list float) (i : nat) : bool :=
  gt (nth i v PrimFloat.zero) (nth (i - 1) v PrimFloat.zero)
  && gt (nth i v PrimFloat.zero) (nth (i + 1) v PrimFloat.zero)
  && gt (nth i v PrimFloat.zero) threshold.

(** The interior indices [1 <= i <= n - 2] of [v] that are strict peaks, in
    increasing order. *)
Definition peaks_of (threshold : float) (v : list float) : list Z :=
  map Z.of_nat (filter (strict_peak threshold v) (seq 1 (length v - 2))).

(** The text of data row [k]. *)
Definition row_text `{Platform} (signal filtered : list float) (peaks : list Z) (k : nat) : string :=
  (put_double (nth k signal PrimFloat.zero) ++ ","
     ++ put_double (nth k filtered PrimFloat.zero) ++ ","
     ++ (if existsb (Z.eqb (Z.of_nat k)) peaks then "1" else "0")
     ++ String "010"%char "")%string.

(** The bytes of the regular file at a resolved path, if there is one. *)
Definition read_at (q : Fs.path) (root : Fs.node) : option string :=
  match Fs.lookup q root with
  | Some (Fs.File content) => Some content
  | _ => None
  end.

(** There is a directory at the place [a]. *)
Definition is_dir (a : Fs.path) (root : Fs.node) : bool :=
  match Fs.lookup a root with
  | Some (Fs.Dir _) => true
  | _ => false
  end.

(** An action changes regular files only at the paths in [P]: whatever its
    outcome, every other path holds the same file, or none, afterwards. *)
Definition writes_only {A} (P : Fs.path -> Prop) (m : action A) : Prop :=
  forall w q, ~ P q -> read_at q (fs (snd (m w))) = read_at q (fs w).

(** An action makes no directory and removes none. *)
Definition keeps_directories {A} (m : action A) : Prop :=
  forall w a, is_dir a (fs (snd (m w))) = is_dir a (fs w).

(** There is nothing at the place [a], or a regular file. *)
Definition free_or_file (a : Fs.path) (root : Fs.node) : bool :=
  match Fs.lookup a root with
  | None | Some (Fs.File _) => true
  | _ => false
  end.

(** The path name [p] names a directory. *)
Definition names_directory (p : string) (root : Fs.node) : bool :=
  match Fs.status p root with
  | Some (Fs.Dir _) => true
  | _ => false
  end.

(** An action puts no directory and no device where there was nothing or a
    regular file. *)
Definition keeps_free {A} (m : action A) : Prop :=
  forall w a, free_or_file a (fs w) = true -> free_or_file a (fs (snd (m w))) = true.

(** A path name names nothing or a directory: a directory of that name is
    there or can be made. *)
Definition takes_directory (p : string) (root : Fs.node) : bool :=
  match Fs.status p root with
  | None | Some (Fs.Dir _) => true
  | _ => false
  end.

(** A path name names nothing or a regular file: a file of that name can
    be written. *)
Definition takes_file (p : string) (root : Fs.node) : bool :=
  match Fs.status p root with
  | None | Some (Fs.File _) => true
  | _ => false
  end.

(** A name of a directory entry: not empty, not dot or dot-dot, no slash. *)
Definition proper_name (name : string) : bool :=
  negb (String.eqb name "") && negb (String.eqb name ".")
  && negb (String.eqb name "..")
  && forallb (fun c => negb (Ascii.eqb c "/"%char)) (chars name).

(** The name of the entry reached from [prefix] through [comps]. *)
Fixpoint join_all (prefix : string) (comps : list string) : string :=
  match comps with
  | [] => prefix
  | c :: comps' => join_all (Fs.join prefix c) comps'
  end.

(** A character of the decimal form of an integer. *)
Definition is_int_char (c : ascii) : bool := Char.is_digit c || Ascii.eqb c "-"%char.

(** No character is a slash. *)
Definition no_slash (l : list ascii) : bool :=
  forallb (fun c => negb (Ascii.eqb c "/"%char)) l.

(** Where the images of a corpus go when the output directory is [dir]. *)
Definition targets (dir : string) (paths : list string) (q : Fs.path) : Prop :=
  exists image_path,
    In image_path paths /\ q = Fs.resolve (dir ++ "/" ++ Fs.filename image_path).

(** [b] is empty or starts with a character that fails [p]. *)
Definition stops (p : ascii -> bool) (b : list ascii) : Prop :=
  match b with
  | [] => True
  | c :: _ => p c = false
  end.

(** [l] starts with [word], ignoring case. *)
Fixpoint starts_nocase (word l : list ascii) : bool :=
  match word, l with
  | [], _ => true
  | w :: word', c :: l' => Ascii.eqb (Char.tolower c) w && starts_nocase word' l'
  | _ :: _, [] => false
  end.

(** [l] starts with a digit, or with the radix point and a digit. *)
Definition starts_with_digits (is_d : ascii -> bool) (l : list ascii) : bool :=
  match l with
  | c :: l' =>
      is_d c || (Ascii.eqb c "." && match l' with
                                    | d :: _ => is_d d
                                    | [] => false
                                    end)
  | [] => false
  end.

(** [l] starts the way a number does: with a decimal digit, with a point
    and a digit, or with [inf] or [nan] in any case. *)
Definition starts_number (l : list ascii) : bool :=
  starts_with_digits Char.is_digit l
  || starts_nocase (chars "inf") l || starts_nocase (chars "nan") l.

(** What follows the leading white space and one optional sign. *)
Definition after_sign (l : list ascii) : list ascii :=
  snd (Stod.strip_sign (snd (span Char.is_space l))).

(** [t] is empty or starts with a character that neither is a digit for
    [is_d] nor is the radix point. *)
Definition ends_digits (is_d : ascii -> bool) (t : list ascii) : Prop :=
  match t with
  | [] => True
  | x :: _ => is_d x = false /\ Ascii.eqb x "." = false
  end.

(** A lexer reads the same number from what it consumed alone. *)
Definition consumes {A} (f : list ascii -> option (A * list ascii)) : Prop :=
  forall l a rest,
    f l = Some (a, rest) ->
    exists c, l = c ++ rest /\ c <> [] /\ f c = Some (a, []).

(** A lexer that reads a number from a text reads one from every longer
    text. *)
Definition monotone {A} (f : list ascii -> option A) : Prop :=
  forall c r, f c <> None -> f (c ++ r) <> None.

(** A text is read to its end: it is white space, an optional sign and a
    number, with nothing after the number. *)
Definition reads_all (p : list ascii) : Prop :=
  exists neg n, Stod.lex p = Some (neg, n, []).

(** A lexer that reads a text to its end reads at least as far in every
    longer text. *)
Definition greedy {A} (f : list ascii -> option (A * list ascii)) : Prop :=
  forall c r a,
    f c = Some (a, []) ->
    exists a' rest, f (c ++ r) = Some (a', rest) /\ (length rest <= length r)%nat.

(** The leading characters of a line form a numeric prefix. *)
Definition numeric_prefix (line : string) : bool :=
  starts_number (after_sign (Stod.c_str line)).

(** The samples that a line contributes: its value, or nothing. *)
Definition kept `{Platform} (line : string) : list float :=
  match Stod.stod line with
  | Stod.Value v => [v]
  | _ => []
  end.

(** Where the results of a corpus of signal files go when the output
    directory is [dir]. *)
Definition signal_targets (dir : string) (files : list string) (q : Fs.path) : Prop :=
  exists file_path,
    In file_path files /\ q = Fs.resolve (dir ++ "/processed_" ++ Fs.filename file_path).

(** The filtered signal as a list of window means. *)
Definition window_means (window_size : Z) (signal : list float) : list float :=
  map (window_mean window_size signal) (map Z.of_nat (seq 0 (length signal))).

(** The text of the output file for a signal. *)
Definition output_text `{Platform} (window_size : Z) (threshold : float)
           (signal : list float) : string :=
  let filtered := window_means window_size signal in
  String.concat "" (SignalProcessor.header
                      :: map (row_text signal filtered (peaks_of threshold filtered))
                             (seq 0 (length signal))).

(** The lines that report the files of [files] that could not be opened. *)
Definition open_errors (files : list string) : list string :=
  map (fun p => ("Error: Could not open file " ++ p)%string) files.

(** The matrix that [imread] gives for a path name: none when the file
    cannot be read or does not decode. *)
Definition decoded `{OpenCV} (p : string) (root : Fs.node) : option Mat :=
  match Fs.read p root with
  | Some bytes => imdecode bytes
  | None => None
  end.

(** The lines that report the images of [paths] that could not be read. *)
Definition read_errors (paths : list string) : list string :=
  map (fun p => ("Error: Could not read image " ++ p)%string) paths.

(** An action ends with a result in every world. *)
Definition never_faults {A} (m : action A) : Prop :=
  forall w, exists a, fst (m w) = Ok a.

(** What [processImage] writes for a decoded image and its blurred form. *)
Definition processed_image `{OpenCV} (this : ImageProcessor.t) (blurred : Mat) : Mat :=
  let adjusted := convertTo blurred (ImageProcessor.contrast_alpha this)
                            (ImageProcessor.contrast_beta this) in
  if ImageProcessor.apply_edge_detection this
  then addWeighted adjusted (cvtColor_GRAY2BGR (Canny adjusted))
  else adjusted.

(** The size in bytes of the regular file at a path name; 0 when there is
    none. *)
Definition bytes_at (root : Fs.node) (p : string) : Z :=
  match Fs.read p root with
  | Some content => Z.of_nat (String.length content)
  | None => 0
  end.

(** The images of a corpus that decode, in order. *)
Definition decodable `{OpenCV} (root : Fs.node) (paths : list string) : list Mat :=
  flat_map (fun p => match decoded p root with
                     | Some image => [image]
                     | None => []
                     end) paths.

(** The statistics of a corpus on top of [st]: the sizes of all its files
    added up as a [size_t], and the extremes of the images that decode. *)
Definition aggregate_from `{OpenCV} (st : ImageProcessor.stats) (root : Fs.node)
           (paths : list string) : ImageProcessor.stats :=
  let images := decodable root paths in
  {| ImageProcessor.total_size :=
       fold_left Size.add (map (bytes_at root) paths) (ImageProcessor.total_size st);
     ImageProcessor.min_width :=
       fold_left Z.min (map cols images) (ImageProcessor.min_width st);
     ImageProcessor.max_width :=
       fold_left Z.max (map cols images) (ImageProcessor.max_width st);
     ImageProcessor.min_height :=
       fold_left Z.min (map rows images) (ImageProcessor.min_height st);
     ImageProcessor.max_height :=
       fold_left Z.max (map rows images) (ImageProcessor.max_height st) |}.

(** The statistics of a corpus: a total from 0, minima from [INT_MAX] down
    and maxima from 0 up. *)
Definition aggregate `{OpenCV} (root : Fs.node) (paths : list string)
  : ImageProcessor.stats :=
  aggregate_from ImageProcessor.initial_stats root paths.

(** The options of the command line that take a value. *)
Definition takes_value (arg : string) : bool :=
  existsb (String.eqb arg)
          ["--mode"; "--input"; "--output"; "--blur"; "--contrast"; "--window";
           "--threshold"]%string.

(** No option at the end of [args] is left waiting for its value. *)
Fixpoint complete (args : list string) : bool :=
  match args with
  | [] => true
  | arg :: rest =>
      match rest with
      | [] => negb (takes_value arg)
      | _ :: rest' => if takes_value arg then complete rest' else complete rest
      end
  end.

(** The exception that [value] raises as the value of the numeric option
    [name], if it raises one. *)
Definition rejection `{Platform} (name value : string) : option exception :=
  if String.eqb name "--blur" || String.eqb name "--window" then
    match Stoi.stoi value with
    | Stoi.Value _ => None
    | Stoi.invalid_argument => Some (invalid_argument_in "stoi")
    | Stoi.out_of_range => Some (out_of_range_in "stoi")
    end
  else if String.eqb name "--contrast" || String.eqb name "--threshold" then
    match Stod.stod value with
    | Stod.Value _ => None
    | Stod.invalid_argument => Some (invalid_argument_in "stod")
    | Stod.out_of_range => Some (out_of_range_in "stod")
    end
  else None.

(** The remaining arguments are read once [m] has read the first ones. *)
Definition and_then (m : parsed) (k : options -> parsed) : parsed :=
  match m with
  | Run o => k o
  | Help => Help
  | Throw e => Throw e
  end.

(** No character is a line feed. *)
Definition one_line (s : string) : bool :=
  forallb (fun c => negb (Ascii.eqb c "010"%char)) (chars s).

(** * Example inputs *)

Definition five_samples : list float := [1; 2; 3; 4; 5]%float.

(** A signal processor with a given window size and threshold. *)
Definition with_window (window_size : Z) (threshold : float) : SignalProcessor.t :=
  {| SignalProcessor.signal_files := [];
     SignalProcessor.output_dir := "out";
     SignalProcessor.verbose := false;
     SignalProcessor.window_size := window_size;
     SignalProcessor.threshold := threshold |}.

Definition bump : list float := [0; 0; 1; 5; 1; 0; 0]%float.

(** A platform after glibc and libstdc++ on x86-64: an underflow is a range
    error, a result is tiny by what it is after rounding, and the terminate
    handler names the exception and its [what()] in two lines.  Doubles are
    printed as their integer part and the clock advances by a second per
    reading. *)
Definition example_platform : Platform :=
  {| erange_on_underflow := true;
     tiny_after_rounding := true;
     terminate_report := fun e =>
       match e with
       | invalid_argument_in f =>
           ["terminate called after throwing an instance of 'std::invalid_argument'";
            "  what():  " ++ f]
       | out_of_range_in f =>
           ["terminate called after throwing an instance of 'std::out_of_range'";
            "  what():  " ++ f]
       end%string;
     put_double := fun x => match trunc_to_int x with
                            | Ok z => to_string z
                            | _ => "?"%string
                            end;
     clock_ns := fun k => Z.of_nat k * 1000000000 |}.

Definition newline : string := String "010"%char "".

Definition world_of (root : Fs.node) : world :=
  {| fs := root; ticks := 0; cout := []; cerr := [] |}.

(** An input directory with a signal file that has a header and no sample,
    and an output directory. *)
Definition header_only_world : world :=
  world_of (Fs.Dir [("in", Fs.Dir [("empty.csv", Fs.File ("value" ++ newline))]);
                    ("out", Fs.Dir [])]%string).

(** The same with three samples after the header. *)
Definition three_samples_world : world :=
  world_of (Fs.Dir [("in", Fs.Dir [("s.csv",
                       Fs.File ("value" ++ newline ++ "1" ++ newline ++ "5"
                                        ++ newline ++ "2" ++ newline))]);
                    ("out", Fs.Dir [])]%string).

(** A vision library whose matrices are texts: decoding keeps the bytes of
    the file unless they read [corrupt], every kernel appends its name and
    parameters, and encoding gives the text back. *)
Definition example_vision : OpenCV :=
  {| Mat := string;
     imdecode := fun bytes => if String.eqb bytes "corrupt" then None else Some bytes;
     imencode := fun _ m => m;
     cols := fun m => Z.of_nat (String.length m);
     rows := fun _ => 1;
     GaussianBlur := fun m k =>
       if (0 <? k) && Z.odd k
       then Ok (m ++ "+blur" ++ to_string k)%string
       else Fault CvException;
     convertTo := fun m alpha beta =>
       (m ++ "+alpha" ++ match trunc_to_int (PrimFloat.mul alpha 100) with
                         | Ok z => to_string z
                         | _ => "?"
                         end)%string;
     Canny := fun m => m;
     cvtColor_GRAY2BGR := fun m => m;
     addWeighted := fun a _ => a |}.

(** An input directory with one good image, one corrupt image and a
    text file; no output directory yet. *)
Definition images_world : world :=
  world_of (Fs.Dir [("in", Fs.Dir [("a.png", Fs.File "A");
                                   ("b.JPG", Fs.File "corrupt");
                                   ("notes.txt", Fs.File "n")])]%string).

(** An image processor over the good image of [images_world]. *)
Definition one_image : ImageProcessor.t :=
  {| ImageProcessor.image_paths := ["in/a.png"%string];
     ImageProcessor.output_dir := "out";
     ImageProcessor.verbose := false;
     ImageProcessor.blur_size := 5;
     ImageProcessor.contrast_alpha := 1.5%float;
     ImageProcessor.contrast_beta := 10;
     ImageProcessor.apply_edge_detection := true |}.

(** An image processor whose corpus is the corrupt image of [images_world]. *)
Definition corrupt_only : ImageProcessor.t :=
  {| ImageProcessor.image_paths := ["in/b.JPG"%string];
     ImageProcessor.output_dir := "out";
     ImageProcessor.verbose := false;
     ImageProcessor.blur_size := 5;
     ImageProcessor.contrast_alpha := 1.5%float;
     ImageProcessor.contrast_beta := 10;
     ImageProcessor.apply_edge_detection := true |}.

(** A directory with signal files and images whose extensions differ in
    case only. *)
Definition mixed_case_world : world :=
  world_of (Fs.Dir [("in", Fs.Dir [("data.csv", Fs.File "h");
                                   ("DATA.CSV", Fs.File "h");
                                   ("photo.jpg", Fs.File "p");
                                   ("sub", Fs.Dir [("PHOTO.JPG", Fs.File "p");
                                                   ("more.Csv", Fs.File "h")])])]%string).

(** The signal file of [three_samples_world] beside a regular file where
    the output directory should be. *)
Definition blocked_output_world : world :=
  world_of (Fs.Dir [("in", Fs.Dir [("s.csv",
                       Fs.File ("value" ++ newline ++ "1" ++ newline ++ "5"
                                        ++ newline ++ "2" ++ newline))]);
                    ("out", Fs.File "")]%string).

(** A signal processor whose corpus names two files that are not there. *)
Definition lost_files : SignalProcessor.t :=
  {| SignalProcessor.signal_files := ["in/gone.csv"; "in/lost.csv"]%string;
     SignalProcessor.output_dir := "out";
     SignalProcessor.verbose := true;
     SignalProcessor.window_size := 10;
     SignalProcessor.threshold := 0.5%float |}.

(** The image processor of [one_image], writing into the input directory. *)
Definition in_place : ImageProcessor.t :=
  {| ImageProcessor.image_paths := ["in/a.png"%string];
     ImageProcessor.output_dir := "in";
     ImageProcessor.verbose := true;
     ImageProcessor.blur_size := 5;
     ImageProcessor.contrast_alpha := 1.5%float;
     ImageProcessor.contrast_beta := 10;
     ImageProcessor.apply_edge_detection := true |}.

(** A signal processor over the file of [three_samples_world]. *)
Definition one_signal : SignalProcessor.t :=
  {| SignalProcessor.signal_files := ["in/s.csv"%string];
     SignalProcessor.output_dir := "out";
     SignalProcessor.verbose := false;
     SignalProcessor.window_size := 1;
     SignalProcessor.threshold := 0.5%float |}.

(** The directories of [images_world] beside an empty output directory. *)
Definition images_out_world : world :=
  world_of (Fs.Dir [("in", Fs.Dir [("a.png", Fs.File "A");
                                   ("b.JPG", Fs.File "corrupt");
                                   ("notes.txt", Fs.File "n")]);
                    ("out", Fs.Dir [])]%string).

(** An image processor over the two images of [images_world], with
    parameters of its own. *)
Definition two_images : ImageProcessor.t :=
  {| ImageProcessor.image_paths := ["in/a.png"; "in/b.JPG"]%string;
     ImageProcessor.output_dir := "out";
     ImageProcessor.verbose := false;
     ImageProcessor.blur_size := 9;
     ImageProcessor.contrast_alpha := 2%float;
     ImageProcessor.contrast_beta := 10;
     ImageProcessor.apply_edge_detection := false |}.

(** * Proofs *)

(** ** Outcomes *)

Lemma mapM_ok {A B} (f : A -> outcome B) (g : A -> B) (l : list A) :
  (forall a, In a l -> f a = Ok (g a)) -> mapM f l = Ok (map g l).
Proof.
  induction l as [|a l IH]; intros Hf; simpl.
  - reflexivity.
  - rewrite (Hf a (or_introl eq_refl)). simpl.
    rewrite IH by (intros; apply Hf; now right). reflexivity.
Qed.

Lemma filter_none {A} (f : A -> bool) (l : list A) :
  (forall a, In a l -> f a = false) -> filter f l = [].
Proof.
  induction l as [|a l IH]; intros Hf; simpl.
  - reflexivity.
  - rewrite (Hf a (or_introl eq_refl)). apply IH. intros; apply Hf; now right.
Qed.

(** ** Machine integers *)

Lemma int_checked_ok z : Int.min <= z <= Int.max -> Int.checked z = Ok z.
Proof.
  intros [Hlo Hhi]. unfold Int.checked, Int.in_range.
  apply Z.leb_le in Hlo. apply Z.leb_le in Hhi. now rewrite Hlo, Hhi.
Qed.

Lemma int_of_size_small z : 0 <= z < 2 ^ 31 -> Int.of_size z = z.
Proof.
  intros Hz. unfold Int.of_size.
  rewrite Z.mod_small; lia.
Qed.

Lemma size_of_int_small z : 0 <= z < 2 ^ 64 -> Size.of_int z = z.
Proof. intros Hz. unfold Size.of_int, Size.modulus. now rewrite Z.mod_small. Qed.

(** ** Vectors *)

Lemma at_index_nth (v : list float) (i : nat) :
  (i < length v)%nat -> at_index v (Z.of_nat i) = Ok (nth i v PrimFloat.zero).
Proof.
  intros Hi. unfold at_index, size.
  replace (0 <=? Z.of_nat i) with true by (symmetry; apply Z.leb_le; lia).
  replace (Z.of_nat i <? Z.of_nat (length v)) with true
    by (symmetry; apply Z.ltb_lt; lia).
  simpl. now rewrite Nat2Z.id.
Qed.

Lemma skipn_cons_nth (v : list float) (j : nat) :
  (j < length v)%nat -> skipn j v = nth j v PrimFloat.zero :: skipn (S j) v.
Proof.
  revert j. induction v as [|x v IH]; intros j Hj; simpl in Hj.
  - lia.
  - destruct j as [|j]; [reflexivity|].
    simpl. apply IH. lia.
Qed.

(** ** movingAverage *)

Section MovingAverage.
Import SignalProcessor.

(** The inner loop adds up the [k] samples from index [j] on and counts
    them, as long as the indices stay inside the signal and inside [int]. *)
Lemma sum_window_ok (signal : list float) (k j : nat) (sum : float) (count : Z) :
  (j + k <= length signal)%nat ->
  size signal <= 2 ^ 30 ->
  0 <= count -> count + Z.of_nat k <= 2 ^ 30 ->
  sum_window signal k (Z.of_nat j) sum count
  = Ok (fold_left PrimFloat.add (firstn k (skipn j signal)) sum,
        count + Z.of_nat k).
Proof.
  revert j sum count.
  induction k as [|k IH]; intros j sum count Hjk Hn Hc Hck.
  - simpl. now rewrite Z.add_0_r.
  - unfold size in Hn.
    cbn [sum_window].
    rewrite size_of_int_small by lia.
    rewrite at_index_nth by lia. cbn [bind].
    unfold Int.add.
    rewrite int_checked_ok by (unfold Int.min, Int.max; lia). cbn [bind].
    rewrite int_checked_ok by (unfold Int.min, Int.max; lia). cbn [bind].
    replace (Z.of_nat j + 1) with (Z.of_nat (S j)) by lia.
    rewrite IH by (unfold size; lia).
    rewrite (skipn_cons_nth signal j) by lia.
    cbn [firstn fold_left].
    do 2 f_equal. lia.
Qed.

Lemma window_bounds_ok (window_size n : Z) (i : Z) :
  -1 <= window_size <= Int.max -> 0 <= i < n -> n <= 2 ^ 30 ->
  window_bounds window_size n i
  = Ok (Z.max 0 (i - Z.quot window_size 2),
        Z.min (n - 1) (i + Z.quot window_size 2)).
Proof.
  intros Hw Hi Hn. unfold window_bounds, Int.max in *.
  assert (Hh : 0 <= Z.quot window_size 2 < 2 ^ 30).
  { destruct (Z.eq_dec window_size (-1)) as [->|Hne]; [now cbn|].
    split.
    - apply Z.quot_pos; lia.
    - apply Z.quot_lt_upper_bound; lia. }
  rewrite int_of_size_small by lia.
  unfold Int.sub, Int.add.
  rewrite int_checked_ok by (unfold Int.min, Int.max; lia). cbn [bind].
  rewrite int_checked_ok by (unfold Int.min, Int.max; lia). cbn [bind].
  unfold Size.sub, Size.modulus.
  rewrite (Z.mod_small (n - 1)) by lia.
  rewrite int_of_size_small by lia.
  reflexivity.
Qed.

Lemma average_at_ok (window_size : Z) (signal : list float) (i : nat) :
  -1 <= window_size <= Int.max -> (i < length signal)%nat ->
  size signal <= 2 ^ 30 ->
  let lo := Z.max 0 (Z.of_nat i - Z.quot window_size 2) in
  let hi := Z.min (size signal - 1) (Z.of_nat i + Z.quot window_size 2) in
  lo <= Z.of_nat i <= hi /\
  average_at window_size signal (Z.of_nat i) = Ok (mean (slice lo hi signal)).
Proof.
  intros Hw Hi Hn lo hi.
  assert (Hh : 0 <= Z.quot window_size 2).
  { destruct (Z.eq_dec window_size (-1)) as [->|Hne]; [now cbn|].
    apply Z.quot_pos; lia. }
  assert (Hsz : size signal = Z.of_nat (length signal)) by reflexivity.
  assert (Hlo : 0 <= lo <= Z.of_nat i) by (subst lo; lia).
  assert (Hhi : Z.of_nat i <= hi < size signal) by (subst hi; lia).
  split; [lia|].
  unfold average_at.
  rewrite window_bounds_ok by lia. cbn [bind].
  fold lo hi.
  replace lo with (Z.of_nat (Z.to_nat lo)) at 2 by lia.
  rewrite sum_window_ok by lia. cbn [bind].
  unfold mean, slice. do 3 f_equal.
  unfold size. rewrite length_firstn, length_skipn. lia.
Qed.

Lemma movingAverage_values (this : t) (signal : list float) :
  -1 <= window_size this <= Int.max ->
  size signal <= 2 ^ 30 ->
  movingAverage this signal
  = Ok (map (window_mean (window_size this) signal)
            (map Z.of_nat (seq 0 (length signal)))).
Proof.
  intros Hw Hn. unfold movingAverage. apply mapM_ok.
  intros z Hz. apply in_map_iff in Hz as [i [<- Hi]].
  apply in_seq in Hi.
  now apply average_at_ok; [|lia|].
Qed.

(** C1 (amended): for a window size of at least -1 (a half-window that is
    not negative) and a signal of at most 2^30 samples, [movingAverage]
    returns a sequence as long as the signal whose value at every index is
    the mean of the samples in the clipped window around it, and every
    window holds the sample of its own index. *)
Theorem movingAverage_centred_mean (this : t) (signal : list float) :
  -1 <= window_size this <= Int.max ->
  size signal <= 2 ^ 30 ->
  exists result,
    movingAverage this signal = Ok result /\
    centred_mean (window_size this) signal result.
Proof.
  intros Hw Hn.
  eexists. split; [now apply movingAverage_values|].
  split.
  - now rewrite !length_map, length_seq.
  - intros i Hi lo hi.
    split; [now apply average_at_ok|].
    rewrite (nth_indep _ PrimFloat.zero (window_mean (window_size this) signal 0))
      by (now rewrite !length_map, length_seq).
    rewrite map_nth.
    rewrite (nth_indep _ 0 (Z.of_nat 0)) by (now rewrite length_map, length_seq).
    rewrite map_nth, seq_nth by lia.
    reflexivity.
Qed.

Lemma movingAverage_centred_mean_witness :
  exists result,
    movingAverage (with_window 3 0.5) five_samples = Ok result /\
    centred_mean 3 five_samples result.
Proof.
  apply (movingAverage_centred_mean (with_window 3 0.5) five_samples).
  - cbn. unfold Int.max. lia.
  - cbn. lia.
Defined.

(** C1 (as stated) fails for a negative window size: with a window size of
    -2 the bounds cross, no sample is added, and every output value is
    0.0 / 0 = NaN. *)
Lemma movingAverage_negative_window :
  movingAverage (with_window (-2) 0.5) five_samples = Ok [nan; nan; nan; nan; nan]
  /\ window_bounds (-2) 5 0 = Ok (1, -1)
  /\ ~ centred_mean (-2) five_samples [nan; nan; nan; nan; nan].
Proof.
  split; [reflexivity|]. split; [reflexivity|].
  intros [_ Hat].
  destruct (Hat 0%nat) as [Hin _]; [cbn; lia|].
  cbn in Hin. lia.
Qed.

End MovingAverage.


(** ** findPeaks *)

Section FindPeaks.
Import SignalProcessor.

Lemma findPeaks_loop_eq fuel threshold signal i peaks :
  findPeaks_loop fuel threshold signal i peaks
  = if i <? Size.sub (size signal) 1 then
      match fuel with
      | O => OutOfFuel
      | S fuel' =>
          p <- peak_test threshold signal i ;;
          findPeaks_loop fuel' threshold signal (Size.add i 1)
                         (if p then peaks ++ [i] else peaks)
      end
    else Ok peaks.
Proof. destruct fuel; reflexivity. Qed.

(** At an interior index all three reads are inside the vector and the test
    is the strict comparison with both neighbours and the threshold. *)
Lemma peak_test_interior threshold signal (i : nat) :
  (1 <= i)%nat -> (i + 1 < length signal)%nat -> size signal < Size.modulus ->
  peak_test threshold signal (Z.of_nat i) = Ok (strict_peak threshold signal i).
Proof.
  intros Hi Hn Hsz. unfold size, Size.modulus in Hsz.
  unfold peak_test, strict_peak.
  rewrite at_index_nth by lia. cbn [bind].
  replace (Size.sub (Z.of_nat i) 1) with (Z.of_nat (i - 1))
    by (unfold Size.sub, Size.modulus; rewrite Z.mod_small; lia).
  replace (Size.add (Z.of_nat i) 1) with (Z.of_nat (i + 1))
    by (unfold Size.add, Size.modulus; rewrite Z.mod_small; lia).
  rewrite !at_index_nth by lia. cbn [bind].
  destruct (gt (nth i signal PrimFloat.zero) (nth (i - 1) signal PrimFloat.zero));
    [|reflexivity].
  cbn [bind andb].
  destruct (gt (nth i signal PrimFloat.zero) (nth (i + 1) signal PrimFloat.zero));
    reflexivity.
Qed.

(** The loop, entered at index [i] with [k] interior indices to go. *)
Lemma findPeaks_loop_ok threshold signal (k fuel i : nat) (peaks : list Z) :
  (1 <= i)%nat -> (i + k + 1 = length signal)%nat -> (k <= fuel)%nat ->
  size signal < Size.modulus ->
  findPeaks_loop fuel threshold signal (Z.of_nat i) peaks
  = Ok (peaks ++ map Z.of_nat (filter (strict_peak threshold signal) (seq i k))).
Proof.
  revert fuel i peaks.
  induction k as [|k IH]; intros fuel i peaks Hi Hik Hfuel Hsz;
    rewrite findPeaks_loop_eq;
    assert (Hb : Size.sub (size signal) 1 = Z.of_nat (length signal) - 1)
      by (unfold Size.sub, size, Size.modulus in *; rewrite Z.mod_small; lia).
  - rewrite Hb.
    replace (Z.of_nat i <? Z.of_nat (length signal) - 1) with false
      by (symmetry; apply Z.ltb_ge; lia).
    cbn. now rewrite app_nil_r.
  - rewrite Hb.
    replace (Z.of_nat i <? Z.of_nat (length signal) - 1) with true
      by (symmetry; apply Z.ltb_lt; lia).
    destruct fuel as [|fuel]; [lia|].
    rewrite peak_test_interior by lia. cbn [bind].
    replace (Size.add (Z.of_nat i) 1) with (Z.of_nat (S i))
      by (unfold Size.add, size, Size.modulus in *; rewrite Z.mod_small; lia).
    rewrite IH by lia.
    cbn [seq filter].
    destruct (strict_peak threshold signal i); cbn [map].
    + now rewrite <- app_assoc.
    + reflexivity.
Qed.

(** The model never runs out of its loop budget: [findPeaks] either returns
    the strict interior peaks or reads past the end of an empty signal. *)
Lemma findPeaks_outcome this signal :
  size signal < Size.modulus ->
  findPeaks this signal
  = match signal with
    | [] => Fault OutOfRange
    | _ :: _ => Ok (peaks_of (threshold this) signal)
    end.
Proof.
  intros Hsz. unfold findPeaks.
  destruct signal as [|x [|y signal]].
  - reflexivity.
  - reflexivity.
  - unfold peaks_of.
    replace (length (x :: y :: signal) - 2)%nat with (length signal)
      by (cbn [length]; lia).
    change 1 with (Z.of_nat 1).
    rewrite (findPeaks_loop_ok (threshold this) (x :: y :: signal)
                               (length signal) _ 1 []);
      cbn [length] in *; try lia; try exact Hsz.
    reflexivity.
Qed.

(** No double is strictly greater than itself. *)
Lemma gt_irrefl (x : float) : gt x x = false.
Proof.
  unfold gt. rewrite ltb_spec. unfold SFltb.
  destruct (Prim2SF x) as [s|s| |s m e]; cbn.
  - reflexivity.
  - now destruct s.
  - reflexivity.
  - rewrite Z.compare_refl.
    assert (Hm : Pos.compare_cont Eq m m = Eq) by apply Pos.compare_cont_refl.
    destruct s; now rewrite Hm.
Qed.

(** A flat signal has no strict peak. *)
Lemma peaks_of_flat threshold (x : float) (n : nat) :
  peaks_of threshold (repeat x n) = [].
Proof.
  unfold peaks_of.
  rewrite filter_none; [reflexivity|].
  intros i Hi. apply in_seq in Hi.
  rewrite repeat_length in Hi.
  unfold strict_peak.
  rewrite !nth_repeat_lt by lia.
  now rewrite gt_irrefl.
Qed.

(** C2: on a signal that is not empty [findPeaks] returns exactly the
    interior indices that are strictly greater than both neighbours and than
    the threshold, in increasing order; on the empty signal, where the claim
    asks for the empty set, [signal.size() - 1] wraps around and the first
    read [signal[1]] is past the end. *)
Theorem findPeaks_strict_interior_maxima this signal :
  size signal < Size.modulus ->
  findPeaks this signal
  = match signal with
    | [] => Fault OutOfRange
    | _ :: _ => Ok (peaks_of (threshold this) signal)
    end.
Proof.
  intros Hsz. destruct signal as [|x signal].
  - reflexivity.
  - now rewrite findPeaks_outcome.
Qed.

Lemma findPeaks_strict_interior_maxima_witness :
  findPeaks (with_window 1 0.5) bump = Ok (peaks_of 0.5 bump)
  /\ peaks_of 0.5 bump = [3].
Proof.
  split.
  - apply (findPeaks_strict_interior_maxima (with_window 1 0.5) bump).
    reflexivity.
  - reflexivity.
Defined.

(** X1: a flat signal that is not empty has no peak, whatever the
    threshold. *)
Lemma findPeaks_flat this (x : float) (n : nat) :
  size (repeat x (S n)) < Size.modulus ->
  findPeaks this (repeat x (S n)) = Ok [].
Proof.
  intros Hsz. rewrite findPeaks_outcome by exact Hsz.
  cbn [repeat]. change (x :: repeat x n) with (repeat x (S n)).
  now rewrite peaks_of_flat.
Qed.

(** C3: a signal of one or two samples yields no peak and no read outside
    it; the empty signal does not: the loop is entered and [signal[1]] is
    read past the end. *)
Theorem findPeaks_short_signals this (x y : float) :
  findPeaks this [] = Fault OutOfRange
  /\ findPeaks this [x] = Ok []
  /\ findPeaks this [x; y] = Ok [].
Proof.
  repeat split; reflexivity.
Qed.

End FindPeaks.

(** ** The file system *)

Lemma assoc_set_entry c x es : Fs.assoc c (Fs.set_entry c x es) = Some x.
Proof.
  induction es as [|[n y] es IH]; cbn.
  - now rewrite String.eqb_refl.
  - destruct (String.eqb n c) eqn:E; cbn; rewrite E; [reflexivity | exact IH].
Qed.

Lemma put_cons a b p c es :
  Fs.put (a :: b :: p) c (Fs.Dir es)
  = match Fs.assoc a es with
    | Some x => match Fs.put (b :: p) c x with
                | Some x' => Some (Fs.Dir (Fs.set_entry a x' es))
                | None => None
                end
    | None => None
    end.
Proof. reflexivity. Qed.

(** A file that could be opened for writing can be opened again. *)
Lemma put_again p c c' n n1 :
  Fs.put p c n = Some n1 -> exists n2, Fs.put p c' n1 = Some n2.
Proof.
  revert n n1. induction p as [|a p IH]; intros n n1 Hput.
  - destruct n; discriminate.
  - destruct n as [|es|]; try (destruct p; discriminate).
    destruct p as [|b p].
    + cbn in Hput.
      destruct (Fs.assoc a es) as [[| |]|] eqn:Ha; try discriminate;
        injection Hput as <-; cbn; rewrite ?assoc_set_entry, ?Ha; eauto.
    + rewrite put_cons in Hput.
      destruct (Fs.assoc a es) as [x|] eqn:Ha; [|discriminate].
      destruct (Fs.put (b :: p) c x) as [x'|] eqn:Hx; [|discriminate].
      injection Hput as <-.
      destruct (IH _ _ Hx) as [x'' Hx''].
      rewrite put_cons, assoc_set_entry, Hx''. eauto.
Qed.

Lemma assoc_set_entry_other a c x es :
  a <> c -> Fs.assoc a (Fs.set_entry c x es) = Fs.assoc a es.
Proof.
  intros Hac. induction es as [|[n y] es IH]; cbn.
  - destruct (String.eqb_spec c a); [congruence | reflexivity].
  - destruct (String.eqb_spec n c) as [->|Hn]; cbn.
    + destruct (String.eqb_spec c a); [congruence | reflexivity].
    + destruct (String.eqb_spec n a); [reflexivity | exact IH].
Qed.

Lemma read_at_file q content : read_at q (Fs.File content) = match q with
                                                               | [] => Some content
                                                               | _ :: _ => None
                                                               end.
Proof. now destruct q. Qed.

Lemma read_at_cons a q es :
  read_at (a :: q) (Fs.Dir es)
  = match Fs.assoc a es with Some x => read_at q x | None => None end.
Proof. unfold read_at. cbn. now destruct (Fs.assoc a es). Qed.

Lemma put_dir p c n n' : Fs.put p c n = Some n' -> exists es es', n = Fs.Dir es /\ n' = Fs.Dir es'.
Proof.
  destruct p as [|a [|b p]]; destruct n as [|es|]; try discriminate.
  - cbn. destruct (Fs.assoc a es) as [[| |]|]; intros [= <-]; eauto.
  - rewrite put_cons. destruct (Fs.assoc a es); [|discriminate].
    destruct (Fs.put _ _ _); intros [= <-]; eauto.
Qed.

(** Writing a file changes no other file. *)
Lemma put_frame p c n n' q :
  Fs.put p c n = Some n' -> q <> p -> read_at q n' = read_at q n.
Proof.
  revert n n' q. induction p as [|a p IH]; intros n n' q Hput Hq.
  - destruct n; discriminate.
  - destruct (put_dir _ _ _ _ Hput) as (es & es' & -> & ->).
    destruct q as [|b q]; [reflexivity|].
    rewrite !read_at_cons.
    destruct p as [|b' p].
    + cbn in Hput.
      destruct (Fs.assoc a es) as [[| |]|] eqn:Ha; try discriminate;
        injection Hput as <-; try reflexivity;
        (destruct (String.eqb_spec b a) as [->|Hba];
         [ rewrite assoc_set_entry, Ha, ?read_at_file;
           destruct q; [congruence | reflexivity]
         | now rewrite assoc_set_entry_other ]).
    + rewrite put_cons in Hput.
      destruct (Fs.assoc a es) as [x|] eqn:Ha; [|discriminate].
      destruct (Fs.put (b' :: p) c x) as [x'|] eqn:Hx; [|discriminate].
      injection Hput as <-.
      destruct (String.eqb_spec b a) as [->|Hba].
      * rewrite assoc_set_entry, Ha. apply (IH _ _ _ Hx). congruence.
      * now rewrite assoc_set_entry_other.
Qed.

(** Making directories changes no file. *)
Lemma mkdirs_frame p n n' q :
  Fs.mkdirs p n = Some n' -> read_at q n' = read_at q n.
Proof.
  revert n n' q. induction p as [|c p IH]; intros n n' q Hmk.
  - destruct n; try discriminate. now injection Hmk as <-.
  - destruct n as [|es|]; try discriminate.
    cbn in Hmk.
    destruct (Fs.mkdirs p _) as [x'|] eqn:Hx; [|discriminate].
    injection Hmk as <-.
    destruct q as [|b q]; [reflexivity|].
    rewrite !read_at_cons.
    destruct (String.eqb_spec b c) as [->|Hbc].
    + rewrite assoc_set_entry, (IH _ _ q Hx).
      destruct (Fs.assoc c es); [reflexivity|].
      now destruct q.
    + now rewrite assoc_set_entry_other.
Qed.

Lemma make_all_frame qs n n' q :
  Fs.make_all qs n = Some n' -> read_at q n' = read_at q n.
Proof.
  revert n. induction qs as [|p qs IH]; intros n Hmk; cbn in Hmk.
  - now injection Hmk as <-.
  - destruct (Fs.mkdirs p n) as [n1|] eqn:Hp; [|discriminate].
    rewrite (IH _ Hmk). now apply (mkdirs_frame _ _ _ _ Hp).
Qed.

(** *** Where path names lead *)

Lemma locate_from_resolve root acc cs q :
  Fs.locate_from root acc cs = Some q -> q = fold_left Fs.step cs acc.
Proof.
  revert acc. induction cs as [|c cs IH]; intros acc; cbn.
  - now intros [= <-].
  - destruct (Fs.lookup acc root) as [[| |]|]; try discriminate. apply IH.
Qed.

(** A walk that arrives, arrives where the path name leads as written. *)
Lemma locate_resolve p root q : Fs.locate p root = Some q -> q = Fs.resolve p.
Proof.
  unfold Fs.locate, Fs.resolve. destruct (String.eqb p ""); [discriminate|].
  apply locate_from_resolve.
Qed.

Lemma status_lookup p root x :
  Fs.status p root = Some x -> Fs.lookup (Fs.resolve p) root = Some x.
Proof.
  unfold Fs.status. destruct (Fs.locate p root) as [q|] eqn:Hq; [|discriminate].
  now rewrite (locate_resolve _ _ _ Hq).
Qed.

Lemma read_resolved p root content :
  Fs.read p root = Some content -> read_at (Fs.resolve p) root = Some content.
Proof.
  unfold Fs.read, read_at. destruct (Fs.status p root) as [x|] eqn:Hx; [|discriminate].
  now rewrite (status_lookup _ _ _ Hx).
Qed.

Lemma write_put p c root root' :
  Fs.write p c root = Some root' -> Fs.put (Fs.resolve p) c root = Some root'.
Proof.
  unfold Fs.write. destruct (Fs.locate p root) as [q|] eqn:Hq; [|discriminate].
  now rewrite (locate_resolve _ _ _ Hq).
Qed.

(** The walk looks at nothing but which places are directories. *)
Lemma locate_from_directories root root' acc cs :
  (forall a, is_dir a root' = is_dir a root) ->
  Fs.locate_from root' acc cs = Fs.locate_from root acc cs.
Proof.
  intros Hdir. revert acc. induction cs as [|c cs IH]; intros acc; cbn; [reflexivity|].
  specialize (Hdir acc). unfold is_dir in Hdir.
  destruct (Fs.lookup acc root') as [[| |]|], (Fs.lookup acc root) as [[| |]|];
    try discriminate; auto.
Qed.

Lemma locate_directories root root' p :
  (forall a, is_dir a root' = is_dir a root) -> Fs.locate p root' = Fs.locate p root.
Proof.
  intros Hdir. unfold Fs.locate. destruct (String.eqb p ""); [reflexivity|].
  now apply locate_from_directories.
Qed.

(** Writing a file makes no directory and removes none. *)
Lemma put_directories p c n n' a :
  Fs.put p c n = Some n' -> is_dir a n' = is_dir a n.
Proof.
  revert n n' a. induction p as [|b p IH]; intros n n' a Hput.
  - destruct n; discriminate.
  - destruct (put_dir _ _ _ _ Hput) as (es & es' & -> & ->).
    destruct a as [|x a]; [reflexivity|].
    unfold is_dir. cbn [Fs.lookup].
    destruct p as [|b' p].
    + cbn in Hput.
      destruct (Fs.assoc b es) as [[| |]|] eqn:Hb; try discriminate;
        injection Hput as <-; try reflexivity;
        (destruct (String.eqb_spec x b) as [->|Hxb];
         [ rewrite assoc_set_entry, Hb; now destruct a
         | now rewrite assoc_set_entry_other ]).
    + rewrite put_cons in Hput.
      destruct (Fs.assoc b es) as [y|] eqn:Hb; [|discriminate].
      destruct (Fs.put (b' :: p) c y) as [y'|] eqn:Hy; [|discriminate].
      injection Hput as <-.
      destruct (String.eqb_spec x b) as [->|Hxb].
      * rewrite assoc_set_entry, Hb. apply (IH _ _ a Hy).
      * now rewrite assoc_set_entry_other.
Qed.

(** A file that could be opened for writing can be opened again. *)
Lemma write_again p c c' n n1 :
  Fs.write p c n = Some n1 -> exists n2, Fs.write p c' n1 = Some n2.
Proof.
  unfold Fs.write. destruct (Fs.locate p n) as [q|] eqn:Hq; [|discriminate].
  intros Hput. rewrite (locate_directories n n1), Hq.
  - now apply (put_again _ _ _ _ _ Hput).
  - intros a. now apply (put_directories _ _ _ _ _ Hput).
Qed.

Lemma put_locate p c n n' name :
  Fs.put p c n = Some n' -> Fs.locate name n' = Fs.locate name n.
Proof.
  intros Hput. apply locate_directories. intros a.
  now apply (put_directories _ _ _ _ _ Hput).
Qed.

(** ** Actions that leave files alone *)

Lemma writes_only_pure {A} (P : Fs.path -> Prop) (m : action A) :
  (forall w, fs (snd (m w)) = fs w) -> writes_only P m.
Proof. intros Hm w q _. now rewrite Hm. Qed.

Lemma writes_only_weaken {A} (P P' : Fs.path -> Prop) (m : action A) :
  (forall q, P q -> P' q) -> writes_only P m -> writes_only P' m.
Proof. intros HP Hm w q Hq. apply Hm. auto. Qed.

Lemma writes_only_bind {A B} (P : Fs.path -> Prop) (m : action A) (k : A -> action B) :
  writes_only P m -> (forall a, writes_only P (k a)) -> writes_only P (bindA m k).
Proof.
  intros Hm Hk w q Hq. unfold bindA.
  specialize (Hm w q Hq).
  destruct (m w) as [[a| |] w1]; cbn [snd] in *; try exact Hm.
  now rewrite (Hk a w1 q Hq).
Qed.

Lemma writes_only_lift_ok {A B} (P : Fs.path -> Prop) (a : A) (k : A -> action B) :
  writes_only P (k a) -> writes_only P (bindA (lift (Ok a)) k).
Proof. intros Hk w q Hq. exact (Hk w q Hq). Qed.

Lemma writes_only_when (P : Fs.path -> Prop) (b : bool) (m : action unit) :
  writes_only P m -> writes_only P (when b m).
Proof.
  intros Hm. destruct b; [exact Hm|]. now apply writes_only_pure.
Qed.

Lemma writes_only_ensure_directory (P : Fs.path -> Prop) dir :
  writes_only P (ensure_directory dir).
Proof.
  intros w q _. unfold ensure_directory, Fs.create_directories.
  destruct (Fs.exists_ dir (fs w)); [reflexivity|].
  destruct (String.eqb dir ""); [reflexivity|].
  destruct (Fs.make_all (Fs.places dir) (fs w)) as [root'|] eqn:Hmk; [|reflexivity].
  cbn. now apply (make_all_frame _ _ _ _ Hmk).
Qed.

Lemma keeps_directories_pure {A} (m : action A) :
  (forall w, fs (snd (m w)) = fs w) -> keeps_directories m.
Proof. intros Hm w a. now rewrite Hm. Qed.

Lemma keeps_directories_bind {A B} (m : action A) (k : A -> action B) :
  keeps_directories m -> (forall a, keeps_directories (k a)) ->
  keeps_directories (bindA m k).
Proof.
  intros Hm Hk w a. unfold bindA.
  specialize (Hm w a).
  destruct (m w) as [[x| |] w1]; cbn [snd] in *; try exact Hm.
  now rewrite (Hk x w1 a).
Qed.

Lemma keeps_directories_when (b : bool) (m : action unit) :
  keeps_directories m -> keeps_directories (when b m).
Proof.
  intros Hm. destruct b; [exact Hm|]. now apply keeps_directories_pure.
Qed.

Lemma keeps_directories_imwrite `{OpenCV} path (m : Mat) :
  keeps_directories (imwrite path m).
Proof.
  intros w a. unfold imwrite.
  destruct (Fs.write _ _ _) as [root'|] eqn:Hput; [|reflexivity].
  cbn. apply write_put in Hput. now apply (put_directories _ _ _ _ _ Hput).
Qed.

(** What is read at a path name is the file at the place it leads to. *)
Lemma read_locate p root :
  Fs.read p root = match Fs.locate p root with
                   | Some q => read_at q root
                   | None => None
                   end.
Proof. unfold Fs.read, Fs.status, read_at. now destruct (Fs.locate p root). Qed.

(** An action that keeps the directories and does not write at the place
    of a path name leaves what is read there as it is. *)
Lemma read_kept {A} (P : Fs.path -> Prop) (m : action A) p (w : world) :
  keeps_directories m -> writes_only P m -> ~ P (Fs.resolve p) ->
  Fs.read p (fs (snd (m w))) = Fs.read p (fs w).
Proof.
  intros Hdirs Hfiles Hp. rewrite !read_locate.
  rewrite (locate_directories (fs w) (fs (snd (m w)))) by (intros a; apply Hdirs).
  destruct (Fs.locate p (fs w)) as [q|] eqn:Hq; [|reflexivity].
  rewrite (locate_resolve _ _ _ Hq). now apply Hfiles.
Qed.

Lemma writes_only_imwrite `{OpenCV} path (m : Mat) :
  writes_only (eq (Fs.resolve path)) (imwrite path m).
Proof.
  intros w q Hq. unfold imwrite.
  destruct (Fs.write _ _ _) as [root'|] eqn:Hput; [|reflexivity].
  cbn. apply write_put in Hput. apply (put_frame _ _ _ _ _ Hput). congruence.
Qed.

(** ** processSignal *)

Section ProcessSignal.
Context `{Platform}.
Import SignalProcessor.

Lemma movingAverage_nil this : movingAverage this [] = Ok [].
Proof. reflexivity. Qed.

(** A regular file opens and gives its bytes. *)
Lemma open_in_read p root content :
  Fs.read p root = Some content -> Fs.open_in p root = Some content.
Proof.
  unfold Fs.read, Fs.open_in.
  destruct (Fs.status p root) as [[c| |]|]; try discriminate. auto.
Qed.

(** C4: a file whose lines after the header give no sample (N = 0, as in a
    file that has only its header) is not answered by an output file of a
    header and no row: the empty filtered signal is handed to [findPeaks],
    which reads past its end before the output file is opened. *)
Theorem processSignal_without_samples this file_path content (w : world) :
  Fs.read file_path (fs w) = Some content ->
  read_samples (tl (getlines [] (chars content))) = [] ->
  processSignal file_path this w = (Fault OutOfRange, w).
Proof.
  intros Hread Hnone.
  unfold processSignal, bindA.
  rewrite (open_in_read _ _ _ Hread), Hnone.
  unfold lift. now rewrite movingAverage_nil.
Qed.

Lemma rows_ok signal filtered peaks :
  length filtered = length signal ->
  mapM (row signal filtered peaks) (map Z.of_nat (seq 0 (length signal)))
  = Ok (map (row_text signal filtered peaks) (seq 0 (length signal))).
Proof.
  intros Hlen.
  rewrite (mapM_ok _ (fun z => row_text signal filtered peaks (Z.to_nat z))).
  - rewrite map_map. f_equal. apply map_ext. intros k. now rewrite Nat2Z.id.
  - intros z Hz.
    apply in_map_iff in Hz as [k [<- Hk]]. apply in_seq in Hk.
    unfold row, row_text.
    rewrite !at_index_nth by lia. cbn [bind].
    now rewrite Nat2Z.id.
Qed.

(** For a file with at least one sample after the header and an output
    file that can be opened, the output file holds the header line and one
    row per retained sample, in order, each starting with that sample. *)
Lemma processSignal_rows this file_path content (w : world) root1 :
  Fs.read file_path (fs w) = Some content ->
  let signal := read_samples (tl (getlines [] (chars content))) in
  let output_path := (output_dir this ++ "/processed_" ++ Fs.filename file_path)%string in
  signal <> [] ->
  -1 <= window_size this <= Int.max ->
  size signal <= 2 ^ 30 ->
  Fs.write output_path "" (fs w) = Some root1 ->
  exists filtered peaks root2,
    movingAverage this signal = Ok filtered
    /\ length filtered = length signal
    /\ findPeaks this filtered = Ok peaks
    /\ Fs.write output_path
                (String.concat "" (header :: map (row_text signal filtered peaks)
                                                 (seq 0 (length signal)))) root1
       = Some root2
    /\ fst (processSignal file_path this w) = Ok tt
    /\ fs (snd (processSignal file_path this w)) = root2.
Proof.
  intros Hread signal output_path Hne Hw Hn Hopen.
  pose proof (movingAverage_values this signal Hw Hn) as Hma.
  set (filtered := map _ _) in Hma.
  assert (Hlen : length filtered = length signal)
    by (subst filtered; now rewrite !length_map, length_seq).
  assert (Hfp : findPeaks this filtered = Ok (peaks_of (threshold this) filtered)).
  { rewrite findPeaks_outcome.
    - destruct filtered; [|reflexivity].
      destruct signal; [congruence | discriminate].
    - unfold size, Size.modulus in *. rewrite Hlen. lia. }
  destruct (write_again output_path ""
              (String.concat "" (header :: map (row_text signal filtered
                                                         (peaks_of (threshold this) filtered))
                                               (seq 0 (length signal))))
              _ _ Hopen) as [root2 Hroot2].
  exists filtered, (peaks_of (threshold this) filtered), root2.
  repeat split; try assumption.
  - unfold processSignal, bindA. rewrite (open_in_read _ _ _ Hread). fold signal.
    unfold lift. rewrite Hma, Hfp.
    fold output_path. unfold open_out at 1. rewrite Hopen.
    rewrite rows_ok by exact Hlen.
    unfold open_out, with_fs. cbn [fs]. rewrite Hroot2.
    unfold when. now destruct (verbose this).
  - unfold processSignal, bindA. rewrite (open_in_read _ _ _ Hread). fold signal.
    unfold lift. rewrite Hma, Hfp.
    fold output_path. unfold open_out at 1. rewrite Hopen.
    rewrite rows_ok by exact Hlen.
    unfold open_out, with_fs. cbn [fs]. rewrite Hroot2.
    unfold when. now destruct (verbose this).
Qed.

End ProcessSignal.

(** A header and the samples 1, 5, 2, with a window of one sample: three
    rows, the second one a peak. *)
Example processSignal_three_samples :
  let run := @SignalProcessor.processSignal example_platform "in/s.csv"
               (with_window 1 0.5) three_samples_world in
  fst run = Ok tt
  /\ Fs.read "out/processed_s.csv" (fs (snd run))
     = Some ("original,filtered,is_peak" ++ newline
               ++ "1,1,0" ++ newline ++ "5,5,1" ++ newline ++ "2,2,0" ++ newline)%string.
Proof. split; vm_compute; reflexivity. Qed.

Lemma processSignal_without_samples_witness :
  @SignalProcessor.processSignal example_platform "in/empty.csv" (with_window 10 0.5) header_only_world
  = (Fault OutOfRange, header_only_world).
Proof.
  apply (@processSignal_without_samples example_platform (with_window 10 0.5)
           "in/empty.csv" ("value" ++ newline)%string header_only_world);
    reflexivity.
Defined.


(** ** Strings *)

Lemma chars_append (a b : string) : chars (a ++ b) = chars a ++ chars b.
Proof.
  unfold chars. induction a as [|c a IH]; cbn; [reflexivity | now rewrite IH].
Qed.

Lemma chars_inj (a b : string) : chars a = chars b -> a = b.
Proof.
  unfold chars. intros E.
  rewrite <- (string_of_list_ascii_of_string a), <- (string_of_list_ascii_of_string b).
  now rewrite E.
Qed.

Lemma append_inj_l (a x y : string) : (a ++ x = a ++ y)%string -> x = y.
Proof.
  induction a as [|c a IH]; cbn; intros E; [exact E|].
  injection E as E. now apply IH.
Qed.

(** Two texts that agree up to and including the first occurrence of a
    separator which their heads do not contain agree part by part. *)
Lemma split_at_separator (P : ascii -> bool) (sep : ascii) (l1 l2 r1 r2 : list ascii) :
  P sep = false ->
  forallb P l1 = true -> forallb P l2 = true ->
  l1 ++ sep :: r1 = l2 ++ sep :: r2 -> l1 = l2 /\ r1 = r2.
Proof.
  intros Hsep. revert l2.
  induction l1 as [|c l1 IH]; intros [|c' l2] H1 H2 E; cbn in *.
  - now injection E.
  - injection E as <- _. apply andb_prop in H2 as [H2 _]. congruence.
  - injection E as -> _. apply andb_prop in H1 as [H1 _]. congruence.
  - injection E as <- E.
    apply andb_prop in H1 as [_ H1]. apply andb_prop in H2 as [_ H2].
    destruct (IH l2 H1 H2 E) as [-> ->]. now split.
Qed.

(** *** to_string *)

Lemma string_of_uint_chars d :
  forallb is_int_char (chars (NilEmpty.string_of_uint d)) = true.
Proof. induction d; cbn; auto. Qed.

Lemma to_string_chars z : forallb is_int_char (chars (to_string z)) = true.
Proof.
  unfold to_string, NilZero.string_of_int, NilZero.string_of_uint.
  destruct (Z.to_int z) as [d|d]; destruct d; cbn; auto using string_of_uint_chars.
Qed.

Lemma to_string_inj z1 z2 : to_string z1 = to_string z2 -> z1 = z2.
Proof.
  unfold to_string. intros E.
  assert (Hnz : forall z, Z.to_int z <> Decimal.Pos Decimal.Nil
                          /\ Z.to_int z <> Decimal.Neg Decimal.Nil).
  { intros [|q|q]; cbn; split; try discriminate;
      intros [= E']; now apply (Unsigned.to_uint_nonnil q). }
  apply (f_equal NilZero.int_of_string) in E.
  rewrite !NilZero.isi in E by apply Hnz.
  injection E as E.
  rewrite <- (DecimalZ.of_to z1), <- (DecimalZ.of_to z2). now rewrite E.
Qed.

(** ** Path names *)

Lemma split_slash_app cur l1 l2 :
  Fs.split_slash cur (l1 ++ "/"%char :: l2)
  = Fs.split_slash cur l1 ++ Fs.split_slash [] l2.
Proof.
  revert cur. induction l1 as [|c l1 IH]; intros cur; cbn.
  - reflexivity.
  - destruct (Ascii.eqb c "/"); cbn; now rewrite IH.
Qed.

Lemma split_slash_one cur l :
  no_slash l = true -> Fs.split_slash cur l = [text (rev cur ++ l)].
Proof.
  revert cur. induction l as [|c l IH]; intros cur Hl; cbn in *.
  - now rewrite app_nil_r.
  - apply andb_prop in Hl as [Hc Hl].
    destruct (Ascii.eqb c "/"); [discriminate|].
    rewrite IH by exact Hl. cbn. now rewrite <- app_assoc.
Qed.

(** A path name has at least one component. *)
Lemma split_slash_cons cur l : exists c cs, Fs.split_slash cur l = c :: cs.
Proof.
  revert cur. induction l as [|x l IH]; intros cur; cbn; [eauto|].
  destruct (Ascii.eqb x "/"); [eauto | apply IH].
Qed.

(** Resolving [dir/name] for a name without a slash is one step from [dir]. *)
Lemma resolve_child dir name :
  no_slash (chars name) = true ->
  Fs.resolve (dir ++ "/" ++ name) = Fs.step (Fs.resolve dir) name.
Proof.
  intros Hname. unfold Fs.resolve.
  rewrite chars_append. change (chars ("/" ++ name)) with ("/"%char :: chars name).
  rewrite split_slash_app, fold_left_app, split_slash_one by exact Hname.
  cbn. unfold text, chars. now rewrite string_of_list_ascii_of_string.
Qed.

Lemma step_proper acc name :
  proper_name name = true -> Fs.step acc name = acc ++ [name].
Proof.
  unfold proper_name, Fs.step. intros Hn.
  repeat (apply andb_prop in Hn as [Hn ?]).
  destruct (String.eqb name ""); [discriminate|].
  destruct (String.eqb name "."); [discriminate|].
  now destruct (String.eqb name "..").
Qed.

Lemma step_cases acc name :
  Fs.step acc name = acc \/ Fs.step acc name = removelast acc
  \/ Fs.step acc name = acc ++ [name].
Proof.
  unfold Fs.step.
  destruct (_ || _); [now left|].
  destruct (String.eqb name ".."); [right; now left | right; now right].
Qed.

Lemma after_last_no_slash c l :
  match Fs.after_last c l with
  | Some r => forallb (fun x => negb (Ascii.eqb x c)) r = true
  | None => forallb (fun x => negb (Ascii.eqb x c)) l = true
  end.
Proof.
  induction l as [|x l IH]; cbn; [reflexivity|].
  destruct (Fs.after_last c l) as [r|]; [exact IH|].
  destruct (Ascii.eqb x c); [exact IH | now rewrite IH].
Qed.

Lemma filename_no_slash p : no_slash (chars (Fs.filename p)) = true.
Proof.
  unfold Fs.filename, no_slash.
  pose proof (after_last_no_slash "/"%char (chars p)) as Hs.
  destruct (Fs.after_last "/" (chars p)) as [r|]; [|exact Hs].
  unfold text, chars. now rewrite list_ascii_of_string_of_list_ascii.
Qed.

(** ** batchProcess *)

Section BatchProcess.
Context `{Platform} `{OpenCV}.
Import ImageProcessor.

Lemma for_each_app {A T} (l1 l2 : list A) (body : A -> T -> action T) (this : T) (w : world) :
  for_each (l1 ++ l2) body this w
  = (this' <~ for_each l1 body this ;; for_each l2 body this') w.
Proof.
  revert this w. induction l1 as [|a l1 IH]; intros this w; cbn.
  - reflexivity.
  - unfold bindA. destruct (body a this w) as [[this'| |] w']; auto.
Qed.

Lemma for_each_map {A B T} (f : A -> B) (l : list A) (body : B -> T -> action T)
      (this : T) (w : world) :
  for_each (map f l) body this w = for_each l (fun a => body (f a)) this w.
Proof.
  revert this w. induction l as [|a l IH]; intros this w; cbn.
  - reflexivity.
  - unfold bindA. destruct (body (f a) this w) as [[this'| |] w']; auto.
Qed.

(** The two nested loops visit the pairs of the cartesian product, the
    blur sizes in the outer loop. *)
Lemma batchProcess_list_prod blur_sizes contrast_values this (w : world) :
  batchProcess blur_sizes contrast_values this w
  = for_each (list_prod blur_sizes contrast_values)
             (fun cell => batch_cell (fst cell) (snd cell)) this w.
Proof.
  unfold batchProcess. revert this w.
  induction blur_sizes as [|blur blur_sizes IH]; intros this w.
  - reflexivity.
  - cbn [list_prod for_each]. rewrite for_each_app.
    unfold bindA. rewrite for_each_map. cbn [fst snd].
    change (fun a : float => batch_cell blur a) with (batch_cell blur).
    destruct (for_each contrast_values (batch_cell blur) this w) as [[this'| |] w']; auto.
Qed.

Lemma param_dir_name output_dir blur contrast dir :
  param_dir output_dir blur contrast = Ok dir ->
  exists c10,
    trunc_to_int (PrimFloat.mul contrast 10) = Ok c10 /\
    dir = (output_dir ++ "/blur" ++ to_string blur ++ "_contrast" ++ to_string c10)%string.
Proof.
  unfold param_dir. destruct (trunc_to_int _) as [c10| |]; cbn; intros [= <-].
  now exists c10.
Qed.

Lemma subdir_name_inj (b1 b2 k1 k2 : Z) :
  ("/blur" ++ to_string b1 ++ "_contrast" ++ to_string k1
   = "/blur" ++ to_string b2 ++ "_contrast" ++ to_string k2)%string ->
  b1 = b2 /\ k1 = k2.
Proof.
  intros E. apply (append_inj_l "/blur") in E.
  apply (f_equal chars) in E. rewrite !chars_append in E.
  change (chars "_contrast") with ("_"%char :: chars "contrast") in E.
  cbn [app] in E.
  apply (split_at_separator is_int_char) in E as [Eb Ek];
    [| reflexivity | apply to_string_chars | apply to_string_chars].
  split.
  - now apply to_string_inj, chars_inj.
  - apply app_inv_head in Ek. now apply to_string_inj, chars_inj.
Qed.

Lemma writes_only_processImage image_path this :
  writes_only (eq (Fs.resolve (output_dir this ++ "/" ++ Fs.filename image_path)))
              (processImage image_path this).
Proof.
  unfold processImage. apply writes_only_bind; [now apply writes_only_pure|].
  intros [image|]; [|now apply writes_only_pure].
  apply writes_only_bind; [now apply writes_only_pure|]. intros blurred.
  apply writes_only_bind; [apply writes_only_imwrite|]. intros _.
  apply writes_only_when. now apply writes_only_pure.
Qed.

Lemma writes_only_process_from this i paths :
  writes_only (targets (output_dir this) paths) (process_from this i paths).
Proof.
  revert i. induction paths as [|image_path paths IH]; intros i; cbn [process_from].
  - now apply writes_only_pure.
  - apply writes_only_bind.
    + eapply writes_only_weaken; [|apply writes_only_processImage].
      intros q <-. exists image_path. split; [now left | reflexivity].
    + intros _. apply writes_only_bind.
      * apply writes_only_when. now apply writes_only_pure.
      * intros _. eapply writes_only_weaken; [|apply IH].
        intros q (p & Hp & ->). exists p. split; [now right | reflexivity].
Qed.

Lemma writes_only_processAllImages this :
  writes_only (targets (output_dir this) (image_paths this)) (processAllImages this).
Proof.
  unfold processAllImages.
  apply writes_only_bind; [now apply writes_only_pure|]. intros start.
  apply writes_only_bind; [apply writes_only_process_from|]. intros _.
  apply writes_only_bind; [now apply writes_only_pure|]. intros stop.
  apply writes_only_bind; [now apply writes_only_pure|]. intros _.
  now apply writes_only_pure.
Qed.

(** One cell of the sweep writes image files only into the directory of
    its own pair of parameters. *)
Lemma writes_only_batch_cell blur contrast this dir :
  param_dir (output_dir this) blur contrast = Ok dir ->
  writes_only (targets dir (image_paths this)) (batch_cell blur contrast this).
Proof.
  intros Hdir. unfold batch_cell. rewrite Hdir.
  apply writes_only_lift_ok.
  apply writes_only_bind; [apply writes_only_ensure_directory|]. intros _.
  apply writes_only_bind; [apply writes_only_when; now apply writes_only_pure|].
  intros _.
  apply writes_only_bind; [|intros _; now apply writes_only_pure].
  exact (writes_only_processAllImages
           (set_output_dir dir
              (setProcessingParameters blur contrast (contrast_beta this)
                                       (apply_edge_detection this) this))).
Qed.

Lemma proper_name_cons c s :
  Ascii.eqb c "/" = false -> Ascii.eqb c "." = false ->
  no_slash (chars s) = true -> proper_name (String c s) = true.
Proof.
  intros Hslash Hdot Hs. unfold proper_name.
  cbn [String.eqb chars list_ascii_of_string forallb].
  fold (chars s). fold (no_slash (chars s)).
  now rewrite Hdot, Hslash, Hs.
Qed.

Lemma to_string_no_slash z : no_slash (chars (to_string z)) = true.
Proof.
  pose proof (to_string_chars z) as Hz. unfold no_slash.
  rewrite forallb_forall in *. intros c Hc. specialize (Hz c Hc).
  destruct (Ascii.eqb_spec c "/") as [->|]; [discriminate | reflexivity].
Qed.

(** The name of the subdirectory of a pair is a proper entry name. *)
Lemma subdir_proper (b k : Z) :
  proper_name ("blur" ++ to_string b ++ "_contrast" ++ to_string k) = true.
Proof.
  change ("blur" ++ to_string b ++ "_contrast" ++ to_string k)%string
    with (String "b" ("lur" ++ to_string b ++ "_contrast" ++ to_string k)).
  apply proper_name_cons; [reflexivity | reflexivity |].
  unfold no_slash. rewrite !chars_append, !forallb_app.
  fold (no_slash (chars (to_string b))). fold (no_slash (chars (to_string k))).
  now rewrite !to_string_no_slash.
Qed.

(** A cell of the sweep leaves the files of the directory of every other
    pair as they are. *)
Lemma batch_cell_other_directory blur1 contrast1 blur2 contrast2 this dir1 dir2 name w :
  param_dir (output_dir this) blur1 contrast1 = Ok dir1 ->
  param_dir (output_dir this) blur2 contrast2 = Ok dir2 ->
  dir1 <> dir2 ->
  proper_name name = true ->
  read_at (Fs.resolve (dir2 ++ "/" ++ name)) (fs (snd (batch_cell blur1 contrast1 this w)))
  = read_at (Fs.resolve (dir2 ++ "/" ++ name)) (fs w).
Proof.
  intros H1 H2 Hne Hname.
  apply (writes_only_batch_cell _ _ _ _ H1 w (Fs.resolve (dir2 ++ "/" ++ name))).
  intros (p & _ & E).
  apply param_dir_name in H1 as (k1 & _ & ->).
  apply param_dir_name in H2 as (k2 & _ & ->).
  change (output_dir this ++ "/blur" ++ to_string blur1 ++ "_contrast" ++ to_string k1)%string
    with (output_dir this ++ "/"
            ++ ("blur" ++ to_string blur1 ++ "_contrast" ++ to_string k1))%string in *.
  change (output_dir this ++ "/blur" ++ to_string blur2 ++ "_contrast" ++ to_string k2)%string
    with (output_dir this ++ "/"
            ++ ("blur" ++ to_string blur2 ++ "_contrast" ++ to_string k2))%string in *.
  pose proof (subdir_proper blur1 k1) as Hp1.
  pose proof (subdir_proper blur2 k2) as Hp2.
  set (R := Fs.resolve (output_dir this)) in *.
  set (s1 := ("blur" ++ to_string blur1 ++ "_contrast" ++ to_string k1)%string) in *.
  set (s2 := ("blur" ++ to_string blur2 ++ "_contrast" ++ to_string k2)%string) in *.
  assert (Hs : s1 <> s2) by (intros Es; apply Hne; now rewrite Es).
  assert (Hd : forall s, proper_name s = true ->
                         Fs.resolve (output_dir this ++ "/" ++ s) = R ++ [s]).
  { intros s Hp. rewrite resolve_child, step_proper; auto.
    unfold proper_name in Hp. now apply andb_prop in Hp as [_ ?]. }
  rewrite (resolve_child _ name), step_proper in E
    by (auto; unfold proper_name in Hname; now apply andb_prop in Hname as [_ ?]).
  rewrite (resolve_child _ (Fs.filename p)) in E by apply filename_no_slash.
  rewrite !Hd in E by assumption.
  clearbody s1 s2.
  destruct (step_cases (R ++ [s1]) (Fs.filename p)) as [E'|[E'|E']];
    rewrite E' in E; clear E'.
  - rewrite <- app_assoc in E. apply app_inv_head in E. discriminate.
  - rewrite removelast_last in E. apply (f_equal (@length _)) in E.
    rewrite !length_app in E. cbn in E. lia.
  - rewrite <- !app_assoc in E. apply app_inv_head in E.
    cbn [app] in E. injection E as E _. congruence.
Qed.

(** *** The fields after a sweep *)

Lemma bindA_ok {A B} (m : action A) (k : A -> action B) (w w' : world) (b : B) :
  bindA m k w = (Ok b, w') ->
  exists a w1, m w = (Ok a, w1) /\ k a w1 = (Ok b, w').
Proof.
  unfold bindA. destruct (m w) as [[a| |] w1]; try discriminate. eauto.
Qed.

(** A cell that returns has set the two swept parameters and has put the
    output directory back. *)
Lemma batch_cell_fields blur contrast this this' (w w' : world) :
  batch_cell blur contrast this w = (Ok this', w') ->
  this' = {| image_paths := image_paths this;
             output_dir := output_dir this;
             verbose := verbose this;
             blur_size := blur;
             contrast_alpha := contrast;
             contrast_beta := contrast_beta this;
             apply_edge_detection := apply_edge_detection this |}.
Proof.
  unfold batch_cell. intros Hrun.
  apply bindA_ok in Hrun as (dir & w1 & _ & Hrun).
  apply bindA_ok in Hrun as (_ & w2 & _ & Hrun).
  apply bindA_ok in Hrun as (_ & w3 & _ & Hrun).
  apply bindA_ok in Hrun as (_ & w4 & _ & Hrun).
  now injection Hrun as <- _.
Qed.

Lemma last_cons {A} (a d : A) (l : list A) : last (a :: l) d = last l a.
Proof.
  revert a d. induction l as [|b l IH]; intros a d; [reflexivity|].
  change (last (a :: b :: l) d) with (last (b :: l) d).
  now rewrite (IH b d), (IH b a).
Qed.

Lemma for_each_cells_fields cells this this' (w w' : world) :
  for_each cells (fun cell => batch_cell (fst cell) (snd cell)) this w = (Ok this', w') ->
  image_paths this' = image_paths this
  /\ output_dir this' = output_dir this
  /\ verbose this' = verbose this
  /\ contrast_beta this' = contrast_beta this
  /\ apply_edge_detection this' = apply_edge_detection this
  /\ (blur_size this', contrast_alpha this')
     = last cells (blur_size this, contrast_alpha this).
Proof.
  revert this w. induction cells as [|[blur contrast] cells IH]; intros this w Hrun.
  - cbn in Hrun. injection Hrun as <- _. repeat split.
  - cbn [for_each] in Hrun.
    apply bindA_ok in Hrun as (this1 & w1 & Hcell & Hrun).
    apply batch_cell_fields in Hcell. cbn [fst snd] in Hcell.
    apply IH in Hrun as (-> & -> & -> & -> & -> & ->).
    rewrite last_cons. subst this1. repeat split.
Qed.

(** C9: when [batchProcess] returns, the object is what it was before with
    [blur_size] and [contrast_alpha] set to the last pair of the sweep (a
    sweep without a pair leaves them as they were): the output directory is
    the one from before the sweep, the two parameters are not put back, and
    a later [processAllImages] runs with them. *)
Theorem batchProcess_leaves_last_parameters blur_sizes contrast_values this this'
        (w w' : world) :
  batchProcess blur_sizes contrast_values this w = (Ok this', w') ->
  let final := last (list_prod blur_sizes contrast_values)
                    (blur_size this, contrast_alpha this) in
  this' = setProcessingParameters (fst final) (snd final) (contrast_beta this)
                                  (apply_edge_detection this) this
  /\ output_dir this' = output_dir this
  /\ blur_size this' = fst final
  /\ contrast_alpha this' = snd final
  /\ processAllImages this'
     = processAllImages (setProcessingParameters (fst final) (snd final)
                           (contrast_beta this) (apply_edge_detection this) this).
Proof.
  rewrite batchProcess_list_prod. intros Hrun final.
  apply for_each_cells_fields in Hrun as (Hp & Ho & Hv & Hb & He & Hl).
  fold final in Hl.
  assert (Hthis : this' = setProcessingParameters (fst final) (snd final)
                            (contrast_beta this) (apply_edge_detection this) this).
  { destruct this'. cbn in *. rewrite <- Hl. cbn. now subst. }
  split; [exact Hthis|]. split; [exact Ho|].
  rewrite <- Hl. cbn [fst snd]. repeat split. now rewrite Hthis.
Qed.

End BatchProcess.

Lemma batchProcess_leaves_last_parameters_witness :
  let run := @ImageProcessor.batchProcess example_platform example_vision
               [3; 5] [1; 1.5]%float two_images images_world in
  ImageProcessor.blur_size two_images = 9
  /\ ImageProcessor.contrast_alpha two_images = 2%float
  /\ exists this',
      fst run = Ok this'
      /\ this' = ImageProcessor.setProcessingParameters 5 1.5 10 false two_images
      /\ ImageProcessor.output_dir this' = "out"%string
      /\ ImageProcessor.blur_size this' = 5
      /\ ImageProcessor.contrast_alpha this' = 1.5%float.
Proof.
  intros run. split; [reflexivity|]. split; [reflexivity|].
  destruct run as [[this'| |] w'] eqn:Hrun; try (vm_compute in Hrun; discriminate).
  exists this'. split; [reflexivity|].
  destruct (@batchProcess_leaves_last_parameters example_platform example_vision
              [3; 5] [1; 1.5]%float two_images this' images_world w' Hrun)
    as (Hthis & Ho & Hb & Hc & _).
  repeat split; assumption.
Defined.

(** C5 (as stated) fails: the contrasts 1.0 and 1.05 are distinct and give
    the same directory, and a sweep over them leaves there only what the
    second cell wrote over the files of the first. *)
Lemma param_dir_collision :
  ImageProcessor.param_dir "out" 3 1 = Ok "out/blur3_contrast10"%string
  /\ ImageProcessor.param_dir "out" 3 1.05 = Ok "out/blur3_contrast10"%string
  /\ PrimFloat.eqb 1 1.05 = false
  /\ Fs.lookup ["out"%string]
       (fs (snd (@ImageProcessor.batchProcess example_platform example_vision
                   [3] [1; 1.05]%float one_image images_world)))
     = Some (Fs.Dir [("blur3_contrast10",
                      Fs.Dir [("a.png", Fs.File "A+blur3+alpha105")])]%string).
Proof. repeat split; vm_compute; reflexivity. Qed.

(** ** analyzeImages *)

Section AnalyzeImages.
Context `{Platform} `{OpenCV}.
Import ImageProcessor.

Lemma analyze_step_ok path st (w : world) n :
  Fs.file_size path (fs w) = Ok n ->
  exists st', analyze_step path st w = (Ok st', w).
Proof.
  intros Hsize. unfold analyze_step, bindA, imread, ret. rewrite Hsize.
  eauto.
Qed.

Lemma analyze_loop_ok paths st (w : world) :
  (forall p, In p paths -> exists n, Fs.file_size p (fs w) = Ok n) ->
  exists st', for_each paths analyze_step st w = (Ok st', w).
Proof.
  revert st. induction paths as [|p paths IH]; intros st Hsizes; cbn [for_each].
  - now exists st.
  - destruct (Hsizes p (or_introl eq_refl)) as [n Hn].
    destruct (analyze_step_ok p st w n Hn) as [st1 Hst1].
    unfold bindA. rewrite Hst1.
    apply IH. intros q Hq. apply Hsizes. now right.
Qed.

Lemma report_ok this st (w : world) : fst (report this st w) = Ok tt.
Proof. reflexivity. Qed.

Lemma file_size_bytes_at p content root :
  Fs.read p root = Some content -> Fs.file_size p root = Ok (bytes_at root p).
Proof.
  unfold Fs.file_size, bytes_at, Fs.read.
  destruct (Fs.status p root) as [[c| |]|]; try discriminate.
  reflexivity.
Qed.

(** The loop of [analyzeImages] over files that can be read computes the
    statistics of the corpus. *)
Lemma analyze_loop_stats paths st (w : world) :
  (forall p, In p paths -> exists content, Fs.read p (fs w) = Some content) ->
  for_each paths analyze_step st w = (Ok (aggregate_from st (fs w) paths), w).
Proof.
  revert st. induction paths as [|p paths IH]; intros st Hread.
  - now destruct st.
  - destruct (Hread p (or_introl eq_refl)) as [content Hp].
    cbn [for_each]. unfold bindA at 1.
    unfold analyze_step at 1. unfold bindA, imread, ret.
    rewrite (file_size_bytes_at _ _ _ Hp).
    fold (decoded p (fs w)).
    rewrite IH by (intros q Hq; apply Hread; now right).
    unfold aggregate_from, decodable. cbn [flat_map map fold_left].
    destruct (decoded p (fs w)) as [image|]; reflexivity.
Qed.

(** A sum of [size_t] values is the sum of the values, wrapped. *)
Lemma fold_size_add (l : list Z) (a : Z) :
  0 <= a < Size.modulus ->
  fold_left Size.add l a = (a + fold_right Z.add 0 l) mod Size.modulus.
Proof.
  revert a. induction l as [|x l IH]; intros a Ha; cbn [fold_left fold_right].
  - now rewrite Z.add_0_r, Z.mod_small.
  - rewrite IH by (unfold Size.add; apply Z.mod_pos_bound; reflexivity).
    unfold Size.add. rewrite Z.add_mod_idemp_l by discriminate.
    f_equal. lia.
Qed.

Lemma sum_app (l1 l2 : list Z) :
  fold_right Z.add 0 (l1 ++ l2) = fold_right Z.add 0 l1 + fold_right Z.add 0 l2.
Proof. induction l1 as [|x l1 IH]; cbn [app fold_right]; lia. Qed.

(** A file that does not decode adds its size to the total of the corpus
    and leaves the extremes as they are without it. *)
Lemma aggregate_undecodable root before p after :
  decoded p root = None ->
  let st := aggregate root (before ++ p :: after) in
  let rest := aggregate root (before ++ after) in
  total_size st = Size.add (total_size rest) (bytes_at root p)
  /\ min_width st = min_width rest /\ max_width st = max_width rest
  /\ min_height st = min_height rest /\ max_height st = max_height rest.
Proof.
  intros Hdec st rest.
  assert (Himages : decodable root (before ++ p :: after) = decodable root (before ++ after)).
  { unfold decodable. rewrite !flat_map_app. cbn [flat_map]. now rewrite Hdec. }
  unfold st, rest, aggregate, aggregate_from. cbn [total_size min_width max_width
                                                     min_height max_height initial_stats].
  rewrite Himages. split; [|repeat split].
  rewrite !fold_size_add by (unfold Size.modulus; lia).
  unfold Size.add. rewrite Z.add_mod_idemp_l by discriminate.
  rewrite !map_app, !sum_app. cbn [map fold_right]. f_equal. lia.
Qed.

(** C6 (amended): an empty corpus is answered by the one line "No images to
    analyze" and nothing else.  A corpus that is not empty and whose files
    can be read is answered by the report of its statistics, whether its
    files decode or not: the total is the sum, as a [size_t], of the sizes
    of all files, and the extremes are taken over the images that decode.
    A file of such a corpus that does not decode adds its size to the total
    and leaves the four extremes as they are without it.  The analysis of
    any corpus whose files have a size ends without a fault: its divisions
    are divisions of doubles. *)
Theorem analyzeImages_report this (w : world) :
  (image_paths this = [] ->
   analyzeImages this w
   = (Ok tt, {| fs := fs w; ticks := ticks w;
                cout := cout w ++ ["No images to analyze"%string];
                cerr := cerr w |}))
  /\ (image_paths this <> [] ->
      (forall p, In p (image_paths this) -> exists content, Fs.read p (fs w) = Some content) ->
      analyzeImages this w = report this (aggregate (fs w) (image_paths this)) w
      /\ forall before p after,
          image_paths this = before ++ p :: after ->
          decoded p (fs w) = None ->
          let st := aggregate (fs w) (image_paths this) in
          let rest := aggregate (fs w) (before ++ after) in
          total_size st = Size.add (total_size rest) (bytes_at (fs w) p)
          /\ min_width st = min_width rest /\ max_width st = max_width rest
          /\ min_height st = min_height rest /\ max_height st = max_height rest)
  /\ (forall path st n,
         Fs.file_size path (fs w) = Ok n ->
         fst (imread path w) = Ok None ->
         analyze_step path st w
         = (Ok {| total_size := Size.add (total_size st) n;
                  min_width := min_width st; max_width := max_width st;
                  min_height := min_height st; max_height := max_height st |}, w))
  /\ ((forall p, In p (image_paths this) -> exists n, Fs.file_size p (fs w) = Ok n) ->
      fst (analyzeImages this w) = Ok tt).
Proof.
  split; [|split; [|split]].
  - unfold analyzeImages. now intros ->.
  - intros Hne Hread. split.
    + unfold analyzeImages.
      destruct (image_paths this) as [|p paths] eqn:Hpaths; [congruence|].
      unfold bindA at 1. now rewrite analyze_loop_stats.
    + intros before p after Hpaths Hdec. rewrite Hpaths.
      now apply aggregate_undecodable.
  - intros path st n Hsize Hread.
    unfold analyze_step, bindA, ret. rewrite Hsize.
    unfold imread in *. cbn [fst] in Hread.
    injection Hread as Hread. now rewrite Hread.
  - intros Hsizes. unfold analyzeImages.
    destruct (image_paths this) as [|p paths] eqn:Hpaths; [reflexivity|].
    destruct (analyze_loop_ok (p :: paths) initial_stats w Hsizes) as [st Hst].
    unfold bindA. rewrite Hst. apply report_ok.
Qed.

End AnalyzeImages.

Lemma analyzeImages_report_witness :
  @ImageProcessor.analyzeImages example_platform example_vision two_images images_world
  = @ImageProcessor.report example_platform two_images
      {| ImageProcessor.total_size := 8;
         ImageProcessor.min_width := 1; ImageProcessor.max_width := 1;
         ImageProcessor.min_height := 1; ImageProcessor.max_height := 1 |}
      images_world
  /\ ImageProcessor.total_size
       (@aggregate example_vision (fs images_world) ["in/a.png"; "in/b.JPG"]%string)
     = Size.add 1 7
  /\ ImageProcessor.min_width
       (@aggregate example_vision (fs images_world) ["in/a.png"; "in/b.JPG"]%string)
     = 1.
Proof.
  destruct (@analyzeImages_report example_platform example_vision two_images images_world)
    as (_ & Hreport & _).
  destruct Hreport as [Hrun Hfile].
  - discriminate.
  - intros p [<-|[<-|[]]]; eexists; vm_compute; reflexivity.
  - split; [exact Hrun|].
    destruct (Hfile ["in/a.png"%string] "in/b.JPG"%string [] eq_refl eq_refl)
      as (Htotal & Hmin & _).
    split; [exact Htotal | exact Hmin].
Defined.

(** C6 (as stated) fails on a corpus that is not empty and holds no image
    that decodes: the analyzer does not say "No images to analyze" but
    reports one image and the ranges it started from. *)
Lemma analyzeImages_undecodable_corpus :
  fst (@imread example_vision "in/b.JPG"%string images_world) = Ok None
  /\ cout (snd (@ImageProcessor.analyzeImages example_platform example_vision
                  corrupt_only images_world))
     = ["Image Analysis:"; "Number of images: 1"; "Total size: 0 MB";
        "Average size: 0 KB/image"; "Width range: 2147483647 - 0 pixels";
        "Height range: 2147483647 - 0 pixels"]%string.
Proof. split; vm_compute; reflexivity. Qed.

(** ** Construction *)

Lemma mkdirs_lookup_none p n n' q :
  Fs.mkdirs p n = Some n' ->
  Fs.lookup q n = None ->
  (forall rest, p <> q ++ rest) ->
  Fs.lookup q n' = None.
Proof.
  revert n n' q. induction p as [|c p IH]; intros n n' q Hmk Hq Hpre.
  - destruct n; try discriminate. now injection Hmk as <-.
  - destruct n as [|es|]; try discriminate.
    cbn in Hmk.
    destruct (Fs.mkdirs p _) as [x'|] eqn:Hx; [|discriminate].
    injection Hmk as <-.
    destruct q as [|b q]; [discriminate|].
    cbn [Fs.lookup] in *.
    destruct (String.eqb_spec b c) as [->|Hbc].
    + rewrite assoc_set_entry.
      apply (IH _ _ q Hx).
      * destruct (Fs.assoc c es); [exact Hq|].
        destruct q; [|reflexivity].
        exfalso. apply (Hpre p). reflexivity.
      * intros rest ->. apply (Hpre rest). reflexivity.
    + now rewrite assoc_set_entry_other.
Qed.


(** Making directories leaves what is there: a directory stays one, and
    anything else stays what it is. *)
Lemma mkdirs_lookup_old p n n' a y :
  Fs.mkdirs p n = Some n' ->
  Fs.lookup a n = Some y ->
  match y with
  | Fs.Dir _ => is_dir a n' = true
  | _ => Fs.lookup a n' = Some y
  end.
Proof.
  revert n n' a y. induction p as [|c p IH]; intros n n' a y Hmk Ha.
  - destruct n as [|es|]; try discriminate. injection Hmk as <-.
    unfold is_dir. rewrite Ha. now destruct y.
  - destruct n as [|es|]; try discriminate.
    cbn in Hmk.
    destruct (Fs.mkdirs p _) as [x'|] eqn:Hx; [|discriminate].
    injection Hmk as <-.
    destruct a as [|b a].
    + cbn in Ha. injection Ha as <-. reflexivity.
    + unfold is_dir. cbn [Fs.lookup] in *.
      destruct (String.eqb_spec b c) as [->|Hbc].
      * rewrite assoc_set_entry.
        destruct (Fs.assoc c es) as [x|]; [|discriminate].
        apply (IH _ _ a y Hx Ha).
      * rewrite assoc_set_entry_other by exact Hbc.
        destruct (Fs.assoc b es) as [x|]; [|discriminate].
        rewrite Ha. now destruct y.
Qed.

Lemma mkdirs_directories p n n' a :
  Fs.mkdirs p n = Some n' -> is_dir a n = true -> is_dir a n' = true.
Proof.
  intros Hmk Ha. unfold is_dir in Ha.
  destruct (Fs.lookup a n) as [[| es |]|] eqn:Hl; try discriminate.
  exact (mkdirs_lookup_old _ _ _ _ _ Hmk Hl).
Qed.



Lemma make_all_directories qs n n' a :
  Fs.make_all qs n = Some n' -> is_dir a n = true -> is_dir a n' = true.
Proof.
  revert n. induction qs as [|q qs IH]; intros n Hmk Ha; cbn in Hmk.
  - now injection Hmk as <-.
  - destruct (Fs.mkdirs q n) as [n1|] eqn:Hq; [|discriminate].
    apply (IH n1 Hmk). now apply (mkdirs_directories _ _ _ _ Hq).
Qed.







(** ** Enumerating files *)

Lemma assoc_in c es x : Fs.assoc c es = Some x -> In (c, x) es.
Proof.
  induction es as [|[n y] es IH]; cbn; [discriminate|].
  destruct (String.eqb_spec n c) as [->|_].
  - intros [= ->]. now left.
  - intros Hc. right. now apply IH.
Qed.

(** Every entry below a directory is yielded by the recursive iteration. *)
Lemma walk_complete cs c prefix n x :
  Fs.lookup (c :: cs) n = Some x ->
  In (join_all prefix (c :: cs), x) (Fs.walk prefix n).
Proof.
  revert c prefix n. induction cs as [|c' cs IH]; intros c prefix n Hx;
    cbn [Fs.lookup] in Hx;
    (destruct n as [|es|]; try discriminate);
    destruct (Fs.assoc c es) as [y|] eqn:Hy; try discriminate;
    apply assoc_in in Hy; cbn [Fs.walk]; apply in_flat_map;
    exists (c, y); (split; [exact Hy|]).
  - injection Hx as <-. now left.
  - right. apply (IH c' (Fs.join prefix c) y). exact Hx.
Qed.

Lemma loadImagePaths_paths input_dir this this' (w w' : world) p :
  ImageProcessor.loadImagePaths input_dir this w = (Ok this', w') ->
  exists entries,
    Fs.recursive_directory_iterator input_dir (fs w) = Ok entries
    /\ (In p (ImageProcessor.image_paths this') <->
        exists x, In (p, x) entries /\ ImageProcessor.is_image (p, x) = true).
Proof.
  unfold ImageProcessor.loadImagePaths, bindA, ret.
  destruct (Fs.recursive_directory_iterator input_dir (fs w)) as [entries| |];
    try discriminate.
  intros [= <- _]. exists entries. split; [reflexivity|].
  cbn. rewrite in_map_iff. split.
  - intros ([q x] & <- & Hin). apply filter_In in Hin. now exists x.
  - intros (x & Hin & Himg). exists (p, x). split; [reflexivity|].
    now apply filter_In.
Qed.

(** The signal enumerator compares the extension as it is spelled. *)
Lemma is_csv_exact p x :
  SignalProcessor.is_csv (p, x) = true
  <-> Fs.is_regular_file x = true /\ Fs.extension p = ".csv"%string.
Proof.
  unfold SignalProcessor.is_csv. cbn [fst snd].
  rewrite andb_true_iff, String.eqb_eq. reflexivity.
Qed.

(** C7: the image enumerator lowers the case of the extension before it
    compares, the signal enumerator does not: of the regular files
    [data.csv], [DATA.CSV] and [sub/more.Csv] it returns the first only,
    while the image enumerator returns both [photo.jpg] and
    [sub/PHOTO.JPG]. *)
Theorem loadSignalFiles_misses_upper_case :
  fst (ImageProcessor.make "in" "out" false mixed_case_world)
  = Ok {| ImageProcessor.image_paths := ["in/photo.jpg"; "in/sub/PHOTO.JPG"]%string;
          ImageProcessor.output_dir := "out";
          ImageProcessor.verbose := false;
          ImageProcessor.blur_size := 5;
          ImageProcessor.contrast_alpha := 1.5%float;
          ImageProcessor.contrast_beta := 10;
          ImageProcessor.apply_edge_detection := true |}
  /\ fst (SignalProcessor.make "in" "out" false mixed_case_world)
     = Ok {| SignalProcessor.signal_files := ["in/data.csv"%string];
             SignalProcessor.output_dir := "out";
             SignalProcessor.verbose := false;
             SignalProcessor.window_size := 10;
             SignalProcessor.threshold := 0.5%float |}
  /\ ImageProcessor.lowercase (Fs.extension "in/DATA.CSV") = ".csv"%string
  /\ SignalProcessor.is_csv ("in/DATA.CSV"%string, Fs.File "h") = false.
Proof. repeat split; vm_compute; reflexivity. Qed.

(** ** std::stod *)

Lemma span_spec p l a b :
  span p l = (a, b) -> l = a ++ b /\ forallb p a = true /\ stops p b.
Proof.
  revert a b. induction l as [|c l IH]; cbn; intros a b.
  - intros [= <- <-]. cbn. auto.
  - destruct (p c) eqn:Hc.
    + destruct (span p l) as [a' b'] eqn:Hs. intros [= <- <-].
      destruct (IH _ _ eq_refl) as (-> & Ha & Hb). cbn. rewrite Hc. auto.
    + intros [= <- <-]. cbn. auto.
Qed.

Lemma span_app_stop p a b :
  forallb p a = true -> stops p b -> span p (a ++ b) = (a, b).
Proof.
  intros Ha Hb. induction a as [|c a IH]; cbn in *.
  - destruct b as [|x b]; cbn in *; [reflexivity | now rewrite Hb].
  - apply andb_prop in Ha as [Hc Ha]. now rewrite Hc, IH.
Qed.

Lemma span_all p a : forallb p a = true -> span p a = (a, []).
Proof.
  intros Ha. rewrite <- (app_nil_r a) at 1. now apply span_app_stop.
Qed.

(** Facts about single characters, by enumeration. *)
Lemma forall_ascii (f : ascii -> bool) :
  (forall b0 b1 b2 b3 b4 b5 b6 b7, f (Ascii b0 b1 b2 b3 b4 b5 b6 b7) = true) ->
  forall c, f c = true.
Proof. intros Hf [b0 b1 b2 b3 b4 b5 b6 b7]. apply Hf. Qed.

Ltac by_enumeration :=
  intros; repeat match goal with b : bool |- _ => destruct b end; reflexivity.

Lemma exponent_letter_stops (c : ascii) :
  implb (Ascii.eqb (Char.tolower c) "e") (negb (Char.is_digit c) && negb (Ascii.eqb c ".")) = true.
Proof. revert c. apply forall_ascii. by_enumeration. Qed.

Lemma hex_exponent_letter_stops (c : ascii) :
  implb (Ascii.eqb (Char.tolower c) "p") (negb (Char.is_xdigit c) && negb (Ascii.eqb c ".")) = true.
Proof. revert c. apply forall_ascii. by_enumeration. Qed.

Lemma digit_not_sign (c : ascii) :
  implb (Char.is_digit c) (negb (Ascii.eqb c "-") && negb (Ascii.eqb c "+")) = true.
Proof. revert c. apply forall_ascii. by_enumeration. Qed.

Lemma zero_is_digit (c : ascii) :
  implb (Ascii.eqb (Char.tolower c) "0") (Char.is_digit c) = true.
Proof. revert c. apply forall_ascii. by_enumeration. Qed.

Section Lexing.
Import Stod.

Lemma ends_digits_stops is_d t : ends_digits is_d t -> stops is_d t.
Proof. destruct t; cbn; tauto. Qed.

Lemma ends_digits_no_point is_d t : ends_digits is_d t -> strip_char "." t = None.
Proof. destruct t as [|x t]; cbn; [reflexivity|]. now intros [_ ->]. Qed.

(** *** Digits *)

Lemma lex_digits_none is_d l :
  lex_digits is_d l = None <-> starts_with_digits is_d l = false.
Proof.
  unfold lex_digits. destruct l as [|x l]; cbn; [tauto|].
  destruct (is_d x) eqn:Hx; cbn.
  - destruct (span is_d l) as [ip l1].
    destruct (strip_char "." l1) as [l1'|]; [destruct (span is_d l1')|];
      split; discriminate.
  - destruct (Ascii.eqb x "."); cbn; [|tauto].
    destruct l as [|d l]; cbn; [tauto|].
    destruct (is_d d); cbn; [|tauto].
    destruct (span is_d l). split; discriminate.
Qed.

Lemma starts_with_digits_app is_d c r :
  starts_with_digits is_d c = true -> starts_with_digits is_d (c ++ r) = true.
Proof.
  destruct c as [|x [|d c]]; cbn; try discriminate; [|tauto].
  destruct (is_d x); cbn; [reflexivity|]. now rewrite andb_false_r.
Qed.

(** The digits that were read are read again, with the same result, when
    they are followed by something that cannot continue them. *)
Lemma lex_digits_consumed is_d l ip fp l2 :
  is_d "."%char = false ->
  lex_digits is_d l = Some (ip, fp, l2) ->
  exists c,
    l = c ++ l2 /\ c <> [] /\
    forall t, ends_digits is_d t -> lex_digits is_d (c ++ t) = Some (ip, fp, t).
Proof.
  intros Hpoint. unfold lex_digits.
  destruct (span is_d l) as [ip' l1] eqn:H1.
  apply span_spec in H1 as (-> & Hip & Hl1).
  destruct l1 as [|x l1]; cbn [strip_char].
  - destruct ip' as [|d ip']; intros [= <- <- <-].
    exists (d :: ip'). rewrite app_nil_r. repeat split; [discriminate|].
    intros t Ht. rewrite span_app_stop by auto using ends_digits_stops.
    now rewrite (ends_digits_no_point is_d) by exact Ht.
  - destruct (Ascii.eqb_spec x ".") as [->|Hx].
    + destruct (span is_d l1) as [fp' l2'] eqn:H2.
      apply span_spec in H2 as (-> & Hfp & Hl2).
      intros Hsome.
      assert (Hres : ip = ip' /\ fp = fp' /\ l2 = l2' /\ (ip', fp') <> ([], []))
        by (destruct ip', fp'; try discriminate; injection Hsome as <- <- <-;
            repeat split; discriminate).
      destruct Hres as (-> & -> & -> & Hne).
      exists (ip' ++ "."%char :: fp'). split; [now rewrite <- app_assoc|].
      split; [now destruct ip'|].
      intros t Ht. rewrite <- app_assoc. cbn [app].
      rewrite span_app_stop by (auto; exact Hpoint).
      cbn [strip_char Ascii.eqb Bool.eqb].
      rewrite span_app_stop by auto using ends_digits_stops.
      destruct ip', fp'; try reflexivity. now contradiction Hne.
    + destruct ip' as [|d ip']; intros [= <- <- <-].
      exists (d :: ip'). repeat split; [discriminate|].
      intros t Ht. rewrite span_app_stop by auto using ends_digits_stops.
      now rewrite (ends_digits_no_point is_d) by exact Ht.
Qed.

(** *** Signs and words *)

Lemma strip_sign_spec l neg l1 :
  strip_sign l = (neg, l1) ->
  (exists s, l = s :: l1 /\ (Ascii.eqb s "-" || Ascii.eqb s "+") = true
             /\ strip_sign (s :: l1) = (neg, l1)
             /\ forall t, strip_sign (s :: t) = (neg, t))
  \/ (l1 = l /\ neg = false
      /\ match l with
         | [] => True
         | x :: _ => Ascii.eqb x "-" = false /\ Ascii.eqb x "+" = false
         end).
Proof.
  unfold strip_sign. destruct l as [|x l].
  - intros [= <- <-]. right. auto.
  - destruct (Ascii.eqb x "-") eqn:Hm.
    + intros [= <- <-]. left. exists x. rewrite Hm. auto.
    + destruct (Ascii.eqb x "+") eqn:Hp; intros [= <- <-].
      * left. exists x. rewrite Hm, Hp. auto.
      * right. auto.
Qed.

Lemma strip_word_consumed w l r :
  strip_word w l = Some r ->
  exists c, l = c ++ r /\ length c = length w
            /\ forall t, strip_word w (c ++ t) = Some t.
Proof.
  revert l. induction w as [|x w IH]; intros l; cbn.
  - intros [= <-]. now exists [].
  - destruct l as [|y l]; [discriminate|].
    destruct (Ascii.eqb (Char.tolower y) x) eqn:Hy; [|discriminate].
    intros Hr. destruct (IH _ Hr) as (c & -> & Hlen & Hc).
    exists (y :: c). cbn. rewrite Hy, Hlen. auto.
Qed.

Lemma strip_word_app w c c0 r :
  strip_word w c = Some c0 -> strip_word w (c ++ r) = Some (c0 ++ r).
Proof.
  revert c. induction w as [|x w IH]; intros c; cbn.
  - now intros [= <-].
  - destruct c as [|y c]; [discriminate|]. cbn.
    destruct (Ascii.eqb (Char.tolower y) x); [apply IH | discriminate].
Qed.

Lemma strip_word_none w l :
  strip_word w l = None <-> starts_nocase w l = false.
Proof.
  revert l. induction w as [|x w IH]; intros l; cbn.
  - split; discriminate.
  - destruct l as [|y l]; [tauto|].
    destruct (Ascii.eqb (Char.tolower y) x); cbn; [apply IH | tauto].
Qed.

(** *** Exponents *)

Lemma lex_exponent_consumed letter l e rest :
  lex_exponent letter l = (e, rest) ->
  exists c,
    l = c ++ rest /\ lex_exponent letter c = (e, [])
    /\ match c with
       | [] => True
       | x :: _ => Ascii.eqb (Char.tolower x) letter = true
       end.
Proof.
  unfold lex_exponent.
  destruct l as [|x l1]; [intros [= <- <-]; now exists []|].
  destruct (Ascii.eqb (Char.tolower x) letter) eqn:Hx;
    [|intros [= <- <-]; now exists []].
  destruct (strip_sign l1) as [neg l2] eqn:Hsign.
  destruct (span Char.is_digit l2) as [ds rest'] eqn:Hds.
  apply span_spec in Hds as (-> & Hdigits & _).
  destruct ds as [|d ds]; [intros [= <- <-]; now exists []|].
  intros [= <- <-].
  apply strip_sign_spec in Hsign as [(s & -> & _ & _ & Hs)|(<- & -> & _)].
  - exists (x :: s :: d :: ds). split; [reflexivity|]. split; [|exact Hx].
    rewrite Hx, Hs, span_all by exact Hdigits. reflexivity.
  - exists (x :: d :: ds). split; [reflexivity|]. split; [|exact Hx].
    rewrite Hx.
    assert (Hsign : strip_sign (d :: ds) = (false, d :: ds)).
    { cbn in Hdigits. apply andb_prop in Hdigits as [Hd _].
      pose proof (digit_not_sign d) as Hn. rewrite Hd in Hn. cbn in Hn.
      apply andb_prop in Hn as [Hm Hp].
      unfold strip_sign.
      destruct (Ascii.eqb d "-"); [discriminate|].
      now destruct (Ascii.eqb d "+"). }
    rewrite Hsign, span_all by exact Hdigits. reflexivity.
Qed.

(** *** Numbers *)

Lemma exponent_head_ends is_d letter c :
  (forall x, implb (Ascii.eqb (Char.tolower x) letter)
                   (negb (is_d x) && negb (Ascii.eqb x ".")) = true) ->
  match c with
  | [] => True
  | x :: _ => Ascii.eqb (Char.tolower x) letter = true
  end ->
  ends_digits is_d c.
Proof.
  intros Hletter. destruct c as [|x c]; cbn; [auto|].
  intros Hx. specialize (Hletter x). rewrite Hx in Hletter. cbn in Hletter.
  apply andb_prop in Hletter as [Hd Hp].
  split; [now destruct (is_d x) | now destruct (Ascii.eqb x ".")].
Qed.

Lemma lex_decimal_consumed : consumes lex_decimal.
Proof.
  intros l n rest. unfold lex_decimal.
  destruct (lex_digits Char.is_digit l) as [[[ip fp] l1]|] eqn:Hd; [|discriminate].
  destruct (lex_exponent "e" l1) as [e rest'] eqn:He. intros [= <- <-].
  apply lex_digits_consumed in Hd as (cd & -> & Hcd & Hagain); [|reflexivity].
  apply lex_exponent_consumed in He as (ce & -> & Hce & Hhead).
  exists (cd ++ ce). split; [now rewrite app_assoc|].
  split; [now destruct cd|].
  rewrite Hagain, Hce; [reflexivity|].
  apply (exponent_head_ends _ "e"); [apply exponent_letter_stops | exact Hhead].
Qed.

Lemma lex_hex_consumed : consumes lex_hex.
Proof.
  intros l n rest. unfold lex_hex.
  destruct (strip_word (chars "0x") l) as [l0|] eqn:H0; [|discriminate].
  destruct (lex_digits Char.is_xdigit l0) as [[[ip fp] l1]|] eqn:Hd; [|discriminate].
  destruct (lex_exponent "p" l1) as [e rest'] eqn:He. intros [= <- <-].
  apply strip_word_consumed in H0 as (c0 & -> & Hlen & H0).
  apply lex_digits_consumed in Hd as (cd & -> & Hcd & Hagain); [|reflexivity].
  apply lex_exponent_consumed in He as (ce & -> & Hce & Hhead).
  exists (c0 ++ cd ++ ce). split; [now rewrite <- !app_assoc|].
  split; [destruct c0; [discriminate Hlen | discriminate]|].
  rewrite H0, Hagain, Hce; [reflexivity|].
  apply (exponent_head_ends _ "p"); [apply hex_exponent_letter_stops | exact Hhead].
Qed.

Lemma lex_infinity_consumed : consumes lex_infinity.
Proof.
  intros l n rest. unfold lex_infinity.
  destruct (strip_word (chars "inf") l) as [l1|] eqn:H1; [|discriminate].
  apply strip_word_consumed in H1 as (c1 & -> & Hlen1 & H1).
  destruct (strip_word (chars "inity") l1) as [l2|] eqn:H2; intros [= <- <-].
  - apply strip_word_consumed in H2 as (c2 & -> & _ & H2).
    exists (c1 ++ c2). split; [now rewrite app_assoc|].
    split; [destruct c1; [discriminate Hlen1 | discriminate]|].
    rewrite H1. specialize (H2 []). rewrite app_nil_r in H2. now rewrite H2.
  - exists c1. split; [reflexivity|].
    split; [destruct c1; [discriminate Hlen1 | discriminate]|].
    specialize (H1 []). rewrite app_nil_r in H1. now rewrite H1.
Qed.

Lemma lex_nan_consumed : consumes lex_nan.
Proof.
  intros l n rest. unfold lex_nan.
  destruct (strip_word (chars "nan") l) as [l1|] eqn:H1; [|discriminate].
  apply strip_word_consumed in H1 as (c1 & -> & Hlen1 & H1).
  assert (Hne : c1 <> []) by (destruct c1; [discriminate Hlen1 | discriminate]).
  assert (Hshort : lex_nan c1 = Some (NotANumber, [])).
  { unfold lex_nan. specialize (H1 []). rewrite app_nil_r in H1. now rewrite H1. }
  destruct l1 as [|x l2]; cbn [strip_char];
    [intros [= <- <-]; exists c1; now rewrite app_nil_r in *|].
  destruct (Ascii.eqb_spec x "(") as [->|_];
    [|intros [= <- <-]; now exists c1].
  destruct (span is_nchar l2) as [ns l3] eqn:Hns. cbn [snd].
  apply span_spec in Hns as (-> & Hns & _).
  destruct l3 as [|y l4]; cbn [strip_char];
    [intros [= <- <-]; now exists c1|].
  destruct (Ascii.eqb_spec y ")") as [->|_];
    [|intros [= <- <-]; now exists c1].
  intros [= <- <-].
  exists (c1 ++ "("%char :: ns ++ [")"%char]).
  split; [now repeat (rewrite <- app_assoc; cbn [app])|]. split; [now destruct c1|].
  unfold lex_nan. rewrite H1. cbn [strip_char Ascii.eqb Bool.eqb].
  rewrite span_app_stop by (auto; reflexivity). reflexivity.
Qed.

Lemma lex_digits_monotone is_d : monotone (lex_digits is_d).
Proof.
  intros c r Hc Hcr. apply lex_digits_none in Hcr.
  apply Hc, lex_digits_none.
  destruct (starts_with_digits is_d c) eqn:Hs; [|reflexivity].
  now rewrite (starts_with_digits_app _ _ r Hs) in Hcr.
Qed.

Lemma lex_decimal_none l :
  lex_decimal l = None <-> starts_with_digits Char.is_digit l = false.
Proof.
  rewrite <- lex_digits_none. unfold lex_decimal.
  destruct (lex_digits Char.is_digit l) as [[[ip fp] l1]|]; [|tauto].
  destruct (lex_exponent "e" l1). split; discriminate.
Qed.

Lemma lex_decimal_monotone : monotone lex_decimal.
Proof.
  intros c r Hc Hcr. apply lex_decimal_none in Hcr.
  apply Hc, lex_decimal_none.
  destruct (starts_with_digits Char.is_digit c) eqn:Hs; [|reflexivity].
  now rewrite (starts_with_digits_app _ _ r Hs) in Hcr.
Qed.

Lemma lex_hex_monotone : monotone lex_hex.
Proof.
  intros c r. unfold lex_hex.
  destruct (strip_word (chars "0x") c) as [c0|] eqn:H0; [|congruence].
  rewrite (strip_word_app _ _ _ r H0).
  pose proof (lex_digits_monotone Char.is_xdigit c0 r) as Hm.
  destruct (lex_digits Char.is_xdigit c0) as [[[ip fp] l1]|]; [|congruence].
  destruct (lex_digits Char.is_xdigit (c0 ++ r)) as [[[ip' fp'] l1']|];
    [|intros _; exfalso; now apply Hm].
  destruct (lex_exponent "p" l1'). discriminate.
Qed.

Lemma lex_infinity_monotone : monotone lex_infinity.
Proof.
  intros c r. unfold lex_infinity.
  destruct (strip_word (chars "inf") c) as [c1|] eqn:H1; [|congruence].
  rewrite (strip_word_app _ _ _ r H1).
  destruct (strip_word (chars "inity") (c1 ++ r)); discriminate.
Qed.

(** A hexadecimal number starts with the digit 0. *)
Lemma lex_hex_starts_with_digit l :
  lex_hex l <> None -> starts_with_digits Char.is_digit l = true.
Proof.
  unfold lex_hex. destruct l as [|x l]; [now cbn|].
  cbn [strip_word chars list_ascii_of_string].
  destruct (Ascii.eqb (Char.tolower x) "0") eqn:Hx; [|congruence].
  intros _. pose proof (zero_is_digit x) as Hz. rewrite Hx in Hz. cbn in Hz.
  cbn. now rewrite Hz.
Qed.

Lemma lex_number_none l :
  lex_number l = None <-> starts_number l = false.
Proof.
  unfold lex_number, starts_number.
  pose proof (lex_hex_starts_with_digit l) as Hhex.
  pose proof (lex_decimal_none l) as Hdec.
  pose proof (strip_word_none (chars "inf") l) as Hinf.
  pose proof (strip_word_none (chars "nan") l) as Hnan.
  destruct (lex_hex l) as [r|].
  - rewrite Hhex by discriminate. cbn [orb]. split; discriminate.
  - destruct (lex_decimal l) as [r|].
    + destruct (starts_with_digits Char.is_digit l);
        [cbn [orb]; split; discriminate | discriminate (proj2 Hdec eq_refl)].
    + rewrite (proj1 Hdec eq_refl). cbn [orb].
      unfold lex_infinity, lex_nan.
      destruct (strip_word (chars "inf") l) as [l1|].
      * destruct (starts_nocase (chars "inf") l);
          [|discriminate (proj2 Hinf eq_refl)].
        cbn [orb]. destruct (strip_word (chars "inity") l1); split; discriminate.
      * rewrite (proj1 Hinf eq_refl). cbn [orb].
        destruct (strip_word (chars "nan") l) as [l1|].
        -- destruct (starts_nocase (chars "nan") l);
             [|discriminate (proj2 Hnan eq_refl)].
           destruct (strip_char "(" l1) as [l2|]; [|split; discriminate].
           destruct (strip_char ")" _); split; discriminate.
        -- now rewrite (proj1 Hnan eq_refl).
Qed.

Lemma monotone_none {A} (c r : list ascii) (f : list ascii -> option A) :
  monotone f -> f (c ++ r) = None -> f c = None.
Proof.
  intros Hm Hcr. destruct (f c) eqn:Hc; [|reflexivity].
  exfalso. apply (Hm c r); congruence.
Qed.

Lemma lex_number_consumed : consumes lex_number.
Proof.
  intros l n rest. unfold lex_number.
  destruct (lex_hex l) as [r|] eqn:Hhex.
  - intros [= ->]. apply lex_hex_consumed in Hhex as (c & -> & Hne & Hc).
    exists c. now rewrite Hc.
  - destruct (lex_decimal l) as [r|] eqn:Hdec.
    + intros [= ->]. apply lex_decimal_consumed in Hdec as (c & -> & Hne & Hc).
      exists c. rewrite Hc.
      now rewrite (monotone_none c rest _ lex_hex_monotone Hhex).
    + destruct (lex_infinity l) as [r|] eqn:Hinf.
      * intros [= ->]. apply lex_infinity_consumed in Hinf as (c & -> & Hne & Hc).
        exists c. rewrite Hc.
        rewrite (monotone_none c rest _ lex_hex_monotone Hhex).
        now rewrite (monotone_none c rest _ lex_decimal_monotone Hdec).
      * intros Hnan. apply lex_nan_consumed in Hnan as (c & -> & Hne & Hc).
        exists c. rewrite Hc.
        rewrite (monotone_none c rest _ lex_hex_monotone Hhex).
        rewrite (monotone_none c rest _ lex_decimal_monotone Hdec).
        now rewrite (monotone_none c rest _ lex_infinity_monotone Hinf).
Qed.

(** *** Lines *)

Lemma lex_none l : lex l = None <-> starts_number (after_sign l) = false.
Proof.
  unfold lex, after_sign. rewrite <- lex_number_none.
  destruct (strip_sign _) as [neg l1]. cbn [snd].
  destruct (lex_number l1) as [[n rest]|]; split; congruence.
Qed.

(** The number read from a line is the number read from the characters
    that were consumed, alone. *)
Lemma lex_consumed l neg n rest :
  lex l = Some (neg, n, rest) ->
  exists c, l = c ++ rest /\ lex c = Some (neg, n, []).
Proof.
  unfold lex.
  destruct (span Char.is_space l) as [ws l0] eqn:Hws. cbn [snd].
  apply span_spec in Hws as (-> & Hws & Hl0).
  destruct (strip_sign l0) as [neg' l1] eqn:Hsign.
  destruct (lex_number l1) as [[n' rest']|] eqn:Hnum; [|discriminate].
  intros [= -> -> ->].
  apply lex_number_consumed in Hnum as (c & -> & Hne & Hc).
  apply strip_sign_spec in Hsign as [(s & -> & Hs & _ & Hstrip)|(<- & -> & Hhead)].
  - exists (ws ++ s :: c). split; [now rewrite <- app_assoc|].
    rewrite span_app_stop by (auto; exact Hl0). cbn [snd].
    now rewrite Hstrip, Hc.
  - exists (ws ++ c). split; [now rewrite <- app_assoc|].
    destruct c as [|x c]; [contradiction|].
    rewrite span_app_stop by (auto; exact Hl0). cbn [snd].
    assert (Hstrip : strip_sign (x :: c) = (false, x :: c)).
    { cbn in Hhead. destruct Hhead as [Hm Hp]. unfold strip_sign. now rewrite Hm, Hp. }
    now rewrite Hstrip, Hc.
Qed.

(** *** The longest numeral *)

Lemma span_shorter p l : (length (snd (span p l)) <= length l)%nat.
Proof.
  destruct (span p l) as [a b] eqn:Hs. apply span_spec in Hs as (-> & _ & _).
  cbn. rewrite length_app. lia.
Qed.

Lemma span_app_all p a r :
  forallb p a = true -> span p (a ++ r) = (a ++ fst (span p r), snd (span p r)).
Proof.
  intros Ha. induction a as [|c a IH]; cbn in *; [now destruct (span p r)|].
  apply andb_prop in Ha as [Hc Ha]. now rewrite Hc, IH.
Qed.

Lemma x_is_no_digit (c : ascii) :
  implb (Ascii.eqb (Char.tolower c) "x")
        (negb (Char.is_digit c) && negb (Ascii.eqb c ".")
         && negb (Ascii.eqb (Char.tolower c) "e")) = true.
Proof. revert c. apply forall_ascii. by_enumeration. Qed.

Lemma letter_is_no_digit (c : ascii) :
  implb (Ascii.eqb (Char.tolower c) "i" || Ascii.eqb (Char.tolower c) "n")
        (negb (Char.is_digit c) && negb (Ascii.eqb c ".")) = true.
Proof. revert c. apply forall_ascii. by_enumeration. Qed.

Lemma strip_sign_app l r :
  l <> [] -> strip_sign (l ++ r) = (fst (strip_sign l), snd (strip_sign l) ++ r).
Proof.
  destruct l as [|x l]; [congruence|]. intros _. cbn.
  destruct (Ascii.eqb x "-"); [reflexivity|].
  now destruct (Ascii.eqb x "+").
Qed.

Lemma strip_sign_shorter l : (length (snd (strip_sign l)) <= length l)%nat.
Proof.
  destruct l as [|x l]; cbn; [lia|].
  destruct (Ascii.eqb x "-"); cbn; [lia|].
  destruct (Ascii.eqb x "+"); cbn; lia.
Qed.

Lemma lex_digits_greedy is_d c r ip fp :
  is_d "."%char = false ->
  lex_digits is_d c = Some (ip, fp, []) ->
  exists ip' fp' rest,
    lex_digits is_d (c ++ r) = Some (ip', fp', rest) /\ (length rest <= length r)%nat.
Proof.
  intros Hpoint. unfold lex_digits.
  destruct (span is_d c) as [ip0 l1] eqn:H1.
  apply span_spec in H1 as (-> & Hip & Hl1).
  destruct l1 as [|x l1]; cbn [strip_char].
  - rewrite app_nil_r. intros Hsome.
    assert (Hne : ip0 <> []) by (destruct ip0; [discriminate | discriminate]).
    rewrite (span_app_all _ _ r Hip).
    pose proof (span_shorter is_d r) as Hr.
    destruct (span is_d r) as [a b]. cbn [fst snd] in *.
    destruct (strip_char "." b) as [b'|] eqn:Hb.
    + pose proof (span_shorter is_d b') as Hb'.
      destruct (span is_d b') as [fp' l2]. cbn [snd] in Hb'.
      destruct b as [|y b]; [discriminate|]. cbn in Hb.
      destruct (Ascii.eqb y "."); [|discriminate]. injection Hb as ->.
      exists (ip0 ++ a), fp', l2. split; [|cbn in Hr; lia].
      destruct ip0; [congruence | reflexivity].
    + exists (ip0 ++ a), [], b. split; [|exact Hr].
      destruct ip0; [congruence | reflexivity].
  - destruct (Ascii.eqb_spec x ".") as [->|Hx].
    + destruct (span is_d l1) as [fp0 l2] eqn:H2.
      apply span_spec in H2 as (-> & Hfp & _).
      intros Hsome.
      assert (Hres : l2 = [] /\ (ip0, fp0) <> ([], []))
        by (destruct ip0, fp0; try discriminate; injection Hsome as _ _ ->;
            (split; [reflexivity | discriminate])).
      destruct Hres as [-> Hne]. rewrite app_nil_r.
      rewrite <- app_assoc. cbn [app].
      rewrite span_app_stop by (auto; exact Hpoint).
      cbn [strip_char Ascii.eqb Bool.eqb].
      rewrite (span_app_all _ _ r Hfp).
      pose proof (span_shorter is_d r) as Hr.
      destruct (span is_d r) as [a b]. cbn [fst snd] in *.
      exists ip0, (fp0 ++ a), b. split; [|exact Hr].
      destruct ip0, fp0; try reflexivity. now contradiction Hne.
    + destruct ip0; discriminate.
Qed.

Lemma lex_exponent_shorter letter l :
  (length (snd (lex_exponent letter l)) <= length l)%nat.
Proof.
  destruct (lex_exponent letter l) as [e rest] eqn:He.
  apply lex_exponent_consumed in He as (c & -> & _). cbn. rewrite length_app. lia.
Qed.

Lemma lex_exponent_greedy letter c r e :
  lex_exponent letter c = (e, []) ->
  (length (snd (lex_exponent letter (c ++ r))) <= length r)%nat.
Proof.
  destruct c as [|x l1]; [intros _; apply lex_exponent_shorter|].
  unfold lex_exponent. cbn [app].
  destruct (Ascii.eqb (Char.tolower x) letter); [|discriminate].
  destruct (strip_sign l1) as [neg l2] eqn:Hsign.
  destruct (span Char.is_digit l2) as [ds rest0] eqn:Hds.
  apply span_spec in Hds as (-> & Hdigits & _).
  destruct ds as [|d ds]; [discriminate|]. intros [= _ ->].
  rewrite app_nil_r in Hsign.
  assert (Hl1 : l1 <> []) by (intros ->; discriminate).
  rewrite (strip_sign_app _ r Hl1), Hsign. cbn [fst snd].
  rewrite (span_app_all _ _ r Hdigits).
  pose proof (span_shorter Char.is_digit r) as Hr.
  destruct (span Char.is_digit r) as [a b]. cbn [fst snd app] in *. exact Hr.
Qed.

Lemma lex_decimal_greedy : greedy lex_decimal.
Proof.
  intros c r n. unfold lex_decimal.
  destruct (lex_digits Char.is_digit c) as [[[ip fp] l1]|] eqn:Hd; [|discriminate].
  destruct (lex_exponent "e" l1) as [e rest'] eqn:He. intros [= <- ->].
  destruct l1 as [|x l1].
  - destruct (lex_digits_greedy _ c r ip fp eq_refl Hd) as (ip' & fp' & rest1 & -> & Hlen).
    pose proof (lex_exponent_shorter "e" rest1) as Hshort.
    destruct (lex_exponent "e" rest1) as [e' rest2]. cbn [snd] in Hshort.
    eexists _, rest2. split; [reflexivity | lia].
  - apply lex_digits_consumed in Hd as (cd & -> & _ & Hagain); [|reflexivity].
    assert (Hx : Ascii.eqb (Char.tolower x) "e" = true).
    { unfold lex_exponent in He.
      destruct (Ascii.eqb (Char.tolower x) "e"); [reflexivity | discriminate]. }
    rewrite <- app_assoc, Hagain
      by (apply (exponent_head_ends _ "e"); [apply exponent_letter_stops | exact Hx]).
    pose proof (lex_exponent_greedy "e" (x :: l1) r e He) as Hlen.
    destruct (lex_exponent "e" ((x :: l1) ++ r)) as [e' rest2]. cbn [snd] in Hlen.
    eexists _, rest2. split; [reflexivity | exact Hlen].
Qed.

Lemma lex_hex_greedy : greedy lex_hex.
Proof.
  intros c r n. unfold lex_hex.
  destruct (strip_word (chars "0x") c) as [c0|] eqn:H0; [|discriminate].
  rewrite (strip_word_app _ _ _ r H0).
  destruct (lex_digits Char.is_xdigit c0) as [[[ip fp] l1]|] eqn:Hd; [|discriminate].
  destruct (lex_exponent "p" l1) as [e rest'] eqn:He. intros [= <- ->].
  destruct l1 as [|x l1].
  - destruct (lex_digits_greedy _ c0 r ip fp eq_refl Hd) as (ip' & fp' & rest1 & -> & Hlen).
    pose proof (lex_exponent_shorter "p" rest1) as Hshort.
    destruct (lex_exponent "p" rest1) as [e' rest2]. cbn [snd] in Hshort.
    eexists _, rest2. split; [reflexivity | lia].
  - apply lex_digits_consumed in Hd as (cd & -> & _ & Hagain); [|reflexivity].
    assert (Hx : Ascii.eqb (Char.tolower x) "p" = true).
    { unfold lex_exponent in He.
      destruct (Ascii.eqb (Char.tolower x) "p"); [reflexivity | discriminate]. }
    rewrite <- app_assoc, Hagain
      by (apply (exponent_head_ends _ "p"); [apply hex_exponent_letter_stops | exact Hx]).
    pose proof (lex_exponent_greedy "p" (x :: l1) r e He) as Hlen.
    destruct (lex_exponent "p" ((x :: l1) ++ r)) as [e' rest2]. cbn [snd] in Hlen.
    eexists _, rest2. split; [reflexivity | exact Hlen].
Qed.

Lemma strip_word_shorter w l r : strip_word w l = Some r -> (length r <= length l)%nat.
Proof.
  intros Hr. apply strip_word_consumed in Hr as (c & -> & _). rewrite length_app. lia.
Qed.

Lemma lex_infinity_greedy : greedy lex_infinity.
Proof.
  intros c r n. unfold lex_infinity.
  destruct (strip_word (chars "inf") c) as [l1|] eqn:H1; [|discriminate].
  rewrite (strip_word_app _ _ _ r H1).
  destruct (strip_word (chars "inity") l1) as [l2|] eqn:H2; intros [= <- ->].
  - rewrite (strip_word_app _ _ _ r H2). eexists _, r. split; [reflexivity | cbn; lia].
  - cbn [app]. destruct (strip_word (chars "inity") r) as [l2|] eqn:H3.
    + eexists _, l2. split; [reflexivity | now apply strip_word_shorter in H3].
    + eexists _, r. split; [reflexivity | lia].
Qed.

Lemma lex_nan_greedy : greedy lex_nan.
Proof.
  intros c r n. unfold lex_nan.
  destruct (strip_word (chars "nan") c) as [l1|] eqn:H1; [|discriminate].
  rewrite (strip_word_app _ _ _ r H1).
  destruct l1 as [|x l2]; cbn [app strip_char].
  - intros _. destruct r as [|y r]; cbn [strip_char];
      [eexists _, []; split; [reflexivity | cbn; lia]|].
    destruct (Ascii.eqb y "("); [|eexists _, (y :: r); split; [reflexivity | lia]].
    pose proof (span_shorter is_nchar r) as Hr.
    destruct (snd (span is_nchar r)) as [|z l4]; cbn [strip_char];
      [eexists _, (y :: r); split; [reflexivity | lia]|].
    destruct (Ascii.eqb z ")").
    + eexists _, l4. split; [reflexivity | cbn in *; lia].
    + eexists _, (y :: r). split; [reflexivity | lia].
  - destruct (Ascii.eqb x "("); [|discriminate].
    destruct (span is_nchar l2) as [ns l3] eqn:Hns. cbn [snd].
    apply span_spec in Hns as (-> & Hns & _).
    destruct l3 as [|z l4]; cbn [strip_char]; [discriminate|].
    destruct (Ascii.eqb_spec z ")") as [->|_]; [|discriminate].
    intros [= <- ->]. rewrite <- app_assoc. cbn [app].
    rewrite span_app_stop by (auto; reflexivity).
    cbn [snd strip_char Ascii.eqb Bool.eqb].
    eexists _, r. split; [reflexivity | lia].
Qed.

(** A decimal number that is read to its end and starts a hexadecimal
    number is the one digit 0. *)
Lemma decimal_before_hex c r n :
  lex_decimal c = Some (n, []) ->
  strip_word (chars "0x") (c ++ r) <> None ->
  (length c <= 1)%nat.
Proof.
  destruct c as [|z [|x c]]; cbn [length]; try lia.
  intros Hdec Hhex. exfalso.
  cbn [app strip_word chars list_ascii_of_string] in Hhex.
  pose proof (zero_is_digit z) as Hz. pose proof (x_is_no_digit x) as Hx.
  destruct (Ascii.eqb (Char.tolower z) "0"); [|congruence].
  destruct (Ascii.eqb (Char.tolower x) "x") eqn:Ex; [|congruence].
  cbn in Hz, Hx. apply andb_prop in Hx as [Hx He]. apply andb_prop in Hx as [Hd Hp].
  unfold lex_decimal, lex_digits in Hdec. cbn [span] in Hdec.
  rewrite Hz in Hdec. cbn [span] in Hdec.
  destruct (Char.is_digit x); [discriminate|].
  cbn [strip_char] in Hdec.
  destruct (Ascii.eqb x "."); [discriminate|].
  unfold lex_exponent in Hdec.
  destruct (Ascii.eqb (Char.tolower x) "e"); [discriminate|].
  discriminate.
Qed.

Lemma first_letter_no_number x l :
  (Ascii.eqb (Char.tolower x) "i" || Ascii.eqb (Char.tolower x) "n") = true ->
  lex_hex (x :: l) = None /\ lex_decimal (x :: l) = None.
Proof.
  intros Hx. pose proof (letter_is_no_digit x) as Hn. rewrite Hx in Hn. cbn in Hn.
  apply andb_prop in Hn as [Hd Hp].
  assert (Hs : starts_with_digits Char.is_digit (x :: l) = false).
  { cbn. destruct (Char.is_digit x); [discriminate|]. now destruct (Ascii.eqb x "."). }
  split.
  - destruct (lex_hex (x :: l)) eqn:Hh; [|reflexivity].
    rewrite lex_hex_starts_with_digit in Hs; [discriminate | congruence].
  - now apply lex_decimal_none.
Qed.

Lemma lex_number_greedy : greedy lex_number.
Proof.
  intros c r n. unfold lex_number.
  destruct (lex_hex c) as [[n0 rest0]|] eqn:Hhex.
  - intros [= -> ->].
    destruct (lex_hex_greedy c r n Hhex) as (n' & rest & -> & Hlen). eauto.
  - destruct (lex_decimal c) as [[n0 rest0]|] eqn:Hdec.
    + intros [= -> ->].
      destruct (lex_hex (c ++ r)) as [[n' rest]|] eqn:Hhex'.
      * exists n', rest. split; [reflexivity|].
        assert (Hc : (length c <= 1)%nat).
        { apply (decimal_before_hex c r n Hdec). unfold lex_hex in Hhex'.
          destruct (strip_word (chars "0x") (c ++ r)); [discriminate | discriminate]. }
        apply lex_hex_consumed in Hhex' as (ch & Hch & Hne & _).
        apply (f_equal (@length _)) in Hch. rewrite !length_app in Hch.
        destruct ch; [congruence|]. cbn in Hch. lia.
      * destruct (lex_decimal_greedy c r n Hdec) as (n' & rest & -> & Hlen). eauto.
    + destruct (lex_infinity c) as [[n0 rest0]|] eqn:Hinf.
      * intros [= -> ->].
        assert (Hc : exists x c', c = x :: c' /\ Ascii.eqb (Char.tolower x) "i" = true).
        { unfold lex_infinity in Hinf. destruct c as [|x c']; [discriminate|].
          cbn [strip_word chars list_ascii_of_string] in Hinf.
          destruct (Ascii.eqb (Char.tolower x) "i") eqn:E; [eauto | discriminate]. }
        destruct Hc as (x & c' & -> & Hx). cbn [app].
        destruct (first_letter_no_number x (c' ++ r)) as [-> ->]; [now rewrite Hx|].
        destruct (lex_infinity_greedy (x :: c') r n Hinf) as (n' & rest & Hrun & Hlen).
        cbn [app] in Hrun. rewrite Hrun. eauto.
      * intros Hnan.
        assert (Hc : exists x c', c = x :: c' /\ Ascii.eqb (Char.tolower x) "n" = true).
        { unfold lex_nan in Hnan. destruct c as [|x c']; [discriminate|].
          cbn [strip_word chars list_ascii_of_string] in Hnan.
          destruct (Ascii.eqb (Char.tolower x) "n") eqn:E; [eauto | discriminate]. }
        destruct Hc as (x & c' & -> & Hx). cbn [app].
        destruct (first_letter_no_number x (c' ++ r)) as [-> ->];
          [rewrite Hx; apply orb_true_r|].
        assert (Hinf' : lex_infinity (x :: c' ++ r) = None).
        { unfold lex_infinity. cbn [strip_word chars list_ascii_of_string].
          apply Ascii.eqb_eq in Hx. now rewrite Hx. }
        rewrite Hinf'.
        destruct (lex_nan_greedy (x :: c') r n Hnan) as (n' & rest & Hrun & Hlen).
        cbn [app] in Hrun. rewrite Hrun. eauto.
Qed.

(** After white space and a sign, a text that is read to its end is read
    at least as far in every longer text. *)
Lemma lex_greedy c r neg n :
  lex c = Some (neg, n, []) ->
  exists neg' n' rest,
    lex (c ++ r) = Some (neg', n', rest) /\ (length rest <= length r)%nat.
Proof.
  unfold lex.
  destruct (span Char.is_space c) as [ws l0] eqn:Hws. cbn [snd].
  apply span_spec in Hws as (-> & Hws & Hl0).
  destruct (strip_sign l0) as [neg0 l1] eqn:Hsign.
  destruct (lex_number l1) as [[n0 rest0]|] eqn:Hnum; [|discriminate].
  intros [= -> -> ->].
  assert (Hl1 : l1 <> []).
  { apply lex_number_consumed in Hnum as (c & Hc & Hne & _).
    rewrite app_nil_r in Hc. congruence. }
  assert (Hl0' : l0 <> []).
  { intros ->. cbn in Hsign. injection Hsign as _ <-. congruence. }
  rewrite <- app_assoc.
  assert (Hstop : stops Char.is_space (l0 ++ r))
    by (destruct l0; [congruence | exact Hl0]).
  rewrite span_app_stop by assumption.
  cbn [snd]. rewrite (strip_sign_app _ r Hl0'), Hsign. cbn [fst snd].
  destruct (lex_number_greedy l1 r n Hnum) as (n' & rest & -> & Hlen). eauto.
Qed.

End Lexing.

(** *** std::stod and the reading loop *)

Section ReadSamples.
Context `{Platform}.
Import Stod SignalProcessor.

Lemma read_samples_flat_map lines : read_samples lines = flat_map kept lines.
Proof.
  induction lines as [|line lines IH]; cbn; [reflexivity|].
  unfold kept at 1. destruct (stod line); cbn; now rewrite IH.
Qed.

Lemma stod_invalid line :
  stod line = invalid_argument <-> numeric_prefix line = false.
Proof.
  unfold stod, numeric_prefix. rewrite <- lex_none.
  destruct (lex (c_str line)) as [[[neg n] rest]|]; [|tauto].
  destruct (range_error n); split; discriminate.
Qed.

Lemma c_str_prefix line c rest : c_str line = c ++ rest -> c_str (text c) = c.
Proof.
  unfold c_str. intros Hc.
  destruct (span _ (chars line)) as [a b] eqn:Hs. cbn [fst] in Hc. subst a.
  apply span_spec in Hs as (_ & Hall & _).
  rewrite forallb_app in Hall. apply andb_prop in Hall as [Hall _].
  unfold text, chars. rewrite list_ascii_of_string_of_list_ascii.
  now rewrite span_all.
Qed.

(** The sample of a line is the value of the longest of its prefixes that
    are read to their end. *)
Lemma stod_longest_prefix line v :
  stod line = Value v ->
  exists prefix rest,
    c_str line = prefix ++ rest
    /\ reads_all prefix
    /\ (forall p r, c_str line = p ++ r -> reads_all p ->
                    (length p <= length prefix)%nat)
    /\ stod (text prefix) = Value v.
Proof.
  unfold stod.
  destruct (lex (c_str line)) as [[[neg n] rest]|] eqn:Hlex; [|discriminate].
  intros Hv. pose proof Hlex as Hline.
  apply lex_consumed in Hline as (c & Hline & Hc).
  exists c, rest. split; [exact Hline|]. split; [now exists neg, n|].
  split; [|now rewrite (c_str_prefix _ _ _ Hline), Hc].
  intros p r Hsplit (neg' & n' & Hp).
  destruct (lex_greedy p r neg' n' Hp) as (neg2 & n2 & rest2 & Hrun & Hlen).
  rewrite <- Hsplit, Hlex in Hrun. injection Hrun as _ _ <-.
  apply (f_equal (@length _)) in Hsplit. rewrite Hline, !length_app in Hsplit. lia.
Qed.

(** The values agree with the literals of the same spelling, which are
    rounded to the nearest double. *)
Example stod_values :
  map stod ["0.1"; "3.14159"; "1e23"; "9007199254740993"; " -2.5e-3x"; "0x1.8p3";
            "1.7976931348623157e308"; "-inf"; ".5"]%string
  = map Value [0.1; 3.14159; 1e23; 9007199254740993; -2.5e-3; 12;
               1.7976931348623157e308; neg_infinity; 0.5]%float.
Proof.
  unfold stod, range_error, underflows, is_tiny.
  destruct erange_on_underflow, tiny_after_rounding; reflexivity.
Qed.

(** On every platform a number too large for a double is a range error. *)
Lemma stod_overflow : stod "1e999" = out_of_range.
Proof. reflexivity. Qed.

(** C10 (amended): the reading loop keeps, in order, the value of every
    line that [std::stod] converts and drops the others.  A line is refused
    as not numeric exactly when, after white space and an optional sign, it
    does not start the way a number does.  The value of a line that is kept
    is the value of its numeric prefix, whatever follows it: of the longest
    of the prefixes of the line that are, on their own, white space, an
    optional sign and a number and nothing else; so that [1.5,2.0] gives
    1.5 and [2.0abc] gives 2.0.  A line is dropped exactly when it has no
    numeric prefix or when the value of its prefix is out of the range of a
    double. *)
Theorem read_samples_keeps_numeric_prefixes lines :
  read_samples lines = flat_map kept lines
  /\ (forall line,
         (stod line = invalid_argument <-> numeric_prefix line = false)
         /\ (forall v, stod line = Value v ->
                       exists prefix rest,
                         c_str line = prefix ++ rest
                         /\ reads_all prefix
                         /\ (forall p r, c_str line = p ++ r -> reads_all p ->
                                         (length p <= length prefix)%nat)
                         /\ stod (text prefix) = Value v)
         /\ (kept line = [] <->
             numeric_prefix line = false \/ stod line = out_of_range))
  /\ read_samples ["1.5,2.0"; "2.0abc"; "abc"; "7"]%string = [1.5; 2; 7]%float.
Proof.
  split; [apply read_samples_flat_map|]. split.
  - intros line. split; [apply stod_invalid|]. split; [apply stod_longest_prefix|].
    rewrite <- stod_invalid. unfold kept.
    destruct (stod line); split; try discriminate; auto.
    intros [|]; discriminate.
  - unfold read_samples, stod, range_error, underflows, is_tiny.
    destruct erange_on_underflow, tiny_after_rounding; reflexivity.
Qed.

End ReadSamples.

Lemma read_samples_keeps_numeric_prefixes_witness :
  exists prefix rest,
    Stod.c_str "1.5,2.0" = prefix ++ rest
    /\ (length (chars "1.5") <= length prefix)%nat
    /\ @Stod.stod example_platform (text prefix) = Stod.Value 1.5.
Proof.
  destruct (@read_samples_keeps_numeric_prefixes example_platform ["1.5,2.0"%string])
    as (_ & Hline & _).
  destruct (Hline "1.5,2.0"%string) as (_ & Hvalue & _).
  destruct (Hvalue 1.5%float eq_refl) as (prefix & rest & Hsplit & _ & Hlongest & Hv).
  exists prefix, rest. split; [exact Hsplit|]. split; [|exact Hv].
  apply (Hlongest (chars "1.5") (chars ",2.0")); [reflexivity|].
  exists false, (Stod.Decimal 15 (-1)). reflexivity.
Defined.

(** C10 (as stated) fails: the line [1e999] starts with a valid number and
    is dropped all the same, because [std::stod] throws [out_of_range] and
    the loop catches every exception. *)
Lemma read_samples_drops_out_of_range :
  numeric_prefix "1e999" = true
  /\ @Stod.stod example_platform "1e999" = Stod.out_of_range
  /\ @SignalProcessor.read_samples example_platform ["5"; "1e999"; "6"]%string = [5; 6]%float.
Proof. repeat split; vm_compute; reflexivity. Qed.

(** * Further properties *)

Section MovingAverageMore.
Import SignalProcessor.

Lemma map_seq_const {A} (f : nat -> A) (a : A) (l : list float) (k : nat) :
  (forall i, (k <= i < k + length l)%nat -> f i = a) ->
  map f (seq k (length l)) = map (fun _ => a) l.
Proof.
  revert k. induction l as [|y l IH]; intros k Hf; cbn in *; [reflexivity|].
  rewrite Hf by lia. f_equal. apply IH. intros i Hi. apply Hf. lia.
Qed.

Lemma quot_2_negative z : z <= -2 -> Z.quot z 2 <= -1.
Proof.
  intros Hz.
  rewrite <- (Z.opp_involutive z), Z.quot_opp_l by lia.
  assert (1 <= Z.quot (- z) 2); [|lia].
  apply Z.quot_le_lower_bound; lia.
Qed.

Lemma average_at_crossed (window_size : Z) (signal : list float) (i : nat) :
  Int.min <= window_size <= -2 -> (i < length signal)%nat ->
  size signal <= 2 ^ 30 ->
  average_at window_size signal (Z.of_nat i) = Ok nan.
Proof.
  intros Hw Hi Hn. unfold size in Hn.
  assert (Hh : - 2 ^ 30 <= Z.quot window_size 2 <= -1).
  { unfold Int.min in Hw. split.
    - apply Z.quot_le_lower_bound; lia.
    - apply quot_2_negative; lia. }
  unfold average_at, window_bounds, size.
  rewrite int_of_size_small by lia.
  unfold Int.sub, Int.add.
  rewrite int_checked_ok by (unfold Int.min, Int.max; lia). cbn [bind].
  rewrite int_checked_ok by (unfold Int.min, Int.max; lia). cbn [bind].
  unfold Size.sub, Size.modulus.
  rewrite (Z.mod_small (Z.of_nat (length signal) - 1)) by lia.
  rewrite int_of_size_small by lia.
  replace (Z.to_nat _) with 0%nat by lia.
  reflexivity.
Qed.

(** X2: with a window size of -2 or less the half-window is negative, the
    bounds of every window cross, no sample is added and every value of the
    result is 0.0 / 0, a NaN: the result is as long as the signal and holds
    nothing else. *)
Theorem movingAverage_crossed_window (this : t) (signal : list float) :
  Int.min <= window_size this <= -2 ->
  size signal <= 2 ^ 30 ->
  movingAverage this signal = Ok (map (fun _ => nan) signal).
Proof.
  intros Hw Hn. unfold movingAverage.
  rewrite (mapM_ok _ (fun _ => nan)).
  - f_equal. rewrite map_map. now apply map_seq_const.
  - intros z Hz. apply in_map_iff in Hz as [i [<- Hi]]. apply in_seq in Hi.
    apply average_at_crossed; [exact Hw | lia | exact Hn].
Qed.

Lemma slice_all (v : list float) (lo hi : Z) :
  lo <= 0 -> size v - 1 <= hi -> slice (Z.max 0 lo) (Z.min (size v - 1) hi) v = v.
Proof.
  intros Hlo Hhi. unfold slice, size in *.
  replace (Z.max 0 lo) with 0 by lia.
  replace (Z.min (Z.of_nat (length v) - 1) hi) with (Z.of_nat (length v) - 1) by lia.
  cbn [Z.to_nat skipn].
  replace (Z.to_nat _) with (length v) by lia.
  apply firstn_all.
Qed.

(** X3: when the half-window reaches from either end of a signal to the
    other, every window is the whole signal and every value of the result
    is the mean of all samples. *)
Theorem movingAverage_wide_window (this : t) (signal : list float) :
  signal <> [] ->
  size signal - 1 <= Z.quot (window_size this) 2 ->
  window_size this <= Int.max ->
  size signal <= 2 ^ 30 ->
  movingAverage this signal = Ok (map (fun _ => mean signal) signal).
Proof.
  intros Hne Hh Hw Hn.
  assert (Hlen : (0 < length signal)%nat) by (destruct signal; [congruence | cbn; lia]).
  assert (Hpos : -1 <= window_size this).
  { destruct (Z_lt_le_dec (window_size this) (-1)) as [Hlt|]; [|lia].
    pose proof (quot_2_negative (window_size this)).
    unfold size in Hh. lia. }
  rewrite movingAverage_values by lia.
  f_equal. rewrite map_map.
  apply map_seq_const.
  intros i Hi. unfold window_mean. cbv zeta.
  rewrite slice_all; [reflexivity| |]; unfold size in *; lia.
Qed.

End MovingAverageMore.

Section FindPeaksMore.
Import SignalProcessor.

Lemma compare_cont_lt_gt (p q : positive) :
  Pos.compare_cont Eq p q = Lt -> Pos.compare_cont Eq q p = Gt.
Proof.
  intros Hpq. change (Pos.compare_cont Eq q p) with (Pos.compare q p).
  rewrite Pos.compare_antisym. change (Pos.compare p q) with (Pos.compare_cont Eq p q).
  now rewrite Hpq.
Qed.

Lemma compare_cont_gt_lt (p q : positive) :
  Pos.compare_cont Eq p q = Gt -> Pos.compare_cont Eq q p = Lt.
Proof.
  intros Hpq. change (Pos.compare_cont Eq q p) with (Pos.compare q p).
  rewrite Pos.compare_antisym. change (Pos.compare p q) with (Pos.compare_cont Eq p q).
  now rewrite Hpq.
Qed.

(** Of two doubles at most one is strictly greater than the other. *)
Lemma gt_asym (x y : float) : gt x y = true -> gt y x = false.
Proof.
  unfold gt. rewrite !ltb_spec. unfold SFltb.
  destruct (Prim2SF x) as [s|s| |s m e], (Prim2SF y) as [s'|s'| |s' m' e']; cbn;
    try discriminate; try reflexivity;
    try (destruct s, s'; (discriminate || reflexivity)).
  rewrite (Z.compare_antisym e' e).
  destruct s, s'; try discriminate; try reflexivity;
    destruct (e' ?= e) eqn:Ee; cbn; try discriminate; try reflexivity.
  - destruct (Pos.compare_cont Eq m' m) eqn:Em; try discriminate.
    now rewrite (compare_cont_gt_lt _ _ Em).
  - destruct (Pos.compare_cont Eq m' m) eqn:Em; try discriminate.
    now rewrite (compare_cont_lt_gt _ _ Em).
Qed.

Lemma gt_nan (x : float) : gt x nan = false.
Proof. unfold gt. rewrite ltb_spec. reflexivity. Qed.

Lemma peaks_of_spec threshold v z :
  In z (peaks_of threshold v) <->
  exists i : nat, z = Z.of_nat i /\ (1 <= i)%nat /\ (i + 1 < length v)%nat
                  /\ strict_peak threshold v i = true.
Proof.
  unfold peaks_of. rewrite in_map_iff. split.
  - intros (i & <- & Hi). apply filter_In in Hi as [Hi Hp]. apply in_seq in Hi.
    exists i. repeat split; try lia. exact Hp.
  - intros (i & -> & H1 & H2 & Hp). exists i. split; [reflexivity|].
    apply filter_In. split; [|exact Hp]. apply in_seq. lia.
Qed.

(** X4: no two neighbouring indices are both peaks: a peak is strictly
    greater than the sample after it, which therefore is not strictly
    greater than the sample before it. *)
Theorem findPeaks_no_neighbours this signal peaks (i : Z) :
  size signal < Size.modulus ->
  findPeaks this signal = Ok peaks ->
  In i peaks -> ~ In (i + 1) peaks.
Proof.
  intros Hsz Hfp Hi Hi1.
  rewrite findPeaks_outcome in Hfp by exact Hsz.
  destruct signal as [|x signal]; [discriminate|].
  injection Hfp as <-.
  apply peaks_of_spec in Hi as (k & -> & _ & _ & Hk).
  apply peaks_of_spec in Hi1 as (k' & Hk' & _ & _ & Hk1).
  assert (k' = S k) by lia. subst k'.
  unfold strict_peak in Hk, Hk1.
  apply andb_prop in Hk as [Hk _]. apply andb_prop in Hk as [_ Hk].
  apply andb_prop in Hk1 as [Hk1 _]. apply andb_prop in Hk1 as [Hk1 _].
  replace (S k - 1)%nat with k in Hk1 by lia.
  replace (k + 1)%nat with (S k) in Hk by lia.
  apply gt_asym in Hk. congruence.
Qed.

(** X5: with a NaN for a threshold no sample compares greater than it, and
    a signal that is not empty has no peak. *)
Theorem findPeaks_nan_threshold this (x : float) signal :
  size (x :: signal) < Size.modulus ->
  threshold this = nan ->
  findPeaks this (x :: signal) = Ok [].
Proof.
  intros Hsz Hnan. rewrite findPeaks_outcome by exact Hsz.
  f_equal. unfold peaks_of. rewrite filter_none; [reflexivity|].
  intros i _. unfold strict_peak. rewrite Hnan, gt_nan. apply andb_false_r.
Qed.

End FindPeaksMore.

(** ** Reading back what was written *)

Lemma put_read p c n n' :
  Fs.put p c n = Some n' -> Fs.lookup p n <> Some Fs.Special -> read_at p n' = Some c.
Proof.
  revert n n'. induction p as [|a p IH]; intros n n' Hput Hsp.
  - destruct n; discriminate.
  - destruct (put_dir _ _ _ _ Hput) as (es & es' & -> & ->).
    rewrite read_at_cons.
    destruct p as [|b p].
    + cbn in Hput, Hsp.
      destruct (Fs.assoc a es) as [[| |]|] eqn:Ha; try discriminate; try congruence;
        injection Hput as <-; now rewrite assoc_set_entry.
    + rewrite put_cons in Hput. cbn [Fs.lookup] in Hsp.
      destruct (Fs.assoc a es) as [x|] eqn:Ha; [|discriminate].
      destruct (Fs.put (b :: p) c x) as [x'|] eqn:Hx; [|discriminate].
      injection Hput as <-.
      rewrite assoc_set_entry. now apply (IH _ _ Hx).
Qed.

(** A regular file can be opened for writing. *)
Lemma put_file p c b n :
  p <> [] -> read_at p n = Some b ->
  exists n', Fs.put p c n = Some n' /\ read_at p n' = Some c.
Proof.
  revert n. induction p as [|a p IH]; intros n Hp Hread; [congruence|].
  destruct n as [|es|]; try (unfold read_at in Hread; cbn in Hread; discriminate).
  rewrite read_at_cons in Hread.
  destruct (Fs.assoc a es) as [x|] eqn:Ha; [|discriminate].
  destruct p as [|a' p].
  - unfold read_at in Hread. cbn in Hread.
    destruct x as [b'| |]; try discriminate.
    eexists. split; [cbn; rewrite Ha; reflexivity|].
    now rewrite read_at_cons, assoc_set_entry.
  - destruct (IH x) as (x' & Hx' & Hr); [discriminate | exact Hread |].
    eexists. split; [rewrite put_cons, Ha, Hx'; reflexivity|].
    now rewrite read_at_cons, assoc_set_entry.
Qed.

Lemma read_at_not_special p n b : read_at p n = Some b -> Fs.lookup p n <> Some Fs.Special.
Proof. unfold read_at. intros Hr Hl. rewrite Hl in Hr. discriminate. Qed.

(** What was written to a path name is read back from it. *)
Lemma write_read p c n n' :
  Fs.write p c n = Some n' ->
  Fs.lookup (Fs.resolve p) n <> Some Fs.Special ->
  Fs.read p n' = Some c /\ read_at (Fs.resolve p) n' = Some c.
Proof.
  unfold Fs.write. destruct (Fs.locate p n) as [q|] eqn:Hq; [|discriminate].
  intros Hput Hsp. rewrite read_locate, (put_locate _ _ _ _ p Hput), Hq.
  rewrite <- (locate_resolve _ _ _ Hq) in *.
  split; now apply (put_read _ _ _ _ Hput).
Qed.

(** ** More on processSignal *)

Section ProcessSignalMore.
Context `{Platform}.
Import SignalProcessor.

Lemma writes_only_open_out path content :
  writes_only (eq (Fs.resolve path)) (open_out path content).
Proof.
  intros w q Hq. unfold open_out.
  destruct (Fs.write _ _ _) as [root'|] eqn:Hput; [|reflexivity].
  cbn. apply write_put in Hput. apply (put_frame _ _ _ _ _ Hput). congruence.
Qed.

Lemma writes_only_processSignal file_path this :
  writes_only (eq (Fs.resolve (output_dir this ++ "/processed_" ++ Fs.filename file_path)))
              (processSignal file_path this).
Proof.
  unfold processSignal. apply writes_only_bind; [now apply writes_only_pure|].
  intros [content|]; [|now apply writes_only_pure].
  apply writes_only_bind; [now apply writes_only_pure|]. intros filtered.
  apply writes_only_bind; [now apply writes_only_pure|]. intros peaks.
  apply writes_only_bind; [apply writes_only_open_out|]. intros [|].
  - apply writes_only_bind; [now apply writes_only_pure|]. intros rows.
    apply writes_only_bind; [apply writes_only_open_out|]. intros _.
    apply writes_only_when. now apply writes_only_pure.
  - now apply writes_only_pure.
Qed.

Lemma keeps_directories_open_out path content :
  keeps_directories (open_out path content).
Proof.
  intros w a. unfold open_out.
  destruct (Fs.write _ _ _) as [root'|] eqn:Hput; [|reflexivity].
  cbn. apply write_put in Hput. now apply (put_directories _ _ _ _ _ Hput).
Qed.

Lemma keeps_directories_processSignal file_path this :
  keeps_directories (processSignal file_path this).
Proof.
  unfold processSignal. apply keeps_directories_bind; [now apply keeps_directories_pure|].
  intros [content|]; [|now apply keeps_directories_pure].
  apply keeps_directories_bind; [now apply keeps_directories_pure|]. intros filtered.
  apply keeps_directories_bind; [now apply keeps_directories_pure|]. intros peaks.
  apply keeps_directories_bind; [apply keeps_directories_open_out|]. intros [|].
  - apply keeps_directories_bind; [now apply keeps_directories_pure|]. intros rows.
    apply keeps_directories_bind; [apply keeps_directories_open_out|]. intros _.
    apply keeps_directories_when. now apply keeps_directories_pure.
  - now apply keeps_directories_pure.
Qed.

Lemma writes_only_signals_from this i files :
  writes_only (signal_targets (output_dir this) files) (process_from this i files).
Proof.
  revert i. induction files as [|file_path files IH]; intros i; cbn [process_from].
  - now apply writes_only_pure.
  - apply writes_only_bind.
    + eapply writes_only_weaken; [|apply writes_only_processSignal].
      intros q <-. exists file_path. split; [now left | reflexivity].
    + intros _. apply writes_only_bind.
      * apply writes_only_when. now apply writes_only_pure.
      * intros _. eapply writes_only_weaken; [|apply IH].
        intros q (p & Hp & ->). exists p. split; [now right | reflexivity].
Qed.

(** X6: [processAllSignals] changes regular files only where its results
    go, at [output_dir/processed_<name>] for the files of the corpus: a
    regular file at any other path is the same afterwards, whatever the
    outcome. *)
Theorem processAllSignals_frame this (w : world) (q : Fs.path) :
  ~ signal_targets (output_dir this) (signal_files this) q ->
  read_at q (fs (snd (processAllSignals this w))) = read_at q (fs w).
Proof.
  revert w q. change (writes_only (signal_targets (output_dir this) (signal_files this))
                                   (processAllSignals this)).
  unfold processAllSignals.
  apply writes_only_bind; [now apply writes_only_pure|]. intros start.
  apply writes_only_bind; [apply writes_only_signals_from|]. intros _.
  apply writes_only_bind; [now apply writes_only_pure|]. intros stop.
  now apply writes_only_pure.
Qed.

Lemma proper_name_no_slash name : proper_name name = true -> no_slash (chars name) = true.
Proof. unfold proper_name. intros Hn. now apply andb_prop in Hn as [_ ?]. Qed.

Lemma after_last_split c l r :
  Fs.after_last c l = Some r -> exists pre, l = pre ++ c :: r.
Proof.
  revert r. induction l as [|x l IH]; intros r; cbn; [discriminate|].
  destruct (Fs.after_last c l) as [r'|].
  - intros [= <-]. destruct (IH r' eq_refl) as [pre ->]. now exists (x :: pre).
  - destruct (Ascii.eqb_spec x c) as [->|]; [|discriminate].
    intros [= <-]. now exists [].
Qed.

(** A path name whose last component is a proper name resolves to a path
    that ends with it. *)
Lemma resolve_filename p :
  proper_name (Fs.filename p) = true ->
  exists q, Fs.resolve p = q ++ [Fs.filename p].
Proof.
  intros Hp. pose proof (proper_name_no_slash _ Hp) as Hns.
  unfold Fs.filename in *.
  destruct (Fs.after_last "/" (chars p)) as [r|] eqn:Hr.
  - apply after_last_split in Hr as [pre Hpre].
    assert (Ep : p = (text pre ++ "/" ++ text r)%string).
    { apply chars_inj. rewrite chars_append. change (chars ("/" ++ text r)) with ("/"%char :: chars (text r)).
      unfold text, chars in *. now rewrite !list_ascii_of_string_of_list_ascii. }
    exists (Fs.resolve (text pre)).
    rewrite Ep at 1. rewrite resolve_child by exact Hns. now apply step_proper.
  - exists []. unfold Fs.resolve. rewrite split_slash_one by exact Hns.
    cbn [rev app fold_left]. unfold text, chars. rewrite string_of_list_ascii_of_string.
    now apply (step_proper []).
Qed.

Lemma app_last_inj {A} (q1 q2 : list A) (a b : A) : q1 ++ [a] = q2 ++ [b] -> a = b.
Proof.
  intros E. apply (f_equal (@rev A)) in E. rewrite !rev_unit in E. now injection E.
Qed.

(** X7: [processSignal] never overwrites the file it reads: the name of its
    output file is longer than that of its input. *)
Theorem processSignal_keeps_input this file_path (w : world) :
  proper_name (Fs.filename file_path) = true ->
  Fs.read file_path (fs (snd (processSignal file_path this w)))
  = Fs.read file_path (fs w).
Proof.
  intros Hp.
  apply (read_kept _ _ _ _ (keeps_directories_processSignal file_path this)
                   (writes_only_processSignal file_path this)).
  intros E.
  destruct (resolve_filename _ Hp) as [q Hq].
  change (output_dir this ++ "/processed_" ++ Fs.filename file_path)%string
    with (output_dir this ++ "/" ++ (String "p" ("rocessed_" ++ Fs.filename file_path)))%string in E.
  rewrite resolve_child, step_proper, Hq in E.
  - apply app_last_inj in E. apply (f_equal String.length) in E.
    cbn in E. lia.
  - apply proper_name_cons; [reflexivity | reflexivity |].
    rewrite chars_append. unfold no_slash. rewrite forallb_app.
    fold (no_slash (chars (Fs.filename file_path))).
    now rewrite filename_no_slash.
  - change (String "p" ("rocessed_" ++ Fs.filename file_path)) with ("processed_" ++ Fs.filename file_path)%string.
    rewrite chars_append. unfold no_slash. rewrite forallb_app.
    fold (no_slash (chars (Fs.filename file_path))).
    now rewrite filename_no_slash.
Qed.

End ProcessSignalMore.

Section MovingAverageTotal.
Import SignalProcessor.

(** Whatever the window size, [movingAverage] ends without a fault and
    returns as many values as the signal has samples. *)
Lemma movingAverage_ok (this : t) (signal : list float) :
  Int.min <= window_size this <= Int.max ->
  size signal <= 2 ^ 30 ->
  exists result,
    movingAverage this signal = Ok result /\ length result = length signal.
Proof.
  intros Hw Hn.
  destruct (Z_lt_le_dec (window_size this) (-1)) as [Hneg|Hpos].
  - exists (map (fun _ => nan) (map Z.of_nat (seq 0 (length signal)))). split.
    + apply mapM_ok. intros z Hz.
      apply in_map_iff in Hz as [i [<- Hi]]. apply in_seq in Hi.
      apply average_at_crossed; [lia | lia | exact Hn].
    + now rewrite !length_map, length_seq.
  - eexists. split.
    + apply movingAverage_values; [lia | exact Hn].
    + now rewrite !length_map, length_seq.
Qed.

End MovingAverageTotal.

Section ProcessSignalOutput.
Context `{Platform}.
Import SignalProcessor.

(** X8: for a file with at least one sample after its first line, a
    window size of at least -1 and an output file that can be opened and is
    not a special file, [processSignal] ends normally and the output file
    [output_dir/processed_<name>] then holds the header line and, for every
    retained sample in order, the sample, the mean over its window and
    whether its index is a peak of the filtered signal. *)
Theorem processSignal_output this file_path content (w : world) :
  Fs.read file_path (fs w) = Some content ->
  let signal := read_samples (tl (getlines [] (chars content))) in
  let output_path := (output_dir this ++ "/processed_" ++ Fs.filename file_path)%string in
  signal <> [] ->
  -1 <= window_size this <= Int.max ->
  size signal <= 2 ^ 30 ->
  Fs.write output_path "" (fs w) <> None ->
  Fs.lookup (Fs.resolve output_path) (fs w) <> Some Fs.Special ->
  fst (processSignal file_path this w) = Ok tt
  /\ Fs.read output_path (fs (snd (processSignal file_path this w)))
     = Some (output_text (window_size this) (threshold this) signal).
Proof.
  intros Hread signal output_path Hne Hw Hn Hopen Hsp.
  destruct (Fs.write output_path "" (fs w)) as [root1|] eqn:Hroot1; [clear Hopen|congruence].
  destruct (processSignal_rows this file_path content w root1 Hread Hne Hw Hn Hroot1)
    as (filtered & peaks & root2 & Hma & Hlen & Hfp & Hroot2 & Hok & Hfs).
  fold signal in Hma, Hroot2, Hlen. fold output_path in Hroot2.
  split; [exact Hok|].
  rewrite Hfs.
  rewrite movingAverage_values in Hma by assumption.
  injection Hma as Hma.
  rewrite findPeaks_outcome in Hfp
    by (unfold size, Size.modulus in *; rewrite Hlen; lia).
  assert (Hpk : peaks = peaks_of (threshold this) filtered).
  { destruct filtered as [|y filtered].
    - destruct signal; [congruence | discriminate].
    - now injection Hfp. }
  unfold output_text, window_means. cbv zeta. rewrite Hma, <- Hpk.
  apply (write_read _ _ _ _ Hroot2).
  apply (read_at_not_special _ _ ""%string).
  now apply (write_read _ _ _ _ Hroot1).
Qed.

Lemma processSignal_unreadable this file_path (w : world) :
  Fs.open_in file_path (fs w) = None ->
  processSignal file_path this w
  = (Ok tt, {| fs := fs w; ticks := ticks w; cout := cout w;
               cerr := cerr w ++ [("Error: Could not open file " ++ file_path)%string] |}).
Proof. intros Hread. unfold processSignal, bindA. now rewrite Hread. Qed.

(** X9: when the file has at least one sample (and at most 2^30) and the
    output file cannot be opened, [processSignal] writes one line to the
    error stream, changes nothing else and ends normally, so the loop over
    the files goes on. *)
Theorem processSignal_unwritable_output this file_path content (w : world) :
  Fs.read file_path (fs w) = Some content ->
  let signal := read_samples (tl (getlines [] (chars content))) in
  let output_path := (output_dir this ++ "/processed_" ++ Fs.filename file_path)%string in
  signal <> [] ->
  Int.min <= window_size this <= Int.max ->
  size signal <= 2 ^ 30 ->
  Fs.write output_path "" (fs w) = None ->
  processSignal file_path this w
  = (Ok tt, {| fs := fs w; ticks := ticks w; cout := cout w;
               cerr := cerr w ++ [("Error: Could not create output file "
                                     ++ output_path)%string] |}).
Proof.
  intros Hread signal output_path Hne Hw Hn Hopen.
  destruct (movingAverage_ok this signal Hw Hn) as (filtered & Hma & Hlen).
  assert (Hfp : findPeaks this filtered = Ok (peaks_of (threshold this) filtered)).
  { rewrite findPeaks_outcome.
    - destruct filtered; [|reflexivity].
      destruct signal; [congruence | discriminate].
    - unfold size, Size.modulus in *. rewrite Hlen. lia. }
  unfold processSignal, bindA. rewrite (open_in_read _ _ _ Hread). fold signal.
  unfold lift. rewrite Hma, Hfp.
  fold output_path. unfold open_out. now rewrite Hopen.
Qed.

Lemma when_print b line (w : world) :
  exists w', when b (print line) w = (Ok tt, w')
             /\ fs w' = fs w /\ ticks w' = ticks w /\ cerr w' = cerr w.
Proof. destruct b; cbn; eexists; repeat split. Qed.

Lemma signals_from_unreadable this files i (w : world) :
  (forall p, In p files -> Fs.open_in p (fs w) = None) ->
  exists w', process_from this i files w = (Ok tt, w')
             /\ fs w' = fs w /\ ticks w' = ticks w
             /\ cerr w' = cerr w ++ open_errors files.
Proof.
  revert i w. induction files as [|p files IH]; intros i w Hnone; cbn [process_from].
  - exists w. cbn. now rewrite app_nil_r.
  - unfold bindA at 1.
    rewrite (processSignal_unreadable this p w (Hnone p (or_introl eq_refl))).
    unfold bindA at 1.
    set (w1 := {| fs := fs w; ticks := ticks w; cout := cout w; cerr := _ |}).
    destruct (when_print (verbose this && (Size.add i 1 mod 5 =? 0))
                (("Progress: " ++ to_string (Size.add i 1) ++ "/"
                               ++ to_string (size (signal_files this)))%string) w1)
      as (w2 & -> & Hfs & Hticks & Hcerr).
    destruct (IH (Size.add i 1) w2) as (w' & -> & Hfs' & Hticks' & Hcerr').
    { intros q Hq. rewrite Hfs. apply Hnone. now right. }
    exists w'. split; [reflexivity|].
    rewrite Hfs', Hticks', Hcerr', Hfs, Hticks, Hcerr. subst w1. cbn.
    now rewrite <- app_assoc.
Qed.

(** X10: when no file of the corpus can be opened (no path name of the
    corpus names anything), [processAllSignals] ends normally, leaves the file system as it was and reports every file
    on the error stream, in the order of the corpus. *)
Theorem processAllSignals_unreadable this (w : world) :
  (forall p, In p (signal_files this) -> Fs.open_in p (fs w) = None) ->
  fst (processAllSignals this w) = Ok tt
  /\ fs (snd (processAllSignals this w)) = fs w
  /\ cerr (snd (processAllSignals this w)) = cerr w ++ open_errors (signal_files this).
Proof.
  intros Hnone. unfold processAllSignals, bindA, now.
  set (w0 := {| fs := fs w; ticks := S (ticks w); cout := cout w; cerr := cerr w |}).
  destruct (signals_from_unreadable this (signal_files this) 0 w0 Hnone)
    as (w' & -> & Hfs & _ & Hcerr).
  cbn. now rewrite Hfs, Hcerr.
Qed.

End ProcessSignalOutput.
(** ** More on the image pipeline *)

Lemma never_faults_bind {A B} (m : action A) (k : A -> action B) :
  never_faults m -> (forall a, never_faults (k a)) -> never_faults (bindA m k).
Proof.
  intros Hm Hk w. unfold bindA.
  destruct (Hm w) as [a Ha]. destruct (m w) as [r w1]. cbn in Ha. subst r.
  apply Hk.
Qed.

Lemma never_faults_when b (m : action unit) : never_faults m -> never_faults (when b m).
Proof. intros Hm. destruct b; [exact Hm|]. intros w. now exists tt. Qed.

Lemma never_faults_print line : never_faults (print line).
Proof. intros w. now exists tt. Qed.

Section ImagePipeline.
Context `{Platform} `{OpenCV}.
Import ImageProcessor.

(** X11: the output file of an image is [output_dir/<name>], whatever the
    directory the image came from; when that path name leads to the image
    itself, [processImage] overwrites the image with its processed form. *)
Theorem processImage_in_place this image_path bytes image blurred (w : world) :
  Fs.read image_path (fs w) = Some bytes ->
  imdecode bytes = Some image ->
  GaussianBlur image (blur_size this) = Ok blurred ->
  let output_path := (output_dir this ++ "/" ++ Fs.filename image_path)%string in
  Fs.locate output_path (fs w) = Fs.locate image_path (fs w) ->
  Fs.read image_path (fs (snd (processImage image_path this w)))
  = Some (imencode output_path (processed_image this blurred)).
Proof.
  intros Hread Hdec Hblur output_path Hsame.
  unfold processImage, bindA, imread. rewrite Hread, Hdec.
  unfold lift. rewrite Hblur. fold output_path.
  fold (processed_image this blurred).
  rewrite read_locate in Hread.
  destruct (Fs.locate image_path (fs w)) as [q|] eqn:Hq; [|discriminate].
  assert (Hne : q <> []).
  { intros ->. unfold Fs.locate in Hq.
    destruct (String.eqb image_path ""); [discriminate|].
    unfold read_at in Hread. cbn in Hread.
    destruct (split_slash_cons [] (chars image_path)) as (c & cs & Hcs).
    rewrite Hcs in Hq. cbn in Hq. destruct (fs w); discriminate. }
  destruct (put_file _ (imencode output_path (processed_image this blurred)) _ _ Hne Hread)
    as (root' & Hput & Hback).
  unfold imwrite, Fs.write. rewrite Hsame, Hput.
  assert (Hafter : Fs.read image_path root'
                   = Some (imencode output_path (processed_image this blurred))).
  { now rewrite read_locate, (put_locate _ _ _ _ image_path Hput), Hq. }
  unfold when. destruct (verbose this); exact Hafter.
Qed.

(** X12: the result of [imwrite] is not looked at: when the output file
    cannot be written, [processImage] ends normally, writes nothing to the
    error stream and, if verbose, still reports the image as processed. *)
Theorem processImage_unwritable_output this image_path image blurred (w : world) :
  decoded image_path (fs w) = Some image ->
  GaussianBlur image (blur_size this) = Ok blurred ->
  let output_path := (output_dir this ++ "/" ++ Fs.filename image_path)%string in
  Fs.write output_path (imencode output_path (processed_image this blurred)) (fs w) = None ->
  processImage image_path this w
  = (Ok tt, {| fs := fs w; ticks := ticks w;
               cout := cout w ++ (if verbose this
                                  then [("Processed: " ++ Fs.filename image_path)%string]
                                  else []);
               cerr := cerr w |}).
Proof.
  intros Hdec Hblur output_path Hwrite.
  unfold processImage, bindA, imread. unfold decoded in Hdec. rewrite Hdec.
  unfold lift. rewrite Hblur. fold output_path.
  fold (processed_image this blurred).
  unfold imwrite. rewrite Hwrite.
  unfold when. destruct (verbose this); cbn.
  - reflexivity.
  - rewrite app_nil_r. now destruct w.
Qed.

Lemma never_faults_processImage this image_path :
  (forall image, exists blurred, GaussianBlur image (blur_size this) = Ok blurred) ->
  never_faults (processImage image_path this).
Proof.
  intros Hblur. unfold processImage.
  apply never_faults_bind; [intros w; cbn; eauto|].
  intros [image|]; [|intros w; now exists tt].
  destruct (Hblur image) as [blurred ->].
  apply never_faults_bind; [intros w; cbn; eauto|]. intros b.
  apply never_faults_bind.
  - intros w. unfold imwrite. destruct (Fs.write _ _ _); now exists tt.
  - intros _. apply never_faults_when, never_faults_print.
Qed.

Lemma never_faults_process_from this i paths :
  (forall image, exists blurred, GaussianBlur image (blur_size this) = Ok blurred) ->
  never_faults (process_from this i paths).
Proof.
  intros Hblur. revert i.
  induction paths as [|p paths IH]; intros i; cbn [process_from].
  - intros w. now exists tt.
  - apply never_faults_bind; [now apply never_faults_processImage|]. intros _.
    apply never_faults_bind; [apply never_faults_when, never_faults_print|]. intros _.
    apply IH.
Qed.

(** X13: if [GaussianBlur] accepts the kernel size for every image, a run
    of [processAllImages] ends normally in every world: a file that cannot
    be read, decoded or written never ends it. *)
Theorem processAllImages_never_faults this :
  (forall image, exists blurred, GaussianBlur image (blur_size this) = Ok blurred) ->
  never_faults (processAllImages this).
Proof.
  intros Hblur. unfold processAllImages.
  apply never_faults_bind; [intros w; cbn; eauto|]. intros start.
  apply never_faults_bind; [now apply never_faults_process_from|]. intros _.
  apply never_faults_bind; [intros w; cbn; eauto|]. intros stop.
  apply never_faults_bind; [apply never_faults_print|]. intros _.
  apply never_faults_print.
Qed.

Lemma processImage_undecodable this image_path (w : world) :
  decoded image_path (fs w) = None ->
  processImage image_path this w
  = (Ok tt, {| fs := fs w; ticks := ticks w; cout := cout w;
               cerr := cerr w ++ [("Error: Could not read image " ++ image_path)%string] |}).
Proof.
  intros Hdec. unfold processImage, bindA, imread.
  unfold decoded in Hdec. now rewrite Hdec.
Qed.

Lemma images_from_undecodable this paths i (w : world) :
  (forall p, In p paths -> decoded p (fs w) = None) ->
  exists w', process_from this i paths w = (Ok tt, w')
             /\ fs w' = fs w /\ cerr w' = cerr w ++ read_errors paths.
Proof.
  revert i w. induction paths as [|p paths IH]; intros i w Hnone; cbn [process_from].
  - exists w. cbn. now rewrite app_nil_r.
  - unfold bindA at 1.
    rewrite (processImage_undecodable this p w (Hnone p (or_introl eq_refl))).
    unfold bindA at 1.
    set (w1 := {| fs := fs w; ticks := ticks w; cout := cout w; cerr := _ |}).
    destruct (when_print (verbose this && (Size.add i 1 mod 10 =? 0))
                (("Progress: " ++ to_string (Size.add i 1) ++ "/"
                               ++ to_string (size (image_paths this)))%string) w1)
      as (w2 & -> & Hfs & _ & Hcerr).
    destruct (IH (Size.add i 1) w2) as (w' & -> & Hfs' & Hcerr').
    { intros q Hq. rewrite Hfs. apply Hnone. now right. }
    exists w'. split; [reflexivity|].
    rewrite Hfs', Hcerr', Hfs, Hcerr. subst w1. cbn.
    now rewrite <- app_assoc.
Qed.

(** X14: when no image of the corpus decodes, [processAllImages] ends
    normally, leaves the file system as it was and reports every image on
    the error stream, in the order of the corpus. *)
Theorem processAllImages_undecodable this (w : world) :
  (forall p, In p (image_paths this) -> decoded p (fs w) = None) ->
  fst (processAllImages this w) = Ok tt
  /\ fs (snd (processAllImages this w)) = fs w
  /\ cerr (snd (processAllImages this w)) = cerr w ++ read_errors (image_paths this).
Proof.
  intros Hnone. unfold processAllImages, bindA, now.
  set (w0 := {| fs := fs w; ticks := S (ticks w); cout := cout w; cerr := cerr w |}).
  destruct (images_from_undecodable this (image_paths this) 0 w0 Hnone)
    as (w' & -> & Hfs & Hcerr).
  cbn. now rewrite Hfs, Hcerr.
Qed.

End ImagePipeline.
(** ** The statistics of analyzeImages *)

Section AnalyzeImagesMore.
Context `{Platform} `{OpenCV}.
Import ImageProcessor.

(** X15: for a corpus that is not empty and whose files can all be read,
    [analyzeImages] does nothing but print the report of these
    statistics: the sizes of all files added up as a [size_t] from 0, the
    least width and height of the images that decode, from [INT_MAX] down,
    and the greatest, from 0 up. *)
Theorem analyzeImages_statistics this (w : world) :
  image_paths this <> [] ->
  (forall p, In p (image_paths this) -> exists content, Fs.read p (fs w) = Some content) ->
  analyzeImages this w = report this (aggregate (fs w) (image_paths this)) w.
Proof.
  intros Hne Hread. unfold analyzeImages.
  destruct (image_paths this) as [|p paths] eqn:Hpaths; [congruence|].
  unfold bindA at 1. now rewrite analyze_loop_stats.
Qed.

End AnalyzeImagesMore.
(** ** More on construction and enumeration *)

Lemma mkdirs_lookup p n n' :
  Fs.mkdirs p n = Some n' -> exists es, Fs.lookup p n' = Some (Fs.Dir es).
Proof.
  revert n n'. induction p as [|c p IH]; intros n n' Hmk.
  - destruct n as [|es|]; try discriminate. injection Hmk as <-. now exists es.
  - destruct n as [|es|]; try discriminate.
    cbn in Hmk.
    destruct (Fs.mkdirs p _) as [x'|] eqn:Hx; [|discriminate].
    injection Hmk as <-. cbn [Fs.lookup]. rewrite assoc_set_entry.
    exact (IH _ _ Hx).
Qed.

(** When the directories on the way of a path name have been made, the
    path name leads to a directory. *)
Lemma make_all_status acc cs n n' :
  Fs.make_all (Fs.places_from acc cs) n = Some n' ->
  is_dir acc n = true ->
  Fs.locate_from n' acc cs = Some (fold_left Fs.step cs acc)
  /\ is_dir (fold_left Fs.step cs acc) n' = true.
Proof.
  revert acc n. induction cs as [|c cs IH]; intros acc n Hmk Hacc.
  - cbn in *. injection Hmk as <-. now split.
  - cbn [Fs.places_from Fs.make_all] in Hmk.
    destruct (Fs.mkdirs (Fs.step acc c) n) as [n1|] eqn:Hn1; [|discriminate].
    assert (Hstep : is_dir (Fs.step acc c) n1 = true).
    { unfold is_dir. now destruct (mkdirs_lookup _ _ _ Hn1) as [es ->]. }
    destruct (IH _ _ Hmk Hstep) as [Hwalk Hdir].
    split; [|exact Hdir].
    cbn [Fs.locate_from fold_left].
    assert (Hacc' : is_dir acc n' = true).
    { apply (make_all_directories _ _ _ _ Hmk).
      now apply (mkdirs_directories _ _ _ _ Hn1). }
    unfold is_dir in Hacc'.
    destruct (Fs.lookup acc n') as [[| |]|]; try discriminate. exact Hwalk.
Qed.

Lemma make_all_root q qs n n' :
  Fs.make_all (q :: qs) n = Some n' -> is_dir [] n = true.
Proof.
  cbn. destruct (Fs.mkdirs q n) eqn:Hq; [|discriminate]. intros _.
  destruct q, n; try discriminate; reflexivity.
Qed.

(** After [ensure_directory] the path name names something; it names a
    directory if it named nothing before. *)
Lemma ensure_directory_exists dir (w w' : world) :
  ensure_directory dir w = (Ok tt, w') ->
  Fs.exists_ dir (fs w') = true
  /\ (Fs.exists_ dir (fs w) = false ->
      exists es, Fs.status dir (fs w') = Some (Fs.Dir es))
  /\ (forall q, read_at q (fs w') = read_at q (fs w))
  /\ cout w' = cout w /\ cerr w' = cerr w /\ ticks w' = ticks w.
Proof.
  unfold ensure_directory, Fs.create_directories.
  destruct (Fs.exists_ dir (fs w)) eqn:Hex.
  - intros [= <-]. repeat split; auto. discriminate.
  - destruct (String.eqb dir "") eqn:Hempty; [discriminate|].
    destruct (Fs.make_all (Fs.places dir) (fs w)) as [root'|] eqn:Hmk; [|discriminate].
    intros [= <-]. cbn.
    assert (Hdir : exists es, Fs.status dir root' = Some (Fs.Dir es)).
    { unfold Fs.status, Fs.locate, Fs.places in *. rewrite Hempty.
      destruct (split_slash_cons [] (chars dir)) as (c & cs & Hcs).
      rewrite Hcs in *.
      destruct (make_all_status [] (c :: cs) _ _ Hmk) as [-> Hd].
      - exact (make_all_root _ _ _ _ Hmk).
      - unfold is_dir in Hd.
        destruct (Fs.lookup _ root') as [[| es |]|]; try discriminate. eauto. }
    repeat split.
    + unfold Fs.exists_. now destruct Hdir as [es ->].
    + intros _. exact Hdir.
    + intros q. now apply (make_all_frame _ _ _ _ Hmk).
Qed.

Lemma lookup_app p q n :
  Fs.lookup (p ++ q) n
  = match Fs.lookup p n with Some x => Fs.lookup q x | None => None end.
Proof.
  revert n. induction p as [|c p IH]; intros n; cbn; [reflexivity|].
  destruct n as [|es|]; try reflexivity.
  destruct (Fs.assoc c es); [apply IH | reflexivity].
Qed.

Lemma after_last_none c l :
  forallb (fun x => negb (Ascii.eqb x c)) l = true -> Fs.after_last c l = None.
Proof.
  induction l as [|x l IH]; cbn; [reflexivity|].
  intros Hl. apply andb_prop in Hl as [Hx Hl]. rewrite (IH Hl).
  now destruct (Ascii.eqb x c).
Qed.

Lemma after_last_found c pre r :
  forallb (fun x => negb (Ascii.eqb x c)) r = true ->
  Fs.after_last c (pre ++ c :: r) = Some r.
Proof.
  intros Hr. induction pre as [|x pre IH]; cbn.
  - now rewrite (after_last_none _ _ Hr), Ascii.eqb_refl.
  - now rewrite IH.
Qed.

Lemma text_chars s : text (chars s) = s.
Proof. unfold text, chars. apply string_of_list_ascii_of_string. Qed.

Lemma chars_text l : chars (text l) = l.
Proof. unfold text, chars. apply list_ascii_of_string_of_list_ascii. Qed.

(** The file name of [a / name] is [name]. *)
Lemma filename_join a name :
  no_slash (chars name) = true -> Fs.filename (Fs.join a name) = name.
Proof.
  intros Hname. unfold Fs.join, Fs.filename.
  assert (Hsep : forall pre, Fs.after_last "/" (pre ++ "/"%char :: chars name)
                             = Some (chars name))
    by (intros pre; now apply after_last_found).
  destruct (Fs.after_last "/" (chars a)) as [[|x r]|] eqn:Ha.
  - apply after_last_split in Ha as [pre Hpre].
    rewrite chars_append, Hpre, <- app_assoc. cbn [app].
    now rewrite Hsep, text_chars.
  - rewrite !chars_append. change (chars "/") with ["/"%char].
    cbn [app]. now rewrite Hsep, text_chars.
  - rewrite !chars_append. change (chars "/") with ["/"%char].
    cbn [app]. now rewrite Hsep, text_chars.
Qed.

Lemma join_all_app prefix cs name :
  join_all prefix (cs ++ [name]) = Fs.join (join_all prefix cs) name.
Proof.
  revert prefix. induction cs as [|c cs IH]; intros prefix; cbn; [reflexivity|].
  apply IH.
Qed.

Lemma filename_self name : no_slash (chars name) = true -> Fs.filename name = name.
Proof.
  intros Hname. unfold Fs.filename. now rewrite (after_last_none _ _ Hname).
Qed.

(** The extension of an entry reached through directories is that of its
    own name. *)
Lemma extension_join_all prefix cs name :
  no_slash (chars name) = true ->
  Fs.extension (join_all prefix (cs ++ [name])) = Fs.extension name.
Proof.
  intros Hname. unfold Fs.extension.
  now rewrite join_all_app, filename_join, filename_self.
Qed.

(** Every entry below the directory is among those the iteration yields. *)
Lemma iterator_complete dir root entries cs name x :
  Fs.recursive_directory_iterator dir root = Ok entries ->
  Fs.lookup (Fs.resolve dir ++ cs ++ [name]) root = Some x ->
  In (join_all dir (cs ++ [name]), x) entries.
Proof.
  unfold Fs.recursive_directory_iterator. rewrite lookup_app.
  destruct (Fs.status dir root) as [[| es |]|] eqn:Hdir; try discriminate.
  rewrite (status_lookup _ _ _ Hdir).
  intros [= <-] Hx.
  destruct cs as [|c cs]; cbn [app] in *.
  - exact (walk_complete [] name dir (Fs.Dir es) x Hx).
  - exact (walk_complete (cs ++ [name]) c dir (Fs.Dir es) x Hx).
Qed.

Section Construction.
Context `{Platform} `{OpenCV}.

(** X16: when the constructor of [ImageProcessor] returns, the output path
    names something, and names a directory if it named nothing before (a
    regular file that was there is left there); no regular file has
    changed, nothing has been written to the error stream, the parameters
    are the defaults (5, 1.5, 10, true), and every regular file below the
    input directory whose extension is, in any spelling of upper and lower
    case, one of the six image extensions is in the corpus. *)
Theorem make_image_processor input_dir output_dir verbose this (w w' : world) :
  ImageProcessor.make input_dir output_dir verbose w = (Ok this, w') ->
  Fs.exists_ output_dir (fs w') = true
  /\ (Fs.exists_ output_dir (fs w) = false ->
      exists es, Fs.status output_dir (fs w') = Some (Fs.Dir es))
  /\ (forall q, read_at q (fs w') = read_at q (fs w))
  /\ cerr w' = cerr w
  /\ ImageProcessor.setProcessingParameters 5 1.5%float 10 true this = this
  /\ ImageProcessor.output_dir this = output_dir
  /\ ImageProcessor.verbose this = verbose
  /\ forall cs name content,
       Fs.lookup (Fs.resolve input_dir ++ cs ++ [name]) (fs w') = Some (Fs.File content) ->
       no_slash (chars name) = true ->
       In (ImageProcessor.lowercase (Fs.extension name)) ImageProcessor.extensions ->
       In (join_all input_dir (cs ++ [name])) (ImageProcessor.image_paths this).
Proof.
  unfold ImageProcessor.make, bindA at 1.
  destruct (ensure_directory output_dir w) as [[[]| |] w1] eqn:Hens; try discriminate.
  apply ensure_directory_exists in Hens as (Hex & Hnew & Hframe & Hcout & Hcerr & _).
  unfold ImageProcessor.loadImagePaths, bindA, ret.
  destruct (Fs.recursive_directory_iterator input_dir (fs w1)) as [entries| |] eqn:Hit;
    try discriminate.
  set (this1 := ImageProcessor.set_image_paths _ _).
  intros Hmake.
  assert (Hw' : fs w' = fs w1 /\ cerr w' = cerr w1 /\ this = this1).
  { destruct verbose; cbn in Hmake; injection Hmake as <- <-; auto. }
  destruct Hw' as (Hfs & Hce & ->).
  rewrite Hfs, Hce. repeat split; auto.
  intros cs name content Hlook Hname Hext.
  subst this1. cbn [ImageProcessor.image_paths ImageProcessor.set_image_paths].
  apply in_map_iff. exists (join_all input_dir (cs ++ [name]), Fs.File content).
  split; [reflexivity|]. apply filter_In. split.
  - now apply (iterator_complete _ _ _ _ _ _ Hit).
  - unfold ImageProcessor.is_image. cbn [fst snd Fs.is_regular_file andb].
    rewrite extension_join_all by exact Hname.
    apply existsb_exists. eexists. split; [exact Hext|]. apply String.eqb_refl.
Qed.

(** X17: [loadSignalFiles] changes nothing; every file of the corpus it
    builds has the extension [.csv] spelled so, and every regular file
    below the input directory with that extension is in the corpus. *)
Theorem loadSignalFiles_corpus input_dir this this' (w w' : world) :
  SignalProcessor.loadSignalFiles input_dir this w = (Ok this', w') ->
  w' = w
  /\ (forall p, In p (SignalProcessor.signal_files this') -> Fs.extension p = ".csv"%string)
  /\ forall cs name content,
       Fs.lookup (Fs.resolve input_dir ++ cs ++ [name]) (fs w) = Some (Fs.File content) ->
       no_slash (chars name) = true ->
       Fs.extension name = ".csv"%string ->
       In (join_all input_dir (cs ++ [name])) (SignalProcessor.signal_files this').
Proof.
  unfold SignalProcessor.loadSignalFiles, bindA, ret.
  destruct (Fs.recursive_directory_iterator input_dir (fs w)) as [entries| |] eqn:Hit;
    try discriminate.
  intros [= <- <-]. split; [reflexivity|].
  cbn [SignalProcessor.signal_files SignalProcessor.set_signal_files]. split.
  - intros p Hp. apply in_map_iff in Hp as ([q x] & <- & Hin).
    apply filter_In in Hin as [_ Hcsv]. now apply is_csv_exact in Hcsv.
  - intros cs name content Hlook Hname Hext.
    apply in_map_iff. exists (join_all input_dir (cs ++ [name]), Fs.File content).
    split; [reflexivity|]. apply filter_In. split.
    + now apply (iterator_complete _ _ _ _ _ _ Hit).
    + apply is_csv_exact. split; [reflexivity|].
      now rewrite extension_join_all.
Qed.

End Construction.
(** ** The command line and main *)

Section CommandLineProofs.
Context `{Platform}.

Lemma takes_value_false arg :
  takes_value arg = false ->
  String.eqb arg "--mode" = false /\ String.eqb arg "--input" = false
  /\ String.eqb arg "--output" = false /\ String.eqb arg "--blur" = false
  /\ String.eqb arg "--contrast" = false /\ String.eqb arg "--window" = false
  /\ String.eqb arg "--threshold" = false.
Proof.
  unfold takes_value. cbn [existsb]. intros Hv.
  repeat (apply orb_false_elim in Hv as [? Hv]). repeat split; assumption.
Qed.

(** An argument that is not an option with a value is read on its own. *)
Lemma parse_args_no_value arg rest o :
  takes_value arg = false ->
  parse_args (arg :: rest) o
  = if String.eqb arg "--verbose" then parse_args rest (set_verbose o)
    else if String.eqb arg "--analysis" then parse_args rest (set_run_analysis o)
    else if String.eqb arg "--help" then Help
    else parse_args rest o.
Proof.
  intros Hv. apply takes_value_false in Hv as (H1 & H2 & H3 & H4 & H5 & H6 & H7).
  cbn [parse_args]. rewrite H1, H2, H3, H4, H5, H6, H7.
  now destruct rest.
Qed.

(** An option waiting for its value at the very end is ignored. *)
Lemma parse_args_last arg o :
  takes_value arg = true -> parse_args [arg] o = Run o.
Proof.
  unfold takes_value. cbn [existsb]. intros Hv.
  cbn [parse_args].
  repeat (apply orb_prop in Hv as [Hv|Hv];
          [apply String.eqb_eq in Hv; subst arg; reflexivity|]).
  discriminate.
Qed.

(** An option with its value. *)
Lemma parse_args_value arg value rest o :
  takes_value arg = true ->
  parse_args (arg :: value :: rest) o
  = if String.eqb arg "--mode" then parse_args rest (set_mode value o)
    else if String.eqb arg "--input" then parse_args rest (set_input_dir value o)
    else if String.eqb arg "--output" then parse_args rest (set_output_dir value o)
    else if String.eqb arg "--blur" || String.eqb arg "--window" then
      match Stoi.stoi value with
      | Stoi.Value v =>
          parse_args rest (if String.eqb arg "--blur" then set_blur_size v o
                           else set_window_size v o)
      | Stoi.invalid_argument => Throw (invalid_argument_in "stoi")
      | Stoi.out_of_range => Throw (out_of_range_in "stoi")
      end
    else
      match Stod.stod value with
      | Stod.Value v =>
          parse_args rest (if String.eqb arg "--contrast" then set_contrast v o
                           else set_threshold v o)
      | Stod.invalid_argument => Throw (invalid_argument_in "stod")
      | Stod.out_of_range => Throw (out_of_range_in "stod")
      end.
Proof.
  unfold takes_value. cbn [existsb]. intros Hv.
  repeat (apply orb_prop in Hv as [Hv|Hv];
          [apply String.eqb_eq in Hv; subst arg; reflexivity|]).
  discriminate.
Qed.

Lemma parse_args_app_bounded (n : nat) pre rest o :
  (length pre <= n)%nat -> complete pre = true ->
  parse_args (pre ++ rest) o = and_then (parse_args pre o) (parse_args rest).
Proof.
  revert pre o. induction n as [|n IH]; intros pre o Hlen Hc.
  - destruct pre; [reflexivity | cbn in Hlen; lia].
  - destruct pre as [|arg pre]; [reflexivity|].
    destruct (takes_value arg) eqn:Hv.
    + destruct pre as [|value pre]; [cbn [complete] in Hc; rewrite Hv in Hc; discriminate|].
      cbn [complete] in Hc. rewrite Hv in Hc.
      assert (Hrec : forall o', parse_args (pre ++ rest) o'
                                = and_then (parse_args pre o') (parse_args rest))
        by (intros o'; apply IH; [cbn in Hlen; lia | exact Hc]).
      cbn [app]. rewrite !parse_args_value by exact Hv.
      repeat match goal with
             | |- context [if ?b then _ else _] => destruct b
             end; try apply Hrec.
      * destruct (Stoi.stoi value); [apply Hrec | reflexivity | reflexivity].
      * destruct (Stoi.stoi value); [apply Hrec | reflexivity | reflexivity].
      * destruct (Stod.stod value); [apply Hrec | reflexivity | reflexivity].
      * destruct (Stod.stod value); [apply Hrec | reflexivity | reflexivity].
    + assert (Hc' : complete pre = true).
      { destruct pre as [|value pre]; [reflexivity|].
        cbn [complete] in Hc. now rewrite Hv in Hc. }
      assert (Hrec : forall o', parse_args (pre ++ rest) o'
                                = and_then (parse_args pre o') (parse_args rest))
        by (intros o'; apply IH; [cbn in Hlen; lia | exact Hc']).
      cbn [app]. rewrite !parse_args_no_value by exact Hv.
      repeat match goal with
             | |- context [String.eqb arg ?s] => destruct (String.eqb arg s)
             end; rewrite ?Hrec; reflexivity.
Qed.

(** The arguments are read from left to right: what a complete prefix sets
    is where the rest starts from. *)
Lemma parse_args_app pre rest o :
  complete pre = true ->
  parse_args (pre ++ rest) o = and_then (parse_args pre o) (parse_args rest).
Proof. apply (parse_args_app_bounded (length pre)). lia. Qed.

Lemma parse_args_help post o : parse_args ("--help"%string :: post) o = Help.
Proof. now rewrite parse_args_no_value. Qed.

Lemma parse_args_rejection name value post o e :
  rejection name value = Some e ->
  parse_args (name :: value :: post) o = Throw e.
Proof.
  unfold rejection. intros Hr.
  assert (Hv : takes_value name = true).
  { unfold takes_value. cbn [existsb].
    destruct (String.eqb name "--blur"), (String.eqb name "--window"),
      (String.eqb name "--contrast"), (String.eqb name "--threshold");
      cbn in *; try discriminate; now rewrite ?orb_true_r. }
  rewrite parse_args_value by exact Hv.
  destruct (String.eqb name "--blur" || String.eqb name "--window") eqn:Hint.
  - assert (Hm : String.eqb name "--mode" = false /\ String.eqb name "--input" = false
                 /\ String.eqb name "--output" = false).
    { apply orb_prop in Hint as [Hn|Hn]; apply String.eqb_eq in Hn; subst name;
        repeat split; reflexivity. }
    destruct Hm as (-> & -> & ->).
    destruct (Stoi.stoi value); [discriminate | |]; now injection Hr as <-.
  - destruct (String.eqb name "--contrast" || String.eqb name "--threshold") eqn:Hreal;
      [|discriminate].
    assert (Hm : String.eqb name "--mode" = false /\ String.eqb name "--input" = false
                 /\ String.eqb name "--output" = false).
    { apply orb_prop in Hreal as [Hn|Hn]; apply String.eqb_eq in Hn; subst name;
        repeat split; reflexivity. }
    destruct Hm as (-> & -> & ->).
    destruct (Stod.stod value); [discriminate | |]; now injection Hr as <-.
Qed.

End CommandLineProofs.
Section MainProofs.
Context `{Platform} `{OpenCV}.
Variable cv_what : string.

Lemma print_lines_world lines (w : world) :
  print_lines lines w
  = (Ok tt, {| fs := fs w; ticks := ticks w; cout := cout w ++ lines; cerr := cerr w |}).
Proof.
  revert w. induction lines as [|line lines IH]; intros w; cbn [print_lines].
  - unfold ret. rewrite app_nil_r. now destruct w.
  - unfold bindA, print at 1. rewrite IH. cbn. now rewrite <- app_assoc.
Qed.

(** X18: after complete arguments that raise no exception, [--help] ends
    [main] with exit code 0: the usage text has been printed, the arguments
    after it have not been read and nothing has been processed. *)
Theorem main_help pre post o (w : world) :
  complete pre = true ->
  parse_args pre defaults = Run o ->
  main cv_what (pre ++ "--help"%string :: post) w
  = (Exit 0, {| fs := fs w; ticks := ticks w; cout := cout w ++ usage; cerr := cerr w |}).
Proof.
  intros Hc Hpre. unfold main.
  rewrite parse_args_app, Hpre by exact Hc. cbn [and_then].
  rewrite parse_args_help. unfold print_usage. now rewrite print_lines_world.
Qed.

(** X19: a value of [--blur] or [--window] that [std::stoi] rejects, or of
    [--contrast] or [--threshold] that [std::stod] rejects, is met outside
    the [try] block: nobody catches the exception and the program is
    terminated.  By then only the terminate handler has written, its report
    of the exception to the standard error stream; nothing is on the
    standard output, no file is touched and [main] returns no exit code. *)
Theorem main_rejected_number pre name value post o e (w : world) :
  complete pre = true ->
  parse_args pre defaults = Run o ->
  rejection name value = Some e ->
  main cv_what (pre ++ name :: value :: post) w
  = (Terminate, {| fs := fs w; ticks := ticks w; cout := cout w;
                   cerr := cerr w ++ terminate_report e |}).
Proof.
  intros Hc Hpre Hrej. unfold main.
  rewrite parse_args_app, Hpre by exact Hc. cbn [and_then].
  now rewrite (parse_args_rejection _ _ _ _ _ Hrej).
Qed.

(** X20: with a mode that is neither [image] nor [signal], [main] prints
    the starting line, one error line and the usage text, touches no file
    and returns 1. *)
Theorem main_invalid_mode args o (w : world) :
  parse_args args defaults = Run o ->
  mode o <> "image"%string -> mode o <> "signal"%string ->
  main cv_what args w
  = (Exit 1,
     {| fs := fs w; ticks := ticks w;
        cout := cout w ++ ("Starting processing in " ++ mode o ++ " mode")%string :: usage;
        cerr := cerr w ++ ["Error: Invalid mode. Use 'image' or 'signal'."%string] |}).
Proof.
  intros Hargs Himage Hsignal. unfold main. rewrite Hargs.
  apply String.eqb_neq in Himage, Hsignal. rewrite Himage, Hsignal.
  unfold print_usage, bindA, eprint, print. rewrite print_lines_world.
  cbn. now rewrite <- app_assoc.
Qed.


End MainProofs.
Section MainExit.
Context `{Platform} `{OpenCV}.
Variable cv_what : string.

Lemma finish_exit r code (w' : world) :
  finish cv_what r = (Exit code, w') ->
  (code = 0 /\ exists lines, cout w' = lines ++ ["Processing completed successfully"%string])
  \/ (code = 1 /\ exists lines what, cerr w' = lines ++ [("Error: " ++ what)%string]).
Proof.
  destruct r as [[[]|f|] w2]; cbn [finish].
  - intros [= <- <-]. left. split; [reflexivity|]. now exists (cout w2).
  - destruct f; try discriminate; intros [= <- <-]; right; (split; [reflexivity|]);
      exists (cerr w2); eexists; reflexivity.
  - discriminate.
Qed.

(** X22: [main] returns 0 or 1.  When it returns 0, the usage text or the
    line that reports success is the last thing printed; when it returns 1,
    the last line of the error stream starts with [Error: ]. *)
Theorem main_exit_codes args code (w w' : world) :
  main cv_what args w = (Exit code, w') ->
  (code = 0 /\ (cout w' = cout w ++ usage
                \/ exists lines, cout w' = lines ++ ["Processing completed successfully"%string]))
  \/ (code = 1 /\ exists lines what, cerr w' = lines ++ [("Error: " ++ what)%string]).
Proof.
  unfold main. destruct (parse_args args defaults) as [o| |].
  - destruct (String.eqb (mode o) "image");
      [|destruct (String.eqb (mode o) "signal")].
    + intros Hf. apply finish_exit in Hf as [[-> Hl]|Hr]; [left|right]; auto.
    + intros Hf. apply finish_exit in Hf as [[-> Hl]|Hr]; [left|right]; auto.
    + unfold print_usage, bindA, eprint, print. rewrite print_lines_world.
      cbn. intros [= <- <-]. right. split; [reflexivity|].
      exists (cerr w), "Invalid mode. Use 'image' or 'signal'."%string. reflexivity.
  - unfold print_usage. rewrite print_lines_world. cbn.
    intros [= <- <-]. left. split; [reflexivity|]. now left.
  - discriminate.
Qed.

End MainExit.

Section FirstLine.
Context `{Platform}.
Import SignalProcessor.

Lemma getlines_app cur l1 l2 :
  forallb (fun c => negb (Ascii.eqb c "010"%char)) l1 = true ->
  getlines cur (l1 ++ "010"%char :: l2) = text (rev cur ++ l1) :: getlines [] l2.
Proof.
  revert cur. induction l1 as [|c l1 IH]; intros cur Hl; cbn in *.
  - now rewrite app_nil_r.
  - apply andb_prop in Hl as [Hc Hl].
    destruct (Ascii.eqb c "010"); [discriminate|].
    rewrite IH by exact Hl. cbn. now rewrite <- app_assoc.
Qed.

(** X23: the first line of a signal file gives no sample, whatever it
    holds: the samples are those of the lines after it. *)
Theorem first_line_is_dropped (first rest : string) :
  one_line first = true ->
  read_samples (tl (getlines [] (chars (first ++ String "010"%char rest))))
  = read_samples (getlines [] (chars rest)).
Proof.
  intros Hfirst. rewrite chars_append.
  change (chars (String "010"%char rest)) with ("010"%char :: chars rest).
  now rewrite getlines_app.
Qed.

End FirstLine.

(** *** Writing into a directory *)

Lemma put_free_or_file p c n n' a :
  Fs.put p c n = Some n' -> free_or_file a n = true -> free_or_file a n' = true.
Proof.
  revert n n' a. induction p as [|b p IH]; intros n n' a Hput.
  - destruct n; discriminate.
  - destruct (put_dir _ _ _ _ Hput) as (es & es' & -> & ->).
    destruct a as [|x a]; [auto|].
    unfold free_or_file. cbn [Fs.lookup].
    destruct p as [|b' p].
    + cbn in Hput.
      destruct (Fs.assoc b es) as [[| |]|] eqn:Hb; try discriminate;
        injection Hput as <-; auto;
        (destruct (String.eqb_spec x b) as [->|Hxb];
         [ rewrite assoc_set_entry, Hb; now destruct a
         | now rewrite assoc_set_entry_other ]).
    + rewrite put_cons in Hput.
      destruct (Fs.assoc b es) as [y|] eqn:Hb; [|discriminate].
      destruct (Fs.put (b' :: p) c y) as [y'|] eqn:Hy; [|discriminate].
      injection Hput as <-.
      destruct (String.eqb_spec x b) as [->|Hxb].
      * rewrite assoc_set_entry, Hb. apply (IH _ _ a Hy).
      * now rewrite assoc_set_entry_other.
Qed.

(** A file can be written into a directory where nothing, or a regular
    file, has its name. *)
Lemma put_new q f c n :
  is_dir q n = true -> free_or_file (q ++ [f]) n = true ->
  exists n', Fs.put (q ++ [f]) c n = Some n' /\ read_at (q ++ [f]) n' = Some c.
Proof.
  revert n. induction q as [|b q IH]; intros n Hq Hf.
  - unfold is_dir in Hq. cbn in Hq. destruct n as [|es|]; try discriminate.
    unfold free_or_file in Hf. cbn in Hf. cbn.
    destruct (Fs.assoc f es) as [[| |]|] eqn:Ha; try discriminate;
      (eexists; split; [reflexivity|]; now rewrite read_at_cons, assoc_set_entry).
  - unfold is_dir in Hq. cbn [Fs.lookup] in Hq.
    destruct n as [|es|]; try discriminate.
    destruct (Fs.assoc b es) as [y|] eqn:Hb; [|discriminate].
    unfold free_or_file in Hf. cbn [app Fs.lookup] in Hf. rewrite Hb in Hf.
    destruct (IH y Hq Hf) as (y' & Hy' & Hr).
    exists (Fs.Dir (Fs.set_entry b y' es)). split.
    + cbn [app]. destruct (q ++ [f]) as [|b' r] eqn:Hqf; [now destruct q|].
      now rewrite put_cons, Hb, Hy'.
    + cbn [app]. now rewrite read_at_cons, assoc_set_entry.
Qed.

Lemma locate_from_app root acc cs1 cs2 :
  Fs.locate_from root acc (cs1 ++ cs2)
  = match Fs.locate_from root acc cs1 with
    | Some q => Fs.locate_from root q cs2
    | None => None
    end.
Proof.
  revert acc. induction cs1 as [|c cs1 IH]; intros acc; cbn; [reflexivity|].
  destruct (Fs.lookup acc root) as [[| |]|]; auto.
Qed.

Lemma places_from_app acc cs1 cs2 :
  Fs.places_from acc (cs1 ++ cs2)
  = Fs.places_from acc cs1 ++ Fs.places_from (fold_left Fs.step cs1 acc) cs2.
Proof.
  revert acc. induction cs1 as [|c cs1 IH]; intros acc; cbn; [reflexivity|].
  now rewrite IH.
Qed.

(** The components of [dir/name]. *)
Lemma split_slash_child dir name :
  no_slash (chars name) = true ->
  Fs.split_slash [] (chars (dir ++ "/" ++ name))
  = Fs.split_slash [] (chars dir) ++ [name].
Proof.
  intros Hname. rewrite chars_append.
  change (chars ("/" ++ name)) with ("/"%char :: chars name).
  rewrite split_slash_app, (split_slash_one [] (chars name) Hname).
  cbn. now rewrite text_chars.
Qed.

Lemma append_not_empty (a b : string) : (a ++ "/" ++ b)%string <> ""%string.
Proof. destruct a; discriminate. Qed.

(** In a directory, a name leads one step further. *)
Lemma locate_child dir name root :
  names_directory dir root = true ->
  no_slash (chars name) = true ->
  Fs.locate (dir ++ "/" ++ name) root = Some (Fs.step (Fs.resolve dir) name).
Proof.
  unfold names_directory, Fs.status. intros Hdir Hname.
  destruct (Fs.locate dir root) as [q|] eqn:Hq; [|discriminate].
  pose proof (locate_resolve _ _ _ Hq) as ->.
  unfold Fs.locate in *.
  destruct (String.eqb_spec (dir ++ "/" ++ name) "") as [E|_];
    [now apply append_not_empty in E|].
  destruct (String.eqb dir ""); [discriminate|].
  rewrite split_slash_child, locate_from_app, Hq by exact Hname.
  cbn. now destruct (Fs.lookup (Fs.resolve dir) root) as [[| |]|].
Qed.

Lemma places_child dir name :
  no_slash (chars name) = true ->
  Fs.places (dir ++ "/" ++ name) = Fs.places dir ++ [Fs.step (Fs.resolve dir) name].
Proof.
  intros Hname. unfold Fs.places.
  now rewrite split_slash_child, places_from_app by exact Hname.
Qed.

(** The places on the way to something that is there are there. *)
Lemma locate_from_places root acc cs q :
  Fs.locate_from root acc cs = Some q -> Fs.lookup q root <> None ->
  forall a, In a (Fs.places_from acc cs) -> Fs.lookup a root <> None.
Proof.
  revert acc. induction cs as [|c cs IH]; intros acc Hwalk Hq a Ha; [contradiction|].
  cbn [Fs.locate_from] in Hwalk.
  destruct (Fs.lookup acc root) as [[| es |]|]; try discriminate.
  destruct Ha as [<-|Ha]; [|now apply (IH _ Hwalk Hq)].
  destruct cs as [|c' cs].
  - cbn in Hwalk. now injection Hwalk as <-.
  - cbn [Fs.locate_from] in Hwalk.
    destruct (Fs.lookup (Fs.step acc c) root) as [[| |]|]; discriminate.
Qed.

Lemma set_entry_same c x es : Fs.assoc c es = Some x -> Fs.set_entry c x es = es.
Proof.
  induction es as [|[n y] es IH]; cbn; [discriminate|].
  destruct (String.eqb_spec n c) as [->|_].
  - now intros [= ->].
  - intros Hc. now rewrite IH.
Qed.

(** *** Directories that are there *)

Lemma names_directory_kept root root' p :
  (forall a, is_dir a root' = is_dir a root) ->
  names_directory p root' = names_directory p root.
Proof.
  intros Hdir. unfold names_directory, Fs.status.
  rewrite (locate_directories root root' p Hdir).
  destruct (Fs.locate p root) as [q|]; [|reflexivity].
  specialize (Hdir q). unfold is_dir in Hdir.
  destruct (Fs.lookup q root') as [[| |]|], (Fs.lookup q root) as [[| |]|];
    try discriminate; reflexivity.
Qed.

Lemma names_directory_is_dir p root :
  names_directory p root = true ->
  Fs.locate p root = Some (Fs.resolve p) /\ is_dir (Fs.resolve p) root = true.
Proof.
  unfold names_directory, Fs.status.
  destruct (Fs.locate p root) as [q|] eqn:Hq; [|discriminate].
  rewrite (locate_resolve _ _ _ Hq). unfold is_dir.
  destruct (Fs.lookup (Fs.resolve p) root) as [[| |]|]; try discriminate. now split.
Qed.

Lemma mkdirs_existing q n : is_dir q n = true -> Fs.mkdirs q n = Some n.
Proof.
  revert n. induction q as [|c q IH]; intros n Hq; unfold is_dir in Hq.
  - cbn in Hq. destruct n; try discriminate. reflexivity.
  - cbn [Fs.lookup] in Hq. destruct n as [|es|]; try discriminate.
    cbn. destruct (Fs.assoc c es) as [x|] eqn:Hc; [|discriminate].
    rewrite (IH x Hq). now rewrite set_entry_same.
Qed.

Lemma mkdirs_child q s n :
  is_dir q n = true -> Fs.lookup (q ++ [s]) n = None ->
  exists n', Fs.mkdirs (q ++ [s]) n = Some n'.
Proof.
  revert n. induction q as [|a q IH]; intros n Hq Hs; unfold is_dir in Hq.
  - cbn in Hq. destruct n as [|es|]; try discriminate. cbn in *.
    destruct (Fs.assoc s es) as [x|]; [discriminate|]. eauto.
  - cbn [Fs.lookup app] in *. destruct n as [|es|]; try discriminate.
    destruct (Fs.assoc a es) as [x|] eqn:Ha; [|discriminate].
    destruct (IH x Hq Hs) as [x' Hx']. cbn. rewrite Ha, Hx'. eauto.
Qed.

Lemma make_all_existing qs n :
  (forall a, In a qs -> is_dir a n = true) -> Fs.make_all qs n = Some n.
Proof.
  induction qs as [|q qs IH]; intros Hqs; cbn; [reflexivity|].
  rewrite mkdirs_existing by (apply Hqs; now left).
  apply IH. intros a Ha. apply Hqs. now right.
Qed.

Lemma make_all_app qs1 qs2 n :
  Fs.make_all (qs1 ++ qs2) n
  = match Fs.make_all qs1 n with
    | Some n1 => Fs.make_all qs2 n1
    | None => None
    end.
Proof.
  revert n. induction qs1 as [|q qs1 IH]; intros n; cbn; [reflexivity|].
  destruct (Fs.mkdirs q n); auto.
Qed.

(** The places on the way to a directory are directories. *)
Lemma locate_from_dirs root acc cs q :
  Fs.locate_from root acc cs = Some q -> is_dir q root = true ->
  forall a, In a (Fs.places_from acc cs) -> is_dir a root = true.
Proof.
  revert acc. induction cs as [|c cs IH]; intros acc Hwalk Hq a Ha; [contradiction|].
  cbn [Fs.locate_from] in Hwalk.
  destruct (Fs.lookup acc root) as [[| es |]|]; try discriminate.
  destruct Ha as [<-|Ha]; [|now apply (IH _ Hwalk Hq)].
  destruct cs as [|c' cs].
  - cbn in Hwalk. now injection Hwalk as <-.
  - cbn [Fs.locate_from] in Hwalk. unfold is_dir.
    destruct (Fs.lookup (Fs.step acc c) root) as [[| |]|]; try discriminate. reflexivity.
Qed.

Lemma places_dirs p root :
  names_directory p root = true ->
  forall a, In a (Fs.places p) -> is_dir a root = true.
Proof.
  intros Hp. destruct (names_directory_is_dir _ _ Hp) as [Hq Hd].
  unfold Fs.locate in Hq. destruct (String.eqb p ""); [discriminate|].
  exact (locate_from_dirs _ _ _ _ Hq Hd).
Qed.

(** A walk that arrives still arrives when directories were added. *)
Lemma locate_from_more root root' acc cs q :
  (forall a, is_dir a root = true -> is_dir a root' = true) ->
  Fs.locate_from root acc cs = Some q -> Fs.locate_from root' acc cs = Some q.
Proof.
  intros Hdir. revert acc. induction cs as [|c cs IH]; intros acc; cbn; [auto|].
  specialize (Hdir acc). unfold is_dir in Hdir. intros Hwalk.
  destruct (Fs.lookup acc root) as [[| es |]|]; try discriminate.
  specialize (Hdir eq_refl).
  destruct (Fs.lookup acc root') as [[| |]|]; try discriminate. now apply IH.
Qed.

(** What is read at a path name is still read there after directories
    were made. *)
Lemma make_all_read qs n n' p content :
  Fs.make_all qs n = Some n' ->
  Fs.read p n = Some content -> Fs.read p n' = Some content.
Proof.
  intros Hmk. rewrite !read_locate.
  destruct (Fs.locate p n) as [q|] eqn:Hq; [|discriminate].
  assert (Hq' : Fs.locate p n' = Some q).
  { unfold Fs.locate in *. destruct (String.eqb p ""); [discriminate|].
    apply (locate_from_more n n'); [|exact Hq].
    intros a. apply (make_all_directories _ _ _ _ Hmk). }
  rewrite Hq'. now rewrite (make_all_frame _ _ _ q Hmk).
Qed.

Lemma make_all_names_directory qs n n' p :
  Fs.make_all qs n = Some n' ->
  names_directory p n = true -> names_directory p n' = true.
Proof.
  intros Hmk Hp. destruct (names_directory_is_dir _ _ Hp) as [Hq Hd].
  unfold names_directory, Fs.status.
  assert (Hq' : Fs.locate p n' = Some (Fs.resolve p)).
  { unfold Fs.locate in *. destruct (String.eqb p ""); [discriminate|].
    apply (locate_from_more n n'); [|exact Hq].
    intros a. apply (make_all_directories _ _ _ _ Hmk). }
  rewrite Hq'. apply (make_all_directories _ _ _ _ Hmk) in Hd.
  unfold is_dir in Hd. now destruct (Fs.lookup _ n') as [[| |]|].
Qed.

(** *** Actions that put files only where files can be *)

Lemma keeps_free_pure {A} (m : action A) :
  (forall w, fs (snd (m w)) = fs w) -> keeps_free m.
Proof. intros Hm w a. now rewrite Hm. Qed.

Lemma keeps_free_bind {A B} (m : action A) (k : A -> action B) :
  keeps_free m -> (forall a, keeps_free (k a)) -> keeps_free (bindA m k).
Proof.
  intros Hm Hk w a Ha. unfold bindA.
  specialize (Hm w a Ha).
  destruct (m w) as [[x| |] w1]; cbn [snd] in *; try exact Hm.
  now apply (Hk x w1 a).
Qed.

Lemma keeps_free_when (b : bool) (m : action unit) :
  keeps_free m -> keeps_free (when b m).
Proof.
  intros Hm. destruct b; [exact Hm|]. now apply keeps_free_pure.
Qed.

Lemma keeps_free_imwrite `{OpenCV} path (m : Mat) : keeps_free (imwrite path m).
Proof.
  intros w a Ha. unfold imwrite.
  destruct (Fs.write _ _ _) as [root'|] eqn:Hput; [|exact Ha].
  cbn. apply write_put in Hput. now apply (put_free_or_file _ _ _ _ _ Hput).
Qed.

Lemma removelast_length {A} (l : list A) : (length (removelast l) <= length l)%nat.
Proof. induction l as [|a l IH]; cbn; [lia|]. destruct l; cbn in *; lia. Qed.

Lemma step_proper_inj acc name other :
  proper_name name = true -> Fs.step acc name = Fs.step acc other -> name = other.
Proof.
  intros Hname E. rewrite (step_proper _ _ Hname) in E.
  destruct (step_cases acc other) as [E'|[E'|E']]; rewrite E' in E.
  - apply (f_equal (@length _)) in E. rewrite length_app in E. cbn in E. lia.
  - apply (f_equal (@length _)) in E. rewrite length_app in E. cbn in E.
    pose proof (removelast_length acc) as Hr. lia.
  - now apply app_last_inj in E.
Qed.

(** ** The files of a sweep *)

Section Sweep.
Context `{Platform} `{OpenCV}.
Import ImageProcessor.

Lemma keeps_directories_processImage image_path this :
  keeps_directories (processImage image_path this).
Proof.
  unfold processImage. apply keeps_directories_bind; [now apply keeps_directories_pure|].
  intros [image|]; [|now apply keeps_directories_pure].
  apply keeps_directories_bind; [now apply keeps_directories_pure|]. intros blurred.
  apply keeps_directories_bind; [apply keeps_directories_imwrite|]. intros _.
  apply keeps_directories_when. now apply keeps_directories_pure.
Qed.

Lemma keeps_free_processImage image_path this :
  keeps_free (processImage image_path this).
Proof.
  unfold processImage. apply keeps_free_bind; [now apply keeps_free_pure|].
  intros [image|]; [|now apply keeps_free_pure].
  apply keeps_free_bind; [now apply keeps_free_pure|]. intros blurred.
  apply keeps_free_bind; [apply keeps_free_imwrite|]. intros _.
  apply keeps_free_when. now apply keeps_free_pure.
Qed.

Lemma keeps_directories_process_from this i paths :
  keeps_directories (process_from this i paths).
Proof.
  revert i. induction paths as [|image_path paths IH]; intros i; cbn [process_from].
  - now apply keeps_directories_pure.
  - apply keeps_directories_bind; [apply keeps_directories_processImage|]. intros _.
    apply keeps_directories_bind.
    + apply keeps_directories_when. now apply keeps_directories_pure.
    + intros _. apply IH.
Qed.

Lemma keeps_directories_processAllImages this :
  keeps_directories (processAllImages this).
Proof.
  unfold processAllImages.
  apply keeps_directories_bind; [now apply keeps_directories_pure|]. intros start.
  apply keeps_directories_bind; [apply keeps_directories_process_from|]. intros _.
  apply keeps_directories_bind; [now apply keeps_directories_pure|]. intros stop.
  apply keeps_directories_bind; [now apply keeps_directories_pure|]. intros _.
  now apply keeps_directories_pure.
Qed.

(** In a directory that is there, [processImage] writes the processed form
    of an image that decodes under the image's own file name, where nothing
    or a regular file has that name. *)
Lemma processImage_writes this p image blurred (w : world) :
  names_directory (output_dir this) (fs w) = true ->
  decoded p (fs w) = Some image ->
  GaussianBlur image (blur_size this) = Ok blurred ->
  proper_name (Fs.filename p) = true ->
  free_or_file (Fs.resolve (output_dir this) ++ [Fs.filename p]) (fs w) = true ->
  let output_path := (output_dir this ++ "/" ++ Fs.filename p)%string in
  exists w',
    processImage p this w = (Ok tt, w')
    /\ Fs.read output_path (fs w')
       = Some (imencode output_path (processed_image this blurred)).
Proof.
  intros Hout Hdec Hblur Hname Hfree output_path.
  unfold processImage, bindA, imread. unfold decoded in Hdec. rewrite Hdec.
  unfold lift. rewrite Hblur. fold output_path.
  fold (processed_image this blurred).
  destruct (names_directory_is_dir _ _ Hout) as [_ Hd].
  pose proof (locate_child _ (Fs.filename p) _ Hout (filename_no_slash p)) as Hloc.
  rewrite (step_proper _ _ Hname) in Hloc. fold output_path in Hloc.
  destruct (put_new _ _ (imencode output_path (processed_image this blurred)) _ Hd Hfree)
    as (root' & Hput & Hback).
  unfold imwrite, Fs.write. rewrite Hloc, Hput.
  assert (Hafter : Fs.read output_path root'
                   = Some (imencode output_path (processed_image this blurred))).
  { now rewrite read_locate, (put_locate _ _ _ _ output_path Hput), Hloc. }
  unfold when. destruct (verbose this); eexists; split; try reflexivity; exact Hafter.
Qed.

Lemma not_target dir name paths :
  proper_name name = true ->
  (forall p, In p paths -> Fs.filename p <> name) ->
  ~ targets dir paths (Fs.resolve (dir ++ "/" ++ name)).
Proof.
  intros Hname Hother (p & Hp & E).
  rewrite !resolve_child in E
    by (apply filename_no_slash || now apply proper_name_no_slash).
  apply step_proper_inj in E; [|exact Hname].
  now apply (Hother p Hp).
Qed.

(** The loop of [processAllImages] leaves in the output directory the
    processed form of every image that decodes when its turn comes, if no
    later image of the corpus has the same file name. *)
Lemma images_from_write this p image blurred after :
  GaussianBlur image (blur_size this) = Ok blurred ->
  proper_name (Fs.filename p) = true ->
  (forall p', In p' after -> Fs.filename p' <> Fs.filename p) ->
  let output_path := (output_dir this ++ "/" ++ Fs.filename p)%string in
  forall before i (w w' : world),
    names_directory (output_dir this) (fs w) = true ->
    decoded p (fs w) = Some image ->
    free_or_file (Fs.resolve (output_dir this) ++ [Fs.filename p]) (fs w) = true ->
    (forall p', In p' before ->
                Fs.resolve (output_dir this ++ "/" ++ Fs.filename p') <> Fs.resolve p) ->
    process_from this i (before ++ p :: after) w = (Ok tt, w') ->
    Fs.read output_path (fs w')
    = Some (imencode output_path (processed_image this blurred)).
Proof.
  intros Hblur Hname Hafter output_path.
  induction before as [|p0 before IH]; intros i w w' Hout Hdec Hfree Hbefore Hrun;
    cbn [app process_from] in Hrun;
    apply bindA_ok in Hrun as ([] & w1 & Hp & Hrun);
    apply bindA_ok in Hrun as ([] & w2 & Hprint & Hrun);
    destruct (when_print (verbose this && (Size.add i 1 mod 10 =? 0))
                (("Progress: " ++ to_string (Size.add i 1) ++ "/"
                               ++ to_string (size (image_paths this)))%string) w1)
      as (w2' & Hprint' & Hfs & _);
    rewrite Hprint' in Hprint; injection Hprint as <-.
  - destruct (processImage_writes this p image blurred w Hout Hdec Hblur Hname Hfree)
      as (w1' & Hp' & Hread).
    rewrite Hp' in Hp. injection Hp as <-.
    fold output_path in Hread. rewrite <- Hfs in Hread. rewrite <- Hread.
    change w' with (snd (Ok tt, w')). rewrite <- Hrun.
    apply (read_kept (targets (output_dir this) after)).
    + apply keeps_directories_process_from.
    + apply writes_only_process_from.
    + now apply not_target.
  - pose proof (keeps_directories_processImage p0 this w) as Hdirs.
    pose proof (keeps_free_processImage p0 this w) as Hfrees.
    rewrite Hp in Hdirs, Hfrees. cbn [snd] in Hdirs, Hfrees.
    apply (IH (Size.add i 1) w2' w'); rewrite ?Hfs.
    + now rewrite (names_directory_kept (fs w) (fs w1)).
    + unfold decoded. change w1 with (snd (Ok tt, w1)). rewrite <- Hp.
      rewrite (read_kept (eq (Fs.resolve (output_dir this ++ "/" ++ Fs.filename p0)))).
      * exact Hdec.
      * apply keeps_directories_processImage.
      * apply writes_only_processImage.
      * apply Hbefore. now left.
    + now apply Hfrees.
    + intros p' Hp'. apply Hbefore. now right.
    + exact Hrun.
Qed.

Lemma processAllImages_write this before p after image blurred (w w' : world) :
  image_paths this = before ++ p :: after ->
  GaussianBlur image (blur_size this) = Ok blurred ->
  proper_name (Fs.filename p) = true ->
  (forall p', In p' after -> Fs.filename p' <> Fs.filename p) ->
  names_directory (output_dir this) (fs w) = true ->
  decoded p (fs w) = Some image ->
  free_or_file (Fs.resolve (output_dir this) ++ [Fs.filename p]) (fs w) = true ->
  (forall p', In p' before ->
              Fs.resolve (output_dir this ++ "/" ++ Fs.filename p') <> Fs.resolve p) ->
  processAllImages this w = (Ok tt, w') ->
  let output_path := (output_dir this ++ "/" ++ Fs.filename p)%string in
  Fs.read output_path (fs w') = Some (imencode output_path (processed_image this blurred)).
Proof.
  intros Hpaths Hblur Hname Hafter Hout Hdec Hfree Hbefore Hrun output_path.
  unfold processAllImages in Hrun.
  apply bindA_ok in Hrun as (start & w0 & Hstart & Hrun).
  apply bindA_ok in Hrun as ([] & w1 & Hloop & Hrun).
  apply bindA_ok in Hrun as (stop & w2 & Hstop & Hrun).
  apply bindA_ok in Hrun as ([] & w3 & Hprint & Hrun).
  injection Hstart as _ <-. injection Hstop as _ <-. injection Hprint as <-.
  injection Hrun as <-. cbn [fs]. rewrite Hpaths in Hloop.
  pose proof (images_from_write this p image blurred after Hblur Hname Hafter) as Hwrite.
  cbv zeta in Hwrite. refine (Hwrite before 0 _ w1 _ _ _ Hbefore Hloop); assumption.
Qed.

End Sweep.

(** *** The directory of a cell *)

Lemma ensure_directory_read dir p content (w : world) :
  Fs.read p (fs w) = Some content ->
  Fs.read p (fs (snd (ensure_directory dir w))) = Some content.
Proof.
  intros Hread. unfold ensure_directory, Fs.create_directories.
  destruct (Fs.exists_ dir (fs w)); [exact Hread|].
  destruct (String.eqb dir ""); [exact Hread|].
  destruct (Fs.make_all (Fs.places dir) (fs w)) as [root'|] eqn:Hmk; [|exact Hread].
  cbn. now apply (make_all_read _ _ _ _ _ Hmk).
Qed.

(** In a directory that is there, a directory of a proper name is there
    or is made, unless something else has the name; what could take a file
    in it before can take it afterwards. *)
Lemma ensure_directory_child dir name (w : world) :
  names_directory dir (fs w) = true ->
  proper_name name = true ->
  takes_directory (dir ++ "/" ++ name) (fs w) = true ->
  exists w',
    ensure_directory (dir ++ "/" ++ name) w = (Ok tt, w')
    /\ names_directory (dir ++ "/" ++ name) (fs w') = true
    /\ names_directory dir (fs w') = true
    /\ (forall f, proper_name f = true ->
                  takes_file ((dir ++ "/" ++ name) ++ "/" ++ f) (fs w) = true ->
                  free_or_file (Fs.resolve (dir ++ "/" ++ name) ++ [f]) (fs w') = true).
Proof.
  intros Hout Hname Htakes.
  destruct (names_directory_is_dir _ _ Hout) as [Hloc Hd].
  pose proof (locate_child dir name _ Hout (proper_name_no_slash _ Hname)) as Hc.
  rewrite (step_proper _ _ Hname) in Hc.
  pose proof (locate_resolve _ _ _ Hc) as HR.
  set (cdir := (dir ++ "/" ++ name)%string) in *.
  assert (Hfree : forall f, proper_name f = true ->
                            takes_file (cdir ++ "/" ++ f) (fs w) = true ->
                            free_or_file (Fs.resolve cdir ++ [f]) (fs w) = true).
  { intros f Hf Ht. unfold free_or_file. rewrite lookup_app.
    unfold takes_directory, Fs.status in Htakes. rewrite Hc, HR in Htakes.
    destruct (Fs.lookup (Fs.resolve cdir) (fs w)) as [[| es |]|] eqn:Hl;
      try discriminate; [|reflexivity].
    assert (Hcdir : names_directory cdir (fs w) = true).
    { unfold names_directory, Fs.status. now rewrite Hc, HR, Hl. }
    pose proof (locate_child cdir f _ Hcdir (proper_name_no_slash _ Hf)) as Hf'.
    rewrite (step_proper _ _ Hf) in Hf'.
    unfold takes_file, Fs.status in Ht. rewrite Hf', lookup_app, Hl in Ht. exact Ht. }
  destruct (Fs.exists_ cdir (fs w)) eqn:Hex.
  - exists w. unfold ensure_directory. rewrite Hex.
    repeat split; try assumption.
    unfold names_directory. unfold takes_directory in Htakes. unfold Fs.exists_ in Hex.
    destruct (Fs.status cdir (fs w)) as [[| |]|]; try discriminate; reflexivity.
  - assert (Hnone : Fs.lookup (Fs.resolve cdir) (fs w) = None).
    { unfold Fs.exists_, Fs.status in Hex. rewrite Hc, HR in Hex.
      now destruct (Fs.lookup (Fs.resolve cdir) (fs w)). }
    destruct (mkdirs_child (Fs.resolve dir) name (fs w) Hd) as [root' Hmk];
      [now rewrite HR|].
    assert (Hall : Fs.make_all (Fs.places cdir) (fs w) = Some root').
    { unfold cdir. rewrite places_child by now apply proper_name_no_slash.
      rewrite (step_proper _ _ Hname), make_all_app.
      rewrite make_all_existing by now apply places_dirs.
      cbn. now rewrite Hmk. }
    assert (Hrun : ensure_directory cdir w = (Ok tt, with_fs (fun _ => root') w)).
    { unfold ensure_directory, Fs.create_directories. rewrite Hex, Hall.
      destruct (String.eqb_spec cdir "") as [E|_]; [|reflexivity].
      now apply append_not_empty in E. }
    exists (with_fs (fun _ => root') w). split; [exact Hrun|].
    destruct (ensure_directory_exists _ _ _ Hrun) as (_ & Hdir & _).
    destruct (Hdir Hex) as [es Hes]. cbn [with_fs fs] in *.
    split; [unfold names_directory; now rewrite Hes|].
    split; [now apply (make_all_names_directory _ _ _ _ Hall)|].
    intros f Hf Ht. unfold free_or_file.
    rewrite (mkdirs_lookup_none _ _ _ (Fs.resolve cdir ++ [f]) Hmk); [reflexivity| |].
    + now rewrite lookup_app, Hnone.
    + intros rest E. rewrite HR in E. apply (f_equal (@length _)) in E.
      rewrite !length_app in E. cbn in E. lia.
Qed.

Section SweepCells.
Context `{Platform} `{OpenCV}.
Import ImageProcessor.

Lemma param_dir_child output_dir blur contrast dir :
  param_dir output_dir blur contrast = Ok dir ->
  exists name, proper_name name = true /\ dir = (output_dir ++ "/" ++ name)%string.
Proof.
  intros Hdir. apply param_dir_name in Hdir as (k & _ & ->).
  exists ("blur" ++ to_string blur ++ "_contrast" ++ to_string k)%string.
  split; [apply subdir_proper | reflexivity].
Qed.

Lemma batch_cell_run blur contrast this dir (w w1 : world) :
  param_dir (output_dir this) blur contrast = Ok dir ->
  ensure_directory dir w = (Ok tt, w1) ->
  (forall image, exists blurred, GaussianBlur image blur = Ok blurred) ->
  let cell := set_output_dir dir
                (setProcessingParameters blur contrast (contrast_beta this)
                                         (apply_edge_detection this) this) in
  exists w2 w',
    fs w2 = fs w1
    /\ processAllImages cell w2 = (Ok tt, w')
    /\ batch_cell blur contrast this w = (Ok (set_output_dir (output_dir this) cell), w').
Proof.
  intros Hdir Hens Hblur cell.
  unfold batch_cell. rewrite Hdir.
  unfold bindA at 1. unfold lift. unfold bindA at 1. rewrite Hens.
  fold cell. unfold bindA at 1.
  destruct (when_print (verbose cell)
              (("Processing with blur=" ++ to_string blur ++ ", contrast="
                                        ++ put_double contrast)%string) w1)
    as (w2 & Hprint & Hfs & _).
  change (verbose
            (set_output_dir dir
               (setProcessingParameters blur contrast (contrast_beta this)
                  (apply_edge_detection this) this))) with (verbose cell).
  rewrite Hprint. exists w2.
  assert (Hall : exists w', processAllImages cell w2 = (Ok tt, w')).
  { unfold processAllImages, bindA, now.
    set (w3 := {| fs := fs w2; ticks := S (ticks w2); cout := cout w2; cerr := cerr w2 |}).
    destruct (never_faults_process_from cell 0 (image_paths cell) Hblur w3) as [[] Hloop].
    destruct (process_from cell 0 (image_paths cell) w3) as [r w4]. cbn in Hloop. subst r.
    eexists. reflexivity. }
  destruct Hall as [w' Hall]. exists w'.
  split; [exact Hfs|]. split; [exact Hall|].
  unfold bindA. now rewrite Hall.
Qed.

(** What a cell of the sweep does. *)
Lemma batch_cell_writes this blur contrast dir (w : world) :
  param_dir (output_dir this) blur contrast = Ok dir ->
  names_directory (output_dir this) (fs w) = true ->
  takes_directory dir (fs w) = true ->
  (forall image, exists blurred, GaussianBlur image blur = Ok blurred) ->
  exists this' w',
    batch_cell blur contrast this w = (Ok this', w')
    /\ names_directory dir (fs w') = true
    /\ names_directory (output_dir this) (fs w') = true
    /\ forall before p after image,
        image_paths this = before ++ p :: after ->
        decoded p (fs w) = Some image ->
        proper_name (Fs.filename p) = true ->
        takes_file (dir ++ "/" ++ Fs.filename p) (fs w) = true ->
        (forall p', In p' before ->
                    Fs.resolve (dir ++ "/" ++ Fs.filename p') <> Fs.resolve p) ->
        (forall p', In p' after -> Fs.filename p' <> Fs.filename p) ->
        exists blurred,
          GaussianBlur image blur = Ok blurred
          /\ Fs.read (dir ++ "/" ++ Fs.filename p) (fs w')
             = Some (imencode (dir ++ "/" ++ Fs.filename p)
                       (processed_image
                          (setProcessingParameters blur contrast (contrast_beta this)
                                                   (apply_edge_detection this) this)
                          blurred)).
Proof.
  intros Hdir Hout Htakes Hblur.
  destruct (param_dir_child _ _ _ _ Hdir) as (name & Hname & ->).
  destruct (ensure_directory_child _ _ w Hout Hname Htakes)
    as (w1 & Hens & Hcell & Hout1 & Hfree).
  destruct (batch_cell_run blur contrast this _ w w1 Hdir Hens Hblur)
    as (w2 & w' & Hfs & Hall & Hrun).
  set (dir := (output_dir this ++ "/" ++ name)%string) in *.
  set (cell := set_output_dir dir _) in *.
  exists (set_output_dir (output_dir this) cell), w'.
  split; [exact Hrun|].
  pose proof (keeps_directories_processAllImages cell w2) as Hdirs.
  rewrite Hall in Hdirs. cbn [snd] in Hdirs. rewrite Hfs in Hdirs.
  split; [now rewrite (names_directory_kept (fs w1) (fs w'))|].
  split; [now rewrite (names_directory_kept (fs w1) (fs w'))|].
  intros before p after image Hpaths Hdec Hp Hfile Hbefore Hafter.
  destruct (Hblur image) as [blurred Hb]. exists blurred. split; [exact Hb|].
  apply (processAllImages_write cell before p after image blurred w2 w');
    try assumption; rewrite ?Hfs; try assumption.
  - unfold decoded in *.
    destruct (Fs.read p (fs w)) as [bytes|] eqn:Hread; [|discriminate].
    change w1 with (snd (Ok tt, w1)). rewrite <- Hens.
    now rewrite (ensure_directory_read _ _ _ _ Hread).
  - now apply Hfree.
Qed.

End SweepCells.

Section SweepOthers.
Context `{Platform} `{OpenCV}.
Import ImageProcessor.

(** The directories of two pairs are different places, and no file of one
    is a target of the other. *)
Lemma other_directory_not_target output_dir blur1 contrast1 blur2 contrast2 dir1 dir2
      name paths :
  param_dir output_dir blur1 contrast1 = Ok dir1 ->
  param_dir output_dir blur2 contrast2 = Ok dir2 ->
  dir1 <> dir2 ->
  proper_name name = true ->
  ~ targets dir1 paths (Fs.resolve (dir2 ++ "/" ++ name)).
Proof.
  intros H1 H2 Hne Hname (p & _ & E).
  apply param_dir_child in H1 as (s1 & Hp1 & ->).
  apply param_dir_child in H2 as (s2 & Hp2 & ->).
  assert (Hs : s1 <> s2) by (intros Es; apply Hne; now rewrite Es).
  set (R := Fs.resolve output_dir) in *.
  assert (Hd : forall s, proper_name s = true ->
                         Fs.resolve (output_dir ++ "/" ++ s) = R ++ [s]).
  { intros s Hp. rewrite resolve_child, step_proper; auto.
    now apply proper_name_no_slash. }
  rewrite (resolve_child _ name), step_proper in E
    by (auto; now apply proper_name_no_slash).
  rewrite (resolve_child _ (Fs.filename p)) in E by apply filename_no_slash.
  rewrite !Hd in E by assumption.
  destruct (step_cases (R ++ [s1]) (Fs.filename p)) as [E'|[E'|E']];
    rewrite E' in E; clear E'.
  - rewrite <- app_assoc in E. apply app_inv_head in E. discriminate.
  - rewrite removelast_last in E. apply (f_equal (@length _)) in E.
    rewrite !length_app in E. cbn in E. lia.
  - rewrite <- !app_assoc in E. apply app_inv_head in E.
    cbn [app] in E. injection E as E _. congruence.
Qed.

(** A cell leaves what is read in the directory of a pair with another
    directory as it is. *)
Lemma batch_cell_keeps_other this blur contrast blur' contrast' other name content
      (w : world) :
  param_dir (output_dir this) blur' contrast' = Ok other ->
  param_dir (output_dir this) blur contrast <> Ok other ->
  proper_name name = true ->
  Fs.read (other ++ "/" ++ name) (fs w) = Some content ->
  Fs.read (other ++ "/" ++ name) (fs (snd (batch_cell blur contrast this w)))
  = Some content.
Proof.
  intros Hother Hne Hname Hread. unfold batch_cell.
  destruct (param_dir (output_dir this) blur contrast) as [dir| |] eqn:Hdir;
    try exact Hread.
  unfold bindA at 1. unfold lift. unfold bindA at 1.
  pose proof (ensure_directory_read dir _ _ w Hread) as Hread1.
  destruct (ensure_directory dir w) as [[[]| |] w1]; try exact Hread1.
  cbn [snd] in Hread1. rewrite <- Hread1.
  apply (read_kept (targets dir (image_paths this))).
  - apply keeps_directories_bind;
      [apply keeps_directories_when; now apply keeps_directories_pure|].
    intros _. apply keeps_directories_bind; [|intros _; now apply keeps_directories_pure].
    apply keeps_directories_processAllImages.
  - apply writes_only_bind; [apply writes_only_when; now apply writes_only_pure|].
    intros _. apply writes_only_bind; [|intros _; now apply writes_only_pure].
    exact (writes_only_processAllImages
             (set_output_dir dir
                (setProcessingParameters blur contrast (contrast_beta this)
                                         (apply_edge_detection this) this))).
  - apply (other_directory_not_target (output_dir this) blur contrast blur' contrast');
      try assumption.
    intros E. apply Hne. now rewrite E.
Qed.

(** So do the cells of a sweep, none of which has that directory. *)
Lemma cells_keep_other cells this blur' contrast' other name content (w : world) :
  param_dir (output_dir this) blur' contrast' = Ok other ->
  (forall cell, In cell cells ->
                param_dir (output_dir this) (fst cell) (snd cell) <> Ok other) ->
  proper_name name = true ->
  Fs.read (other ++ "/" ++ name) (fs w) = Some content ->
  Fs.read (other ++ "/" ++ name)
          (fs (snd (for_each cells (fun cell => batch_cell (fst cell) (snd cell)) this w)))
  = Some content.
Proof.
  revert this w. induction cells as [|[blur contrast] cells IH];
    intros this w Hother Hcells Hname Hread; [exact Hread|].
  cbn [for_each fst snd]. unfold bindA.
  pose proof (batch_cell_keeps_other this blur contrast blur' contrast' other name content w
                Hother (Hcells (blur, contrast) (or_introl eq_refl)) Hname Hread) as Hread1.
  destruct (batch_cell blur contrast this w) as [[this1| |] w1] eqn:Hcell;
    try exact Hread1.
  apply batch_cell_fields in Hcell.
  assert (Hout : output_dir this1 = output_dir this) by now subst this1.
  apply IH; rewrite ?Hout; try assumption.
  intros cell Hin. apply Hcells. now right.
Qed.

End SweepOthers.

Section SweepTheorem.
Context `{Platform} `{OpenCV}.
Import ImageProcessor.

(** C5 (amended): the sweep visits the cartesian product with the blur
    sizes in the outer loop.  The directory of a pair is
    [{output_dir}/blur{B}_contrast{K}], where [K] is [C * 10] cut to an
    integer, and two pairs get the same directory exactly when they have the
    same blur size and the same [K].  A cell changes files nowhere but at
    [{its directory}/{file name of an image of the corpus}].  Where the
    output directory is there, nothing but a directory has the name of the
    cell's directory and [GaussianBlur] accepts the blur size, the cell
    returns, its directory is there afterwards, and every image that decodes
    has its processed form (blurred with [B], contrast [C], the other
    settings of the object) under its own file name in that directory,
    whatever regular file had that name before, provided the name is a
    proper one, no later image of the corpus has the same file name and no
    earlier one was written over the image itself.  A cell creates and
    changes no file in the directory of a pair with another directory, and
    what is read in the directory of a pair stays as it is through all the
    cells of a sweep that have another directory. *)
Theorem batchProcess_sweep this :
  (forall blur_sizes contrast_values (w : world),
      batchProcess blur_sizes contrast_values this w
      = for_each (list_prod blur_sizes contrast_values)
                 (fun cell => batch_cell (fst cell) (snd cell)) this w)
  /\ (forall blur contrast dir,
         param_dir (output_dir this) blur contrast = Ok dir ->
         (exists c10,
             trunc_to_int (PrimFloat.mul contrast 10) = Ok c10 /\
             dir = (output_dir this ++ "/blur" ++ to_string blur
                                ++ "_contrast" ++ to_string c10)%string)
         /\ writes_only (targets dir (image_paths this)) (batch_cell blur contrast this)
         /\ forall w : world,
             names_directory (output_dir this) (fs w) = true ->
             takes_directory dir (fs w) = true ->
             (forall image, exists blurred, GaussianBlur image blur = Ok blurred) ->
             exists this' w',
               batch_cell blur contrast this w = (Ok this', w')
               /\ names_directory dir (fs w') = true
               /\ names_directory (output_dir this) (fs w') = true
               /\ forall before p after image,
                   image_paths this = before ++ p :: after ->
                   decoded p (fs w) = Some image ->
                   proper_name (Fs.filename p) = true ->
                   takes_file (dir ++ "/" ++ Fs.filename p) (fs w) = true ->
                   (forall p', In p' before ->
                               Fs.resolve (dir ++ "/" ++ Fs.filename p') <> Fs.resolve p) ->
                   (forall p', In p' after -> Fs.filename p' <> Fs.filename p) ->
                   exists blurred,
                     GaussianBlur image blur = Ok blurred
                     /\ Fs.read (dir ++ "/" ++ Fs.filename p) (fs w')
                        = Some (imencode (dir ++ "/" ++ Fs.filename p)
                                  (processed_image
                                     (setProcessingParameters
                                        blur contrast (contrast_beta this)
                                        (apply_edge_detection this) this)
                                     blurred)))
  /\ (forall blur1 contrast1 blur2 contrast2 dir1 dir2,
         param_dir (output_dir this) blur1 contrast1 = Ok dir1 ->
         param_dir (output_dir this) blur2 contrast2 = Ok dir2 ->
         (dir1 = dir2 <->
          blur1 = blur2 /\
          trunc_to_int (PrimFloat.mul contrast1 10) = trunc_to_int (PrimFloat.mul contrast2 10))
         /\ (dir1 <> dir2 ->
             forall name (w : world), proper_name name = true ->
               read_at (Fs.resolve (dir2 ++ "/" ++ name))
                       (fs (snd (batch_cell blur1 contrast1 this w)))
               = read_at (Fs.resolve (dir2 ++ "/" ++ name)) (fs w)))
  /\ (forall cells blur contrast dir name content (w : world),
         param_dir (output_dir this) blur contrast = Ok dir ->
         (forall cell, In cell cells ->
                       param_dir (output_dir this) (fst cell) (snd cell) <> Ok dir) ->
         proper_name name = true ->
         Fs.read (dir ++ "/" ++ name) (fs w) = Some content ->
         Fs.read (dir ++ "/" ++ name)
                 (fs (snd (for_each cells (fun cell => batch_cell (fst cell) (snd cell))
                                    this w)))
         = Some content).
Proof.
  split; [intros; apply batchProcess_list_prod|]. split; [|split].
  - intros blur contrast dir Hdir. split; [now apply param_dir_name|].
    split; [now apply writes_only_batch_cell|].
    intros w. now apply batch_cell_writes.
  - intros blur1 contrast1 blur2 contrast2 dir1 dir2 H1 H2. split.
    + destruct (param_dir_name _ _ _ _ H1) as (k1 & Hk1 & ->).
      destruct (param_dir_name _ _ _ _ H2) as (k2 & Hk2 & ->).
      rewrite Hk1, Hk2. split.
      * intros E. apply append_inj_l in E.
        apply subdir_name_inj in E as [-> ->]. now split.
      * intros [-> [= ->]]. reflexivity.
    + intros Hne name w Hname.
      now apply (batch_cell_other_directory blur1 contrast1 blur2 contrast2 this dir1 dir2).
  - intros cells blur contrast dir name content w Hdir Hcells Hname Hread.
    now apply (cells_keep_other cells this blur contrast).
Qed.

End SweepTheorem.

(** ** The theorems above at examples *)

Lemma movingAverage_crossed_window_witness :
  SignalProcessor.movingAverage (with_window (-2) 0.5) five_samples
  = Ok [nan; nan; nan; nan; nan].
Proof.
  apply (movingAverage_crossed_window (with_window (-2) 0.5) five_samples).
  - cbn. unfold Int.min. lia.
  - cbn. lia.
Defined.

Lemma movingAverage_wide_window_witness :
  SignalProcessor.movingAverage (with_window 10 0.5) five_samples
  = Ok [3; 3; 3; 3; 3]%float
  /\ mean five_samples = 3%float.
Proof.
  split; [|reflexivity].
  apply (movingAverage_wide_window (with_window 10 0.5) five_samples).
  - discriminate.
  - cbn. lia.
  - cbn. unfold Int.max. lia.
  - cbn. lia.
Defined.

Lemma findPeaks_no_neighbours_witness :
  SignalProcessor.findPeaks (with_window 1 0.5) bump = Ok [3]
  /\ ~ In (3 + 1) [3].
Proof.
  split; [reflexivity|].
  apply (findPeaks_no_neighbours (with_window 1 0.5) bump [3] 3).
  - reflexivity.
  - reflexivity.
  - now left.
Defined.

Lemma findPeaks_nan_threshold_witness :
  SignalProcessor.findPeaks (with_window 1 nan) bump = Ok [].
Proof.
  apply (findPeaks_nan_threshold (with_window 1 nan) 0%float (tl bump)).
  - reflexivity.
  - reflexivity.
Defined.

Lemma findPeaks_flat_witness :
  SignalProcessor.findPeaks (with_window 1 0.5) [1; 1; 1; 1; 1]%float = Ok [].
Proof.
  apply (findPeaks_flat (with_window 1 0.5) 1%float 4). reflexivity.
Defined.

Lemma processSignal_output_witness :
  let run := @SignalProcessor.processSignal example_platform "in/s.csv"
               (with_window 1 0.5) three_samples_world in
  fst run = Ok tt
  /\ Fs.read "out/processed_s.csv" (fs (snd run))
     = Some ("original,filtered,is_peak" ++ newline
               ++ "1,1,0" ++ newline ++ "5,5,1" ++ newline ++ "2,2,0" ++ newline)%string.
Proof.
  apply (@processSignal_output example_platform (with_window 1 0.5) "in/s.csv"
           ("value" ++ newline ++ "1" ++ newline ++ "5" ++ newline ++ "2" ++ newline)%string
           three_samples_world).
  - reflexivity.
  - vm_compute. discriminate.
  - cbn. unfold Int.max. lia.
  - vm_compute. discriminate.
  - vm_compute. discriminate.
  - vm_compute. discriminate.
Defined.

Lemma processSignal_unwritable_output_witness :
  @SignalProcessor.processSignal example_platform "in/s.csv" (with_window 1 0.5)
    blocked_output_world
  = (Ok tt, {| fs := fs blocked_output_world; ticks := 0; cout := [];
               cerr := ["Error: Could not create output file out/processed_s.csv"%string] |}).
Proof.
  apply (@processSignal_unwritable_output example_platform (with_window 1 0.5) "in/s.csv"
           ("value" ++ newline ++ "1" ++ newline ++ "5" ++ newline ++ "2" ++ newline)%string
           blocked_output_world).
  - reflexivity.
  - vm_compute. discriminate.
  - cbn. unfold Int.min, Int.max. lia.
  - vm_compute. discriminate.
  - reflexivity.
Defined.

Lemma processSignal_keeps_input_witness :
  Fs.read "in/s.csv"
          (fs (snd (@SignalProcessor.processSignal example_platform "in/s.csv"
                      (with_window 1 0.5) three_samples_world)))
  = Fs.read "in/s.csv" (fs three_samples_world).
Proof.
  apply (@processSignal_keeps_input example_platform (with_window 1 0.5) "in/s.csv"
           three_samples_world).
  reflexivity.
Defined.

(** A directory in the corpus is opened and gives no line; the run then
    ends as it does on a file without samples, in [findPeaks]. *)
Example processSignal_directory :
  Fs.open_in "in" (fs three_samples_world) = Some ""%string
  /\ fst (@SignalProcessor.processSignal example_platform "in" one_signal
                                         three_samples_world)
     = Fault OutOfRange.
Proof. split; vm_compute; reflexivity. Qed.

Lemma processAllSignals_unreadable_witness :
  let run := @SignalProcessor.processAllSignals example_platform lost_files
               three_samples_world in
  fst run = Ok tt
  /\ fs (snd run) = fs three_samples_world
  /\ cerr (snd run) = ["Error: Could not open file in/gone.csv";
                       "Error: Could not open file in/lost.csv"]%string.
Proof.
  apply (@processAllSignals_unreadable example_platform lost_files three_samples_world).
  intros p [<-|[<-|[]]]; reflexivity.
Defined.

Lemma processImage_in_place_witness :
  Fs.read "in/a.png"
          (fs (snd (@ImageProcessor.processImage example_vision "in/a.png" in_place
                      images_world)))
  = Some "A+blur5+alpha150"%string.
Proof.
  apply (@processImage_in_place example_vision in_place "in/a.png" "A"%string
           "A"%string "A+blur5"%string images_world); reflexivity.
Defined.

Lemma processImage_unwritable_output_witness :
  @ImageProcessor.processImage example_vision "in/a.png" one_image images_world
  = (Ok tt, images_world).
Proof.
  apply (@processImage_unwritable_output example_vision one_image "in/a.png"
           "A"%string "A+blur5"%string images_world); reflexivity.
Defined.

Lemma processAllImages_never_faults_witness :
  never_faults (@ImageProcessor.processAllImages example_platform example_vision one_image).
Proof.
  apply (@processAllImages_never_faults example_platform example_vision one_image).
  intros image. eexists. reflexivity.
Defined.

Lemma processAllImages_undecodable_witness :
  let run := @ImageProcessor.processAllImages example_platform example_vision
               corrupt_only images_world in
  fst run = Ok tt
  /\ fs (snd run) = fs images_world
  /\ cerr (snd run) = ["Error: Could not read image in/b.JPG"%string].
Proof.
  apply (@processAllImages_undecodable example_platform example_vision corrupt_only
           images_world).
  intros p [<-|[]]. reflexivity.
Defined.

Lemma analyzeImages_statistics_witness :
  @ImageProcessor.analyzeImages example_platform example_vision one_image images_world
  = @ImageProcessor.report example_platform one_image
      {| ImageProcessor.total_size := 1;
         ImageProcessor.min_width := 1; ImageProcessor.max_width := 1;
         ImageProcessor.min_height := 1; ImageProcessor.max_height := 1 |}
      images_world.
Proof.
  apply (@analyzeImages_statistics example_platform example_vision one_image images_world).
  - discriminate.
  - intros p [<-|[]]. now exists "A"%string.
Defined.

Lemma main_help_witness :
  @main example_platform example_vision "cv" ["--verbose"; "--help"; "--mode"]%string
        images_world
  = (Exit 0, {| fs := fs images_world; ticks := 0; cout := usage; cerr := [] |}).
Proof.
  apply (@main_help example_platform example_vision "cv"%string ["--verbose"%string]
           ["--mode"%string] (set_verbose defaults) images_world); reflexivity.
Defined.

Lemma main_rejected_number_witness :
  @main example_platform example_vision "cv"
        ["--mode"; "signal"; "--window"; "ten"; "--verbose"]%string images_world
  = (Terminate,
     {| fs := fs images_world; ticks := 0; cout := [];
        cerr := ["terminate called after throwing an instance of 'std::invalid_argument'";
                 "  what():  stoi"]%string |}).
Proof.
  apply (@main_rejected_number example_platform example_vision "cv"%string
           ["--mode"; "signal"]%string "--window"%string "ten"%string
           ["--verbose"%string] (set_mode "signal" defaults)
           (invalid_argument_in "stoi") images_world); reflexivity.
Defined.

Lemma main_invalid_mode_witness :
  @main example_platform example_vision "cv" ["--mode"; "audio"]%string images_world
  = (Exit 1,
     {| fs := fs images_world; ticks := 0;
        cout := "Starting processing in audio mode"%string :: usage;
        cerr := ["Error: Invalid mode. Use 'image' or 'signal'."%string] |}).
Proof.
  apply (@main_invalid_mode example_platform example_vision "cv"%string
           ["--mode"; "audio"]%string (set_mode "audio" defaults) images_world).
  - reflexivity.
  - discriminate.
  - discriminate.
Defined.


Lemma main_exit_codes_witness :
  let w' := {| fs := fs images_world; ticks := 0;
               cout := "Starting processing in audio mode"%string :: usage;
               cerr := ["Error: Invalid mode. Use 'image' or 'signal'."%string] |} in
  (1 = 0 /\ (cout w' = cout images_world ++ usage
             \/ exists lines, cout w' = lines ++ ["Processing completed successfully"%string]))
  \/ (1 = 1 /\ exists lines what, cerr w' = lines ++ [("Error: " ++ what)%string]).
Proof.
  intros w'.
  apply (@main_exit_codes example_platform example_vision "cv"%string
           ["--mode"; "audio"]%string 1 images_world w').
  vm_compute. reflexivity.
Defined.

Lemma first_line_is_dropped_witness :
  @SignalProcessor.read_samples example_platform
    (tl (@SignalProcessor.getlines [] (chars ("7" ++ newline ++ "8" ++ newline))))
  = [8%float].
Proof.
  apply (@first_line_is_dropped example_platform "7"%string ("8" ++ newline)%string).
  reflexivity.
Defined.

Lemma processAllSignals_frame_witness :
  read_at ["in"; "s.csv"]%string
          (fs (snd (@SignalProcessor.processAllSignals example_platform one_signal
                      three_samples_world)))
  = read_at ["in"; "s.csv"]%string (fs three_samples_world).
Proof.
  apply (@processAllSignals_frame example_platform one_signal three_samples_world
           ["in"; "s.csv"]%string).
  intros (p & [<-|[]] & E). vm_compute in E. discriminate.
Defined.

Lemma make_image_processor_witness :
  exists this w',
    ImageProcessor.make "in" "out" false mixed_case_world = (Ok this, w')
    /\ Fs.exists_ "out" (fs w') = true
    /\ (Fs.exists_ "out" (fs mixed_case_world) = false ->
        exists es, Fs.status "out" (fs w') = Some (Fs.Dir es))
    /\ (forall q, read_at q (fs w') = read_at q (fs mixed_case_world))
    /\ cerr w' = cerr mixed_case_world
    /\ ImageProcessor.setProcessingParameters 5 1.5%float 10 true this = this
    /\ ImageProcessor.output_dir this = "out"%string
    /\ ImageProcessor.verbose this = false
    /\ forall cs name content,
         Fs.lookup (Fs.resolve "in" ++ cs ++ [name]) (fs w') = Some (Fs.File content) ->
         no_slash (chars name) = true ->
         In (ImageProcessor.lowercase (Fs.extension name)) ImageProcessor.extensions ->
         In (join_all "in" (cs ++ [name])) (ImageProcessor.image_paths this).
Proof.
  eexists. eexists. split; [vm_compute; reflexivity|].
  apply (make_image_processor "in"%string "out"%string false _ mixed_case_world _).
  vm_compute. reflexivity.
Defined.

Lemma loadSignalFiles_corpus_witness :
  exists this',
    SignalProcessor.loadSignalFiles "in" one_signal mixed_case_world
    = (Ok this', mixed_case_world)
    /\ mixed_case_world = mixed_case_world
    /\ (forall p, In p (SignalProcessor.signal_files this') -> Fs.extension p = ".csv"%string)
    /\ forall cs name content,
         Fs.lookup (Fs.resolve "in" ++ cs ++ [name]) (fs mixed_case_world)
         = Some (Fs.File content) ->
         no_slash (chars name) = true ->
         Fs.extension name = ".csv"%string ->
         In (join_all "in" (cs ++ [name])) (SignalProcessor.signal_files this').
Proof.
  eexists. split; [vm_compute; reflexivity|].
  apply (loadSignalFiles_corpus "in"%string one_signal _ mixed_case_world mixed_case_world).
  vm_compute. reflexivity.
Defined.

Lemma batchProcess_sweep_witness :
  let first := snd (@ImageProcessor.batch_cell example_platform example_vision
                      3 1 two_images images_out_world) in
  Fs.read "out/blur3_contrast10/a.png" (fs first) = Some "A+blur3+alpha100"%string
  /\ exists this' w',
      @ImageProcessor.batch_cell example_platform example_vision
        3 1.05 two_images first = (Ok this', w')
      /\ Fs.read "out/blur3_contrast10/a.png" (fs w') = Some "A+blur3+alpha105"%string.
Proof.
  intros first. split; [vm_compute; reflexivity|].
  destruct (@batchProcess_sweep example_platform example_vision two_images)
    as (_ & Hcell & _).
  destruct (Hcell 3 1.05%float "out/blur3_contrast10"%string eq_refl) as (_ & _ & Hrun).
  destruct (Hrun first) as (this' & w' & Hok & _ & _ & Hfiles);
    [vm_compute; reflexivity | vm_compute; reflexivity
     | intros image; eexists; reflexivity |].
  exists this', w'. split; [exact Hok|].
  destruct (Hfiles [] "in/a.png"%string ["in/b.JPG"%string] "A"%string)
    as (blurred & Hblur & Hread);
    [ reflexivity | vm_compute; reflexivity | vm_compute; reflexivity
    | vm_compute; reflexivity | intros p' []
    | intros p' [<-|[]]; vm_compute; discriminate |].
  injection Hblur as <-. exact Hread.
Defined.
